(** * Photorific server: job registry, scanner, upload orchestrator, reconciler

    A shallow embedding of [src/server/index.js].  JavaScript objects that
    are shared by reference (the [Job] instances held both by the [jobs]
    map and by the request handlers) live in an explicit object store;
    the WebSocket fan-out is a log of the messages handed to the open
    clients; [setTimeout] callbacks are a list of pending timers. *)

From Stdlib Require Import ZArith Lia Bool Ascii String.
From Stdlib Require Import Floats Uint63.
From stdpp Require Import gmap strings list sorting pretty.

Set Warnings "-register-all".

Open Scope Z_scope.

(** ** JavaScript numbers

    [Job.updateProgress] divides two counts and multiplies by one hundred
    in IEEE 754 binary64 (round to nearest, ties to even) before calling
    [Math.round].  Only non-negative numbers occur (counts, lengths), so a
    number is [NaN], [Infinity] or a finite value [m * 2 ^ e] with
    [0 <= m]. *)
Module Number.

Inductive number : Type :=
| NaN
| Infinity
| Fin (m e : Z).

Definition of_int (z : Z) : number := Fin z 0.

Definition prec : Z := 53.
Definition emin : Z := -1074.
Definition emax : Z := 1024.

(** [floor (log2 (a / b))] for positive [a] and [b]. *)
Definition ilog2_ratio (a b : Z) : Z :=
  let d := Z.log2 a - Z.log2 b in
  if b * 2 ^ Z.max 0 d <=? a * 2 ^ Z.max 0 (- d) then d else d - 1.

(** Nearest integer to [n / d], ties to the even one. *)
Definition round_half_even (n d : Z) : Z :=
  let q := n / d in
  let r := n mod d in
  if 2 * r <? d then q
  else if d <? 2 * r then q + 1
  else if Z.even q then q else q + 1.

(** The binary64 value nearest to the rational [a / b], [0 <= a], [0 < b]. *)
Definition round_binary64 (a b : Z) : number :=
  if a <=? 0 then Fin 0 0
  else
    let e := Z.max emin (ilog2_ratio a b - (prec - 1)) in
    let m := round_half_even (a * 2 ^ Z.max 0 (- e)) (b * 2 ^ Z.max 0 e) in
    if (0 <=? e) && (2 ^ emax <=? m * 2 ^ e) then Infinity else Fin m e.

(** [x / y] *)
Definition div (x y : number) : number :=
  match x, y with
  | NaN, _ | _, NaN => NaN
  | Infinity, Infinity => NaN
  | Infinity, Fin _ _ => Infinity
  | Fin _ _, Infinity => Fin 0 0
  | Fin m1 e1, Fin m2 e2 =>
      if m2 <=? 0 then (if m1 <=? 0 then NaN else Infinity)
      else round_binary64 (m1 * 2 ^ Z.max 0 (e1 - e2)) (m2 * 2 ^ Z.max 0 (e2 - e1))
  end.

(** [x * y] *)
Definition mul (x y : number) : number :=
  match x, y with
  | NaN, _ | _, NaN => NaN
  | Infinity, Infinity => Infinity
  | Infinity, Fin m _ | Fin m _, Infinity => if m <=? 0 then NaN else Infinity
  | Fin m1 e1, Fin m2 e2 =>
      round_binary64 (m1 * m2 * 2 ^ Z.max 0 (e1 + e2)) (2 ^ Z.max 0 (- (e1 + e2)))
  end.

(** [Math.round]: the integer nearest to [x], ties towards [+Infinity],
    computed exactly. *)
Definition Math_round (x : number) : number :=
  match x with
  | NaN => NaN
  | Infinity => Infinity
  | Fin m e =>
      if 0 <=? e then Fin (m * 2 ^ e) 0
      else Fin ((2 * m + 2 ^ (- e)) / 2 ^ (1 - e)) 0
  end.

(** The same computation on the kernel's binary64 floats, used to
    cross-check the rounding model. *)
Definition to_float (x : number) : float :=
  match x with
  | NaN => PrimFloat.nan
  | Infinity => PrimFloat.infinity
  | Fin m e => Z.ldexp (PrimFloat.of_uint63 (Uint63.of_Z m)) e
  end.

Definition float_percent (k n : Z) : float :=
  PrimFloat.mul
    (PrimFloat.div (PrimFloat.of_uint63 (Uint63.of_Z k))
                   (PrimFloat.of_uint63 (Uint63.of_Z n)))
    (PrimFloat.of_uint63 (Uint63.of_Z 100)).

End Number.
Export Number.

(** ** JavaScript values *)

(** Truthiness of a string-or-null value: [null], [undefined] and the
    empty string are falsy. *)
Definition truthy (v : option string) : bool :=
  match v with
  | Some s => negb (String.eqb s "")
  | None => false
  end.

(** A settled promise or a call that may throw; an error carries its
    [message], which JavaScript does not force to be a non-empty string. *)
Inductive result (A : Type) : Type :=
| Ok (a : A)
| Err (message : option string).
Arguments Ok {A} a.
Arguments Err {A} message.

(** ** The Job class *)

Inductive Status : Type := running | completed | failed.

Record Job : Type := mkJob {
  id : string;
  type : string;
  status : Status;
  progress : number;
  totalItems : nat;
  completedItems : nat;
  failedItems : nat;
  startTime : Z;
  currentItem : option string;
  errors : list (option string)
}.

(** [new Job(id, type, totalItems)] at time [now]. *)
Definition new_Job (id type : string) (totalItems : nat) (now : Z) : Job :=
  {| id := id; type := type; status := running; progress := of_int 0;
     totalItems := totalItems; completedItems := 0; failedItems := 0;
     startTime := now; currentItem := None; errors := [] |}.

Module JobMethods.

(** The field updates of [updateProgress]; the broadcast that ends the
    method is added where the method is called on a stored object. *)
Definition updateProgress (completedItems : nat) (currentItem error : option string)
    (this : Job) : Job :=
  let p := Math_round (mul (div (of_int (Z.of_nat completedItems))
                                (of_int (Z.of_nat (totalItems this))))
                           (of_int 100)) in
  {| id := id this; type := type this; status := status this;
     progress := p;
     totalItems := totalItems this;
     completedItems := completedItems;
     failedItems := if truthy error then S (failedItems this) else failedItems this;
     startTime := startTime this;
     currentItem := currentItem;
     errors := if truthy error then errors this ++ [error] else errors this |}.

Definition complete (this : Job) : Job :=
  {| id := id this; type := type this; status := completed;
     progress := of_int 100;
     totalItems := totalItems this; completedItems := completedItems this;
     failedItems := failedItems this; startTime := startTime this;
     currentItem := None; errors := errors this |}.

Definition fail (error : option string) (this : Job) : Job :=
  {| id := id this; type := type this; status := failed;
     progress := progress this;
     totalItems := totalItems this; completedItems := completedItems this;
     failedItems := failedItems this; startTime := startTime this;
     currentItem := currentItem this; errors := errors this ++ [error] |}.

End JobMethods.

(** A call of one of the three mutating methods. *)
Inductive JobOp : Type :=
| OpUpdateProgress (completedItems : nat) (currentItem error : option string)
| OpComplete
| OpFail (error : option string).

Definition apply_op (op : JobOp) (j : Job) : Job :=
  match op with
  | OpUpdateProgress k cur err => JobMethods.updateProgress k cur err j
  | OpComplete => JobMethods.complete j
  | OpFail err => JobMethods.fail err j
  end.

Definition apply_ops (ops : list JobOp) (j : Job) : Job :=
  fold_left (fun j op => apply_op op j) ops j.

(** The status a sequence of calls leaves behind: that of the last
    [complete] or [fail] in it, and the starting one when there is none. *)
Fixpoint last_terminal (ops : list JobOp) (s : Status) : Status :=
  match ops with
  | [] => s
  | OpUpdateProgress _ _ _ :: ops => last_terminal ops s
  | OpComplete :: ops => last_terminal ops completed
  | OpFail _ :: ops => last_terminal ops failed
  end.

(** ** Transfer strategy *)

Inductive Strategy : Type := buffered | streaming.

(** [fileSize > 100 * 1024 * 1024] *)
Definition isLargeFile (fileSize : Z) : bool := fileSize >? 100 * 1024 * 1024.

(** Which branch [if (isLargeFile)] takes. *)
Definition select (fileSize : Z) : Strategy :=
  if isLargeFile fileSize then streaming else buffered.

(** ** The runtime the server calls into

    Node's [path] module, [os.homedir], [String.prototype.toLowerCase] and
    the regular-expression replace used to strip the key prefix are
    library code; the server is modelled over any implementation of
    them. *)
Class Runtime : Type := {
  path_basename : string -> string;
  path_extname : string -> string;
  path_join : string -> string -> string;
  path_relative : string -> string -> string;
  os_homedir : string;
  toLowerCase : string -> string;
  (** [key.replace(new RegExp(source), '')]; building the expression
      throws on a malformed source. *)
  regexp_remove : string -> string -> result string;
  (** The id the [n]-th call of [uuidv4()] returns. *)
  uuidv4 : nat -> string
}.

Section Server.

Context {RT : Runtime}.

(** [filePath.slice(2)] *)
Definition slice2 (s : string) : string :=
  String.substring 2 (String.length s - 2) s.

Definition expandTilde (filePath : string) : string :=
  if String.prefix "~/" filePath
  then path_join os_homedir (slice2 filePath)
  else filePath.

Definition getSupportedExtensions : list string :=
  [ ".jpg"; ".jpeg"; ".png"; ".gif"; ".bmp"; ".tiff"; ".tif"; ".webp"; ".heic"; ".heif";
    ".cr2"; ".cr3"; ".crw";
    ".nef"; ".nrw";
    ".arw"; ".srf"; ".sr2";
    ".dng";
    ".raf";
    ".orf";
    ".rw2"; ".raw";
    ".pef"; ".ptx";
    ".dng"; ".rwl";
    ".iiq";
    ".3fr";
    ".mef";
    ".dcr"; ".kdc";
    ".mrw";
    ".srw";
    ".x3f";
    ".erf";
    ".mp4"; ".mov"; ".avi"; ".mkv"; ".wmv"; ".flv"; ".webm"; ".m4v"; ".3gp"; ".mts";
    ".m2ts"; ".mpg"; ".mpeg"; ".m2v"; ".asf"; ".rm"; ".rmvb"; ".vob"; ".ts"; ".f4v" ]%string.

Definition isImageFile (filename : string) : bool :=
  let ext := toLowerCase (path_extname filename) in
  bool_decide (ext ∈ getSupportedExtensions).

(** ** Inventory scanner *)

(** What [fs.stat] and [fs.readdir] find at a path. *)
Inductive FsNode : Type :=
| FsFile (size mtime : Z)
| FsDir (items : list (string * FsNode))
| FsUnreadableDir (message : option string)
| FsOther
| FsBroken (message : option string).

Record Photo : Type := mkPhoto {
  photo_id : string;
  photo_name : string;
  photo_size : Z;
  photo_path : string;
  photo_relativePath : string;
  photo_lastModified : Z
}.

Inductive FolderData : Type := mkFolderData {
  name : string;
  path : string;
  photos : list Photo;
  subfolders : list (string * FolderData);
  photoCount : nat;
  totalSize : Z
}.

(** [obj[key] = value] on an object used as a map from names, kept in
    insertion order: an existing property keeps its place.  (The order
    JavaScript lists the properties in plays no part below.) *)
Fixpoint obj_set {V : Type} (key : string) (value : V) (obj : list (string * V))
    : list (string * V) :=
  match obj with
  | [] => [(key, value)]
  | (k, v) :: rest =>
      if String.eqb k key then (k, value) :: rest
      else (k, v) :: obj_set key value rest
  end.

(** The scan shares two things with the enclosing handler: the
    [totalPhotos] counter and the stream of ids [uuidv4] hands out. *)
Record ScanState : Type := mkScanState {
  totalPhotos : nat;
  uuids_drawn : nat
}.

Definition add_subfolder (item : string) (subfolder folderData : FolderData) : FolderData :=
  {| name := name folderData; path := path folderData;
     photos := photos folderData;
     subfolders := obj_set item subfolder (subfolders folderData);
     photoCount := (photoCount folderData + photoCount subfolder)%nat;
     totalSize := totalSize folderData + totalSize subfolder |}.

Definition add_photo (photo : Photo) (folderData : FolderData) : FolderData :=
  {| name := name folderData; path := path folderData;
     photos := photos folderData ++ [photo];
     subfolders := subfolders folderData;
     photoCount := S (photoCount folderData);
     totalSize := totalSize folderData + photo_size photo |}.

(** The loop over the directory entries; [scanDirectory] is the
    function itself, called on the subdirectories. *)
Definition scan_items
    (scanDirectory : FsNode -> string -> string -> ScanState
                     -> result (FolderData * ScanState))
    (dirPath relativePath : string)
    : list (string * FsNode) -> FolderData -> ScanState
      -> result (FolderData * ScanState) :=
  fix each (items : list (string * FsNode)) (folderData : FolderData)
      (st : ScanState) {struct items} : result (FolderData * ScanState) :=
    match items with
    | [] => Ok (folderData, st)
    | (item, node) :: rest =>
        let itemPath := path_join dirPath item in
        let relativeItemPath := path_join relativePath item in
        match node with
        | FsBroken message => Err message
        | FsDir _ | FsUnreadableDir _ =>
            match scanDirectory node itemPath relativeItemPath st with
            | Err message => Err message
            | Ok (subfolder, st) => each rest (add_subfolder item subfolder folderData) st
            end
        | FsFile size mtime =>
            if isImageFile item then
              let photo :=
                {| photo_id := uuidv4 (uuids_drawn st); photo_name := item;
                   photo_size := size; photo_path := itemPath;
                   photo_relativePath := relativeItemPath;
                   photo_lastModified := mtime |} in
              each rest (add_photo photo folderData)
                   {| totalPhotos := S (totalPhotos st);
                      uuids_drawn := S (uuids_drawn st) |}
            else each rest folderData st
        | FsOther => each rest folderData st
        end
    end.

Fixpoint scanDirectory (dir : FsNode) (dirPath relativePath : string) (st : ScanState)
    {struct dir} : result (FolderData * ScanState) :=
  match dir with
  | FsDir items =>
      scan_items scanDirectory dirPath relativePath items
        {| name := path_basename dirPath; path := relativePath; photos := [];
           subfolders := []; photoCount := 0%nat; totalSize := 0 |}
        st
  | FsUnreadableDir message => Err message
  | FsBroken message => Err message
  | FsFile _ _ | FsOther => Err (Some "ENOTDIR: not a directory, scandir"%string)
  end.

(** The [/api/scan-photos] handler: [None] stands for a missing folder
    (status 400), [Some (Err _)] for a scan that threw (status 500). *)
Definition scan_photos (root : option FsNode) (folderPath : string)
    : option (result (FolderData * nat)) :=
  let expandedPath := expandTilde folderPath in
  match root with
  | None => None
  | Some dir =>
      Some match scanDirectory dir expandedPath "" (mkScanState 0 0) with
           | Ok (rootFolder, st) => Ok (rootFolder, totalPhotos st)
           | Err message => Err message
           end
  end.

(** ** Server state *)

(** One entry of the [results] array of an upload. *)
Inductive TransferOutcome : Type :=
| Uploaded (path s3Key relativePath : string)
| NotUploaded (path : string) (error : option string).

Definition success (o : TransferOutcome) : bool :=
  match o with
  | Uploaded _ _ _ => true
  | NotUploaded _ _ => false
  end.

(** [{ ...file, inS3, s3Key }] *)
Record SyncEntry : Type := mkSyncEntry {
  file : Photo;
  inS3 : bool;
  s3Key : string
}.

(** The messages [client.send] hands to every open WebSocket client.  A
    [job_update] carries the fields of the job as they are when it is
    serialised (its [duration] is left out). *)
Inductive Message : Type :=
| job_update (job : Job)
| sync_status_result (jobId : string) (syncStatus : gmap string SyncEntry)
    (s3ObjectCount : nat)
| file_upload_success (jobId relativePath s3Key : string) (folderPath fileId : option string)
| upload_result (jobId : string) (results : list TransferOutcome)
    (folderPath fileId : option string).

(** What a handler writes to its HTTP response. *)
Inductive Reply : Type :=
| reply_started (jobId message : string)
| reply_sync_status (syncStatus : gmap string SyncEntry) (s3ObjectCount : nat)
| reply_error (code : Z) (error : string).

Record Server : Type := mkServer {
  (** The [Job] instances, by reference. *)
  objects : list Job;
  (** [const jobs = new Map()]: job id to instance. *)
  jobs : gmap string nat;
  (** Messages broadcast so far, oldest first. *)
  sent : list Message;
  (** Pending [setTimeout(() => jobs.delete(jobId), delay)] callbacks with
      the time left. *)
  timers : list (Z * string);
  (** What the handlers wrote to their responses, oldest first. *)
  replies : list Reply
}.

(** The job the registry holds under an id. *)
Definition registered (st : Server) (jobId : string) : option Job :=
  jobs st !! jobId ≫= fun ref => objects st !! ref.

(** Time passing on the event loop: timers that fall due run their
    callback, the others get closer. *)
Definition elapse (dt : Z) (st : Server) : Server :=
  let due := filter (fun t => fst t ≤ dt) (timers st) in
  let pending := filter (fun t => dt < fst t) (timers st) in
  {| objects := objects st;
     jobs := foldr (fun t m => delete (snd t) m) (jobs st) due;
     sent := sent st;
     timers := (fun t => (fst t - dt, snd t)) <$> pending;
     replies := replies st |}.

(** ** Handlers as stateful computations that may throw

    [None] is a handler that never settles (the paging loop of the
    reconciler has no bound of its own). *)
Definition M (A : Type) : Type := Server -> option (result A * Server).

Definition ret {A} (a : A) : M A := fun st => Some (Ok a, st).

Definition throw {A} (message : option string) : M A := fun st => Some (Err message, st).

Definition bind {A B} (c : M A) (k : A -> M B) : M B := fun st =>
  match c st with
  | None => None
  | Some (Ok a, st') => k a st'
  | Some (Err message, st') => Some (Err message, st')
  end.

Definition try_catch {A} (body : M A) (handler : option string -> M A) : M A := fun st =>
  match body st with
  | None => None
  | Some (Ok a, st') => Some (Ok a, st')
  | Some (Err message, st') => handler message st'
  end.

Definition lift {A} (r : result A) : M A := fun st => Some (r, st).

Definition lift_loop {A} (r : option (result A)) : M A := fun st =>
  match r with
  | None => None
  | Some r => Some (r, st)
  end.

Definition modify (f : Server -> Server) : M unit := fun st => Some (Ok tt, f st).

Notation "x <- c1 ;; c2" := (bind c1 (fun x => c2))
  (at level 100, c1 at next level, right associativity).
Notation "c1 ;; c2" := (bind c1 (fun _ => c2))
  (at level 100, right associativity).

Fixpoint for_each {A} (xs : list A) (body : A -> M unit) : M unit :=
  match xs with
  | [] => ret tt
  | x :: xs => body x ;; for_each xs body
  end.

Definition broadcast (m : Message) : M unit :=
  modify (fun st =>
    {| objects := objects st; jobs := jobs st; sent := sent st ++ [m];
       timers := timers st; replies := replies st |}).

Definition reply (r : Reply) : M unit :=
  modify (fun st =>
    {| objects := objects st; jobs := jobs st; sent := sent st;
       timers := timers st; replies := replies st ++ [r] |}).

(** [new Job(id, type, totalItems)]: a fresh instance. *)
Definition construct_Job (id type : string) (totalItems : nat) (now : Z) : M nat := fun st =>
  Some (Ok (length (objects st)),
        {| objects := objects st ++ [new_Job id type totalItems now];
           jobs := jobs st; sent := sent st; timers := timers st;
           replies := replies st |}).

Definition jobs_set (jobId : string) (job : nat) : M unit :=
  modify (fun st =>
    {| objects := objects st; jobs := <[jobId := job]> (jobs st); sent := sent st;
       timers := timers st; replies := replies st |}).

(** A method call on the instance behind a reference: the fields change
    and [broadcastUpdate] sends them. *)
Definition call (method : Job -> Job) (job : nat) : M unit :=
  modify (fun st =>
    match objects st !! job with
    | Some this =>
        {| objects := <[job := method this]> (objects st); jobs := jobs st;
           sent := sent st ++ [job_update (method this)];
           timers := timers st; replies := replies st |}
    | None => st
    end).

Definition job_updateProgress (job : nat) (completedItems : nat)
    (currentItem error : option string) : M unit :=
  call (JobMethods.updateProgress completedItems currentItem error) job.

Definition job_complete (job : nat) : M unit := call JobMethods.complete job.

Definition job_fail (job : nat) (error : option string) : M unit :=
  call (JobMethods.fail error) job.

(** [setTimeout(() => jobs.delete(jobId), delay)] *)
Definition setTimeout_delete (jobId : string) (delay : Z) : M unit :=
  modify (fun st =>
    {| objects := objects st; jobs := jobs st; sent := sent st;
       timers := timers st ++ [(delay, jobId)]; replies := replies st |}).

(** [await new Promise(resolve => setTimeout(resolve, ms))] *)
Definition sleep (ms : Z) : M unit := modify (elapse ms).

(** The [catch] block shared by the two tracked handlers: the job is
    looked up under [req.body.jobId]. *)
Definition fail_requested_job (body_jobId message : option string) : M unit := fun st =>
  match body_jobId with
  | Some jobId =>
      if truthy body_jobId then
        match jobs st !! jobId with
        | Some job => job_fail job message st
        | None => Some (Ok tt, st)
        end
      else Some (Ok tt, st)
  | None => Some (Ok tt, st)
  end.

(** ** Requests and the outside world *)

Record Config : Type := mkConfig {
  (** [config.folderPath]; [None] when the client left it out. *)
  config_folderPath : option string;
  config_bucketName : string
}.

Record UploadRequest : Type := mkUploadRequest {
  photoPaths : list string;
  upload_config : Config;
  deleteAfterUpload : bool;
  preserveStructure : bool;
  folderPath : option string;
  fileId : option string;
  (** [req.body.jobId], which the [catch] block reads. *)
  upload_body_jobId : option string
}.

Record SyncRequest : Type := mkSyncRequest {
  sync_config : Config;
  localFiles : list Photo;
  sync_body_jobId : option string
}.

(** What the file system and the store answer while one file is
    transferred. *)
Record FileIO : Type := mkFileIO {
  io_stat : result Z;
  io_readFile : result unit;
  (** [httpUploadProgress] events: [(loaded, total)]. *)
  io_progress : list (Z * Z);
  io_upload : result unit;
  io_remove : result unit;
  (** [Date.now()] *)
  io_now : Z
}.

Record ListResponse : Type := mkListResponse {
  Contents : option (list string);
  NextContinuationToken : option string
}.

(** [s3.listObjectsV2({Bucket, Prefix, ContinuationToken}).promise()] *)
Definition S3List : Type := string -> string -> option string -> result ListResponse.

(** [expandTilde(config.folderPath)]: [startsWith] of [undefined] throws. *)
Definition expandTilde_of (folderPath : option string) : result string :=
  match folderPath with
  | Some p => Ok (expandTilde p)
  | None =>
      Err (Some "Cannot read properties of undefined (reading 'startsWith')"%string)
  end.

Definition baseFolderName_of (config : Config) : result string :=
  match expandTilde_of (config_folderPath config) with
  | Ok p => Ok (path_basename p)
  | Err message => Err message
  end.

(** ** Destination keys *)

(** [relativePath.replace(/\\/g, '/')] *)
Fixpoint backslashes_to_slashes (s : string) : string :=
  match s with
  | EmptyString => EmptyString
  | String c rest =>
      String (if Ascii.eqb c "\"%char then "/"%char else c) (backslashes_to_slashes rest)
  end.

Definition upload_s3Key (preserveStructure : bool) (baseFolderName relativePath filename : string)
    (now : Z) : string :=
  if preserveStructure
  then baseFolderName +:+ "/" +:+ backslashes_to_slashes relativePath
  else baseFolderName +:+ "/" +:+ pretty now +:+ "_" +:+ filename.

(** ** Upload orchestrator: [/api/upload-folder] *)

(** [Math.round((progress.loaded / progress.total) * 100)] in a template
    literal. *)
Definition percent_text (loaded total : Z) : string :=
  match Math_round (mul (div (of_int loaded) (of_int total)) (of_int 100)) with
  | NaN => "NaN"
  | Infinity => "Infinity"
  | Fin m e => pretty (m * 2 ^ e)
  end.

(** The two branches of [if (isLargeFile)]: a streamed upload reports
    byte progress through the job, a buffered one reads the file first. *)
Definition transfer (strategy : Strategy) (job : nat) (i : nat) (filename : string)
    (io : FileIO) : M unit :=
  match strategy with
  | streaming =>
      for_each (io_progress io) (fun p =>
        job_updateProgress job i
          (Some (filename +:+ " (" +:+ percent_text (fst p) (snd p) +:+ "%)")) None) ;;
      lift (io_upload io)
  | buffered =>
      lift (io_readFile io) ;;
      lift (io_upload io)
  end.

(** One turn of the loop over [photoPaths]. *)
Definition upload_one (req : UploadRequest) (jobId : string) (job : nat)
    (root baseFolderName : string) (i : nat) (photoPath : string) (io : FileIO)
    (results : list TransferOutcome) : M (list TransferOutcome) :=
  let filename := path_basename photoPath in
  job_updateProgress job i (Some filename) None ;;
  r <- try_catch
         (fileSize <- lift (io_stat io) ;;
          let relativePath := path_relative root photoPath in
          let s3Key := upload_s3Key (preserveStructure req) baseFolderName relativePath
                         filename (io_now io) in
          transfer (select fileSize) job i filename io ;;
          (if deleteAfterUpload req then lift (io_remove io) else ret tt) ;;
          let results := results ++ [Uploaded photoPath s3Key relativePath] in
          broadcast (file_upload_success jobId relativePath s3Key
                       (folderPath req) (fileId req)) ;;
          ret (results, false))
         (fun message =>
            let results := results ++ [NotUploaded photoPath message] in
            job_updateProgress job (i + 1) (Some filename) message ;;
            ret (results, true)) ;;
  let '(results, continue) := r in
  if continue : bool then ret results
  else
    job_updateProgress job (i + 1) (Some filename) None ;;
    ret results.

Fixpoint upload_loop (req : UploadRequest) (jobId : string) (job : nat)
    (root baseFolderName : string) (i : nat) (paths : list string) (io : nat -> FileIO)
    (results : list TransferOutcome) : M (list TransferOutcome) :=
  match paths with
  | [] => ret results
  | photoPath :: paths =>
      results <- upload_one req jobId job root baseFolderName i photoPath (io i) results ;;
      upload_loop req jobId job root baseFolderName (S i) paths io results
  end.

(** A property added to the message only when its value is truthy. *)
Definition if_truthy (v : option string) : option string :=
  if truthy v then v else None.

Definition upload_folder (req : UploadRequest) (uuid : string) (now : Z)
    (io : nat -> FileIO) : M unit :=
  try_catch
    (let jobId := uuid in
     job <- construct_Job jobId "upload" (length (photoPaths req)) now ;;
     jobs_set jobId job ;;
     reply (reply_started jobId "Upload started") ;;
     root <- lift (expandTilde_of (config_folderPath (upload_config req))) ;;
     let baseFolderName := path_basename root in
     results <- upload_loop req jobId job root baseFolderName 0 (photoPaths req) io [] ;;
     broadcast (upload_result jobId results (if_truthy (folderPath req))
                  (if_truthy (fileId req))) ;;
     job_complete job ;;
     setTimeout_delete jobId 30000)
    (fun message =>
       fail_requested_job (upload_body_jobId req) message ;;
       reply (reply_error 500 "Folder upload failed")).

(** ** Sync reconciler *)

(** [response.Contents?.forEach(...)]: every key loses the prefix and
    joins the set. *)
Fixpoint add_keys (source : string) (keys : list string) (s3Objects : gset string)
    : result (gset string) :=
  match keys with
  | [] => Ok s3Objects
  | key :: keys =>
      match regexp_remove source key with
      | Ok relativePath => add_keys source keys (s3Objects ∪ {[relativePath]})
      | Err message => Err message
      end
  end.

(** The [do ... while (continuationToken)] loop, [fuel] turns at most. *)
Fixpoint list_all (fuel : nat) (s3 : S3List) (bucket baseFolderName : string)
    (continuationToken : option string) (s3Objects : gset string)
    : option (result (gset string)) :=
  match fuel with
  | O => None
  | S fuel =>
      match s3 bucket (baseFolderName +:+ "/") continuationToken with
      | Err message => Some (Err message)
      | Ok response =>
          match add_keys ("^" +:+ baseFolderName +:+ "/")
                  (default [] (Contents response)) s3Objects with
          | Err message => Some (Err message)
          | Ok s3Objects =>
              let continuationToken := NextContinuationToken response in
              if truthy continuationToken
              then list_all fuel s3 bucket baseFolderName continuationToken s3Objects
              else Some (Ok s3Objects)
          end
      end
  end.

Definition sync_entry (baseFolderName : string) (s3Objects : gset string) (f : Photo)
    : SyncEntry :=
  {| file := f;
     inS3 := bool_decide (photo_relativePath f ∈ s3Objects);
     s3Key := baseFolderName +:+ "/" +:+ photo_relativePath f |}.

(** The comparison loop of the simple handler. *)
Fixpoint compare_simple (baseFolderName : string) (s3Objects : gset string)
    (files : list Photo) (syncStatus : gmap string SyncEntry) : gmap string SyncEntry :=
  match files with
  | [] => syncStatus
  | f :: files =>
      compare_simple baseFolderName s3Objects files
        (<[photo_relativePath f := sync_entry baseFolderName s3Objects f]> syncStatus)
  end.

Definition check_sync_status_simple (req : SyncRequest) (s3 : S3List) (fuel : nat) : M unit :=
  try_catch
    (baseFolderName <- lift (baseFolderName_of (sync_config req)) ;;
     s3Objects <- lift_loop (list_all fuel s3 (config_bucketName (sync_config req))
                               baseFolderName None ∅) ;;
     let syncStatus := compare_simple baseFolderName s3Objects (localFiles req) ∅ in
     reply (reply_sync_status syncStatus (size s3Objects)))
    (fun _ => reply (reply_error 500 "Failed to check sync status")).

(** The comparison loop of the tracked handler, from index [i]. *)
Fixpoint compare_tracked (job : nat) (baseFolderName : string) (s3Objects : gset string)
    (i : nat) (files : list Photo) (syncStatus : gmap string SyncEntry)
    : M (gmap string SyncEntry) :=
  match files with
  | [] => ret syncStatus
  | f :: files =>
      let syncStatus :=
        <[photo_relativePath f := sync_entry baseFolderName s3Objects f]> syncStatus in
      job_updateProgress job (i + 1) (Some (photo_name f)) None ;;
      (if (i mod 10 =? 0)%nat then sleep 10 else ret tt) ;;
      compare_tracked job baseFolderName s3Objects (S i) files syncStatus
  end.

Definition check_sync_status (req : SyncRequest) (uuid : string) (now : Z)
    (s3 : S3List) (fuel : nat) : M unit :=
  try_catch
    (let jobId := uuid in
     job <- construct_Job jobId "sync_check" (length (localFiles req)) now ;;
     jobs_set jobId job ;;
     reply (reply_started jobId "Sync check started") ;;
     baseFolderName <- lift (baseFolderName_of (sync_config req)) ;;
     s3Objects <- lift_loop (list_all fuel s3 (config_bucketName (sync_config req))
                               baseFolderName None ∅) ;;
     syncStatus <- compare_tracked job baseFolderName s3Objects 0 (localFiles req) ∅ ;;
     broadcast (sync_status_result jobId syncStatus (size s3Objects)) ;;
     job_complete job ;;
     setTimeout_delete jobId 30000)
    (fun message =>
       fail_requested_job (sync_body_jobId req) message ;;
       reply (reply_error 500 "Failed to check sync status")).

End Server.

(** ** A concrete runtime

    Enough of POSIX Node to run the handlers on examples: absolute,
    normalised paths; ASCII letters; key prefixes without
    regular-expression metacharacters. *)
Module Posix.

Fixpoint last_segment (s acc : string) : string :=
  match s with
  | EmptyString => acc
  | String c rest =>
      if Ascii.eqb c "/"%char then last_segment rest EmptyString
      else last_segment rest (acc +:+ String c EmptyString)
  end.

Definition basename (p : string) : string := last_segment p EmptyString.

(** From the last dot of the name on, unless that dot starts it. *)
Fixpoint last_dot (s : string) (acc : option string) : option string :=
  match s with
  | EmptyString => acc
  | String c rest =>
      if Ascii.eqb c "."%char then last_dot rest (Some (String c rest))
      else last_dot rest acc
  end.

Definition extname (p : string) : string :=
  match basename p with
  | EmptyString => EmptyString
  | String c rest => default EmptyString (last_dot rest None)
  end.

Definition join (a b : string) : string :=
  if String.eqb a "" then b
  else if String.eqb b "" then a
  else a +:+ "/" +:+ b.

Definition drop_prefix (p s : string) : string :=
  if String.prefix p s
  then String.substring (String.length p) (String.length s - String.length p) s
  else s.

Definition relative (from to : string) : string := drop_prefix (from +:+ "/") to.

Definition lower (c : ascii) : ascii :=
  let n := nat_of_ascii c in
  if ((65 <=? n) && (n <=? 90))%nat then ascii_of_nat (n + 32) else c.

Fixpoint lowercase (s : string) : string :=
  match s with
  | EmptyString => EmptyString
  | String c rest => String (lower c) (lowercase rest)
  end.

Definition remove_anchored (source key : string) : result string :=
  Ok (drop_prefix (drop_prefix "^" source) key).

#[export] Instance runtime : Runtime := {|
  path_basename := basename;
  path_extname := extname;
  path_join := join;
  path_relative := relative;
  os_homedir := "/home/user";
  toLowerCase := lowercase;
  regexp_remove := remove_anchored;
  uuidv4 := fun n => "uuid-" +:+ pretty n
|}.

End Posix.

(** ** Example data *)
Module Examples.

Import Posix.

Definition empty_server : Server :=
  {| objects := []; jobs := ∅; sent := []; timers := []; replies := [] |}.

(** What is left of a handler run: the state, when it settled. *)
Definition final_state (r : option (result unit * Server)) : Server :=
  match r with
  | Some (_, st) => st
  | None => empty_server
  end.

Definition config : Config :=
  {| config_folderPath := Some "~/photos"%string; config_bucketName := "bucket" |}.

Definition io_ok (size : Z) : FileIO :=
  {| io_stat := Ok size; io_readFile := Ok tt; io_progress := [];
     io_upload := Ok tt; io_remove := Ok tt; io_now := 1700000000000 |}.

Definition io_upload_fails (message : option string) : FileIO :=
  {| io_stat := Ok 2048; io_readFile := Ok tt; io_progress := [];
     io_upload := Err message; io_remove := Ok tt; io_now := 1700000000000 |}.

(** Three files in one batch. *)
Definition batch3 : UploadRequest :=
  {| photoPaths := ["/home/user/photos/a.jpg"; "/home/user/photos/b.jpg";
                    "/home/user/photos/c.jpg"]%string;
     upload_config := config; deleteAfterUpload := false; preserveStructure := true;
     folderPath := None; fileId := None; upload_body_jobId := None |}.

(** The second transfer is rejected with the given [error.message]. *)
Definition second_fails (message : option string) (i : nat) : FileIO :=
  if (i =? 1)%nat then io_upload_fails message else io_ok 2048.

(** A file whose name has a backslash in it. *)
Definition backslash_upload : UploadRequest :=
  {| photoPaths := ["/home/user/photos/2024\a.jpg"]%string;
     upload_config := config; deleteAfterUpload := false; preserveStructure := true;
     folderPath := None; fileId := None; upload_body_jobId := None |}.

Definition flat_upload : UploadRequest :=
  {| photoPaths := ["/home/user/photos/2024/a.jpg"]%string;
     upload_config := config; deleteAfterUpload := false; preserveStructure := false;
     folderPath := None; fileId := None; upload_body_jobId := None |}.


Definition local_file (name relativePath : string) : Photo :=
  {| photo_id := "id-" +:+ name; photo_name := name; photo_size := 2048;
     photo_path := "/home/user/photos/" +:+ relativePath;
     photo_relativePath := relativePath; photo_lastModified := 0 |}.

Definition sync_request (body_jobId : option string) : SyncRequest :=
  {| sync_config := config;
     localFiles := [local_file "a.jpg" "a.jpg"; local_file "b.jpg" "2024/b.jpg";
                    local_file "c.jpg" "c.jpg"];
     sync_body_jobId := body_jobId |}.

(** A store that rejects every listing. *)
Definition s3_unreachable : S3List :=
  fun _ _ _ => Err (Some "Access Denied"%string).

(** A store that answers in three pages; [c.jpg] was uploaded under the
    timestamped scheme only, [2024/b.jpg] is on the last page. *)
Definition s3_three_pages : S3List := fun _ _ token =>
  match token with
  | None =>
      Ok {| Contents := Some ["photos/a.jpg"; "photos/x.png"]%string;
            NextContinuationToken := Some "t1"%string |}
  | Some t =>
      if String.eqb t "t1" then
        Ok {| Contents := Some ["photos/1700000000000_c.jpg"]%string;
              NextContinuationToken := Some "t2"%string |}
      else
        Ok {| Contents := Some ["photos/2024/b.jpg"]%string;
              NextContinuationToken := None |}
  end.

(** A registry that already tracks a running job under the id ["victim"]. *)
Definition server_with_victim : Server :=
  {| objects := [new_Job "victim" "upload" 5 0]; jobs := {["victim"%string := 0%nat]};
     sent := []; timers := []; replies := [] |}.

(** The last [n] messages broadcast. *)
Definition last_sent (n : nat) (st : Server) : list Message :=
  drop (length (sent st) - n) (sent st).

(** A folder with two pictures, a text file, and a subfolder holding a
    video. *)
Definition photos_dir : FsNode :=
  FsDir [("a.jpg", FsFile 100 1); ("notes.txt", FsFile 7 2);
         ("2024", FsDir [("clip.MOV", FsFile 5000 3)]);
         ("b.png", FsFile 250 4)]%string.

End Examples.

(** ** What a batch comes to, file by file

    The reading of the upload loop the properties are stated against. *)
Section UploadTrace.

Context {RT : Runtime}.

(** The state in which the instance behind [job] has become [j] and [log]
    has been broadcast since [st]. *)
Definition with_job (job : nat) (j : Job) (log : list Message) (st : Server) : Server :=
  {| objects := <[job := j]> (objects st); jobs := jobs st; sent := sent st ++ log;
     timers := timers st; replies := replies st |}.

(** How the transfer itself ends under a strategy. *)
Definition transfer_result (strategy : Strategy) (io : FileIO) : result unit :=
  match strategy with
  | streaming => io_upload io
  | buffered =>
      match io_readFile io with
      | Ok _ => io_upload io
      | Err message => Err message
      end
  end.

(** How the [try] block of one turn ends. *)
Definition attempt (req : UploadRequest) (io : FileIO) : result unit :=
  match io_stat io with
  | Err message => Err message
  | Ok fileSize =>
      match transfer_result (select fileSize) io with
      | Err message => Err message
      | Ok _ => if deleteAfterUpload req then io_remove io else Ok tt
      end
  end.

Definition outcome_of (req : UploadRequest) (root baseFolderName photoPath : string)
    (io : FileIO) : TransferOutcome :=
  let relativePath := path_relative root photoPath in
  match attempt req io with
  | Ok _ =>
      Uploaded photoPath
        (upload_s3Key (preserveStructure req) baseFolderName relativePath
           (path_basename photoPath) (io_now io))
        relativePath
  | Err message => NotUploaded photoPath message
  end.

Fixpoint outcomes (req : UploadRequest) (root baseFolderName : string) (i : nat)
    (paths : list string) (io : nat -> FileIO) : list TransferOutcome :=
  match paths with
  | [] => []
  | photoPath :: paths =>
      outcome_of req root baseFolderName photoPath (io i)
        :: outcomes req root baseFolderName (S i) paths io
  end.

(** The error a turn reports to the job: the message of a failed
    attempt. *)
Definition reported_error (req : UploadRequest) (io : FileIO) : option string :=
  match attempt req io with
  | Ok _ => None
  | Err message => message
  end.

(** The byte-progress calls of a transfer: a streamed upload reports
    every event, a buffered one none. *)
Definition transfer_ops (strategy : Strategy) (i : nat) (filename : string) (io : FileIO)
    : list JobOp :=
  match strategy with
  | streaming =>
      (fun p => OpUpdateProgress i
                  (Some (filename +:+ " (" +:+ percent_text (fst p) (snd p) +:+ "%)"))
                  None) <$> io_progress io
  | buffered => []
  end.

Definition progress_ops (i : nat) (filename : string) (io : FileIO) : list JobOp :=
  match io_stat io with
  | Ok fileSize => transfer_ops (select fileSize) i filename io
  | Err _ => []
  end.

(** The method calls one turn makes on the job, in order. *)
Definition ops_one (req : UploadRequest) (i : nat) (photoPath : string) (io : FileIO)
    : list JobOp :=
  let filename := path_basename photoPath in
  OpUpdateProgress i (Some filename) None
    :: progress_ops i filename io
    ++ [OpUpdateProgress (i + 1) (Some filename) (reported_error req io)].

Fixpoint ops_loop (req : UploadRequest) (i : nat) (paths : list string)
    (io : nat -> FileIO) : list JobOp :=
  match paths with
  | [] => []
  | photoPath :: paths => ops_one req i photoPath (io i) ++ ops_loop req (S i) paths io
  end.

(** The [error] of a failed outcome. *)
Definition failure_message (o : TransferOutcome) : option (option string) :=
  match o with
  | Uploaded _ _ _ => None
  | NotUploaded _ message => Some message
  end.

(** The messages of the turns whose attempt failed. *)
Fixpoint failures (req : UploadRequest) (i : nat) (paths : list string)
    (io : nat -> FileIO) : list (option string) :=
  match paths with
  | [] => []
  | _ :: paths =>
      match attempt req (io i) with
      | Ok _ => failures req (S i) paths io
      | Err message => message :: failures req (S i) paths io
      end
  end.

(** A progress call that reports no error. *)
Definition quiet (op : JobOp) : Prop :=
  match op with
  | OpUpdateProgress _ _ None => True
  | _ => False
  end.

(** The messages the job records: the truthy ones among those reported. *)
Definition recorded (messages : list (option string)) : list (option string) :=
  List.filter truthy messages.

(** The job a whole batch leaves behind. *)
Definition batch_job (req : UploadRequest) (uuid : string) (now : Z) (io : nat -> FileIO)
    : Job :=
  JobMethods.complete
    (apply_ops (ops_loop req 0 (photoPaths req) io)
       (new_Job uuid "upload" (length (photoPaths req)) now)).

(** Whether a path has a backslash in it. *)
Fixpoint contains_backslash (s : string) : bool :=
  match s with
  | EmptyString => false
  | String c rest => Ascii.eqb c "\"%char || contains_backslash rest
  end.

(** A computation that takes the instance behind [job] from [j] to [j'],
    returns [a], and only adds to the broadcast log. *)
Definition runs {A} (c : M A) (job : nat) (st : Server) (j : Job) (a : A) (j' : Job) : Prop :=
  forall log, exists extra,
    c (with_job job j log st) = Some (Ok a, with_job job j' (log ++ extra) st).

Definition throws {A} (c : M A) (job : nat) (st : Server) (j : Job)
    (message : option string) (j' : Job) : Prop :=
  forall log, exists extra,
    c (with_job job j log st) = Some (Err message, with_job job j' (log ++ extra) st).

End UploadTrace.

(** ** What a reconciliation comes to *)
Section SyncTrace.

Context {RT : Runtime}.

(** The store answers the listing started at [token] with these pages
    of keys, the last one without a usable continuation token. *)
Inductive paged (s3 : S3List) (bucket prefix : string)
    : option string -> list (list string) -> Prop :=
| paged_last token response :
    s3 bucket prefix token = Ok response ->
    truthy (NextContinuationToken response) = false ->
    paged s3 bucket prefix token [default [] (Contents response)]
| paged_more token response pages :
    s3 bucket prefix token = Ok response ->
    truthy (NextContinuationToken response) = true ->
    paged s3 bucket prefix (NextContinuationToken response) pages ->
    paged s3 bucket prefix token (default [] (Contents response) :: pages).

(** [relativePaths] are the [keys] with the prefix expression removed. *)
Definition stripped (source : string) (keys relativePaths : list string) : Prop :=
  Forall2 (fun key relativePath => regexp_remove source key = Ok relativePath)
          keys relativePaths.

(** The progress calls of the tracked comparison loop, from index [i]. *)
Fixpoint sync_ops (i : nat) (files : list Photo) : list JobOp :=
  match files with
  | [] => []
  | f :: files =>
      OpUpdateProgress (i + 1) (Some (photo_name f)) None :: sync_ops (S i) files
  end.

(** The job a tracked reconciliation leaves behind. *)
Definition sync_job (req : SyncRequest) (uuid : string) (now : Z) : Job :=
  JobMethods.complete
    (apply_ops (sync_ops 0 (localFiles req))
       (new_Job uuid "sync_check" (length (localFiles req)) now)).

(** The state once a tracked handler has created its job, registered it
    and answered the request. *)
Definition started (st : Server) (uuid type : string) (totalItems : nat) (now : Z)
    (message : string) : Server :=
  {| objects := objects st ++ [new_Job uuid type totalItems now];
     jobs := <[uuid := length (objects st)]> (jobs st);
     sent := sent st; timers := timers st;
     replies := replies st ++ [reply_started uuid message] |}.


(** The state after one more reply. *)
Definition add_reply (r : Reply) (st : Server) : Server :=
  {| objects := objects st; jobs := jobs st; sent := sent st; timers := timers st;
     replies := replies st ++ [r] |}.

(** The ids with a removal pending. *)
Definition retiring (st : Server) : list string := snd <$> timers st.

End SyncTrace.

(** ** What a scan is held to *)
Section ScanInvariant.

Context {RT : Runtime}.

Definition Z_sum_with {A} (f : A -> Z) (xs : list A) : Z :=
  foldr (fun x acc => f x + acc) 0 xs.


(** [P] holds of a node and of every node below it. *)
Fixpoint everywhere (P : FolderData -> Prop) (d : FolderData) {struct d} : Prop :=
  P d
  /\ (fix children (subs : list (string * FolderData)) : Prop :=
        match subs with
        | [] => True
        | kv :: rest => everywhere P (snd kv) /\ children rest
        end) (subfolders d).

(** The children of a node, each with the whole subtree below it. *)
Definition children_everywhere (P : FolderData -> Prop)
    (subs : list (string * FolderData)) : Prop :=
  Forall (fun kv => everywhere P (snd kv)) subs.


(** Nothing in the tree makes [fs.stat] or [fs.readdir] fail. *)
Fixpoint readable (n : FsNode) {struct n} : bool :=
  match n with
  | FsDir items =>
      (fix below (items : list (string * FsNode)) : bool :=
         match items with
         | [] => true
         | it :: rest => readable (snd it) && below rest
         end) items
  | FsFile _ _ | FsOther => true
  | FsUnreadableDir _ | FsBroken _ => false
  end.

Definition is_directory (n : FsNode) : bool :=
  match n with
  | FsDir _ => true
  | _ => false
  end.

End ScanInvariant.

(** ** More of the scanner and of the client's reading of its tree *)
Section Inventory.

Context {RT : Runtime}.

(** The sizes of the media files below a directory, at any depth, as the
    scan meets them. *)
Fixpoint media_sizes (n : FsNode) {struct n} : list Z :=
  match n with
  | FsDir items =>
      (fix below (items : list (string * FsNode)) : list Z :=
         match items with
         | [] => []
         | it :: rest =>
             match snd it with
             | FsFile size _ => if isImageFile (fst it) then [size] else []
             | _ => media_sizes (snd it)
             end ++ below rest
         end) items
  | _ => []
  end.

(** [getAllPhotosInFolder] of [FolderTree.tsx] (and
    [getAllPhotosFromStructure] of the upload view): the folder's own
    photos, then those of each subfolder.  [Object.values] may list
    subfolders in another order than this one; only the collection as a
    whole is reasoned about. *)
Fixpoint getAllPhotosInFolder (folder : FolderData) {struct folder} : list Photo :=
  photos folder
  ++ (fix each (subs : list (string * FolderData)) : list Photo :=
        match subs with
        | [] => []
        | kv :: rest => getAllPhotosInFolder (snd kv) ++ each rest
        end) (subfolders folder).

(** The sum of a list of sizes. *)
Definition Z_sum (xs : list Z) : Z := Z_sum_with (fun x => x) xs.



End Inventory.

(** ** Counting the calls made on a job *)

(** The [updateProgress] calls of a sequence that report a truthy error. *)
Definition failed_updates (ops : list JobOp) : nat :=
  length (List.filter (fun op => match op with
                                 | OpUpdateProgress _ _ error => truthy error
                                 | _ => false
                                 end) ops).

(** The [fail] calls of a sequence. *)
Definition fail_calls (ops : list JobOp) : nat :=
  length (List.filter (fun op => match op with OpFail _ => true | _ => false end) ops).

(** ** What a batch broadcasts, message by message *)
Section Streams.

Context {RT : Runtime}.

(** The [job_update] messages a sequence of calls on the job sends: the
    job as each call leaves it. *)
Fixpoint updates (ops : list JobOp) (j : Job) : list Message :=
  match ops with
  | [] => []
  | op :: ops => job_update (apply_op op j) :: updates ops (apply_op op j)
  end.

(** The [file_upload_success] message of a turn, sent when the attempt
    went through. *)
Definition announcement (req : UploadRequest) (jobId root baseFolderName photoPath : string)
    (io : FileIO) : list Message :=
  match outcome_of req root baseFolderName photoPath io with
  | Uploaded _ s3Key relativePath =>
      [file_upload_success jobId relativePath s3Key (folderPath req) (fileId req)]
  | NotUploaded _ _ => []
  end.

(** The messages of one turn of the upload loop, in order. *)
Definition stream_one (req : UploadRequest) (jobId root baseFolderName : string) (i : nat)
    (photoPath : string) (io : FileIO) (j : Job) : list Message :=
  let filename := path_basename photoPath in
  let before := OpUpdateProgress i (Some filename) None :: progress_ops i filename io in
  updates before j
  ++ announcement req jobId root baseFolderName photoPath io
  ++ updates [OpUpdateProgress (i + 1) (Some filename) (reported_error req io)]
       (apply_ops before j).

Fixpoint stream_loop (req : UploadRequest) (jobId root baseFolderName : string) (i : nat)
    (paths : list string) (io : nat -> FileIO) (j : Job) : list Message :=
  match paths with
  | [] => []
  | photoPath :: paths =>
      stream_one req jobId root baseFolderName i photoPath (io i) j
      ++ stream_loop req jobId root baseFolderName (S i) paths io
           (apply_ops (ops_one req i photoPath (io i)) j)
  end.

(** A computation that takes the instance behind [job] from [j] to [j'],
    returns [a], and adds exactly [extra] to the broadcast log. *)
Definition runs_sending {A} (c : M A) (job : nat) (st : Server) (j : Job) (a : A) (j' : Job)
    (extra : list Message) : Prop :=
  forall log,
    c (with_job job j log st) = Some (Ok a, with_job job j' (log ++ extra) st).

Definition throws_sending {A} (c : M A) (job : nat) (st : Server) (j : Job)
    (message : option string) (j' : Job) (extra : list Message) : Prop :=
  forall log,
    c (with_job job j log st) = Some (Err message, with_job job j' (log ++ extra) st).

(** The jobs a log carries in its [job_update] messages, in order. *)
Definition job_updates (log : list Message) : list Job :=
  omap (fun m => match m with job_update j => Some j | _ => None end) log.

(** The files a log announces as uploaded: relative path and key. *)
Definition announced (log : list Message) : list (string * string) :=
  omap (fun m => match m with
                 | file_upload_success _ relativePath s3Key _ _ => Some (relativePath, s3Key)
                 | _ => None
                 end) log.

(** The files a result list reports as uploaded: relative path and key. *)
Definition uploaded (results : list TransferOutcome) : list (string * string) :=
  omap (fun o => match o with
                 | Uploaded _ s3Key relativePath => Some (relativePath, s3Key)
                 | NotUploaded _ _ => None
                 end) results.

End Streams.

(** A progress call that reports the count [k]. *)
Definition progress_call (k : nat) (op : JobOp) : Prop :=
  match op with
  | OpUpdateProgress k' _ _ => k' = k
  | _ => False
  end.

(** ** Further example data *)
Module Cases.

Import Posix.

(** The three files of [Examples.batch3], to be removed once uploaded. *)
Definition batch3_deleting : UploadRequest :=
  {| photoPaths := photoPaths Examples.batch3;
     upload_config := Examples.config; deleteAfterUpload := true;
     preserveStructure := true;
     folderPath := None; fileId := None; upload_body_jobId := None |}.

(** The transfer goes through, the removal of the local file does not. *)
Definition io_remove_fails (message : option string) : FileIO :=
  {| io_stat := Ok 2048; io_readFile := Ok tt; io_progress := [];
     io_upload := Ok tt; io_remove := Err message; io_now := 1700000000000 |}.

Definition second_unremovable (message : option string) (i : nat) : FileIO :=
  if (i =? 1)%nat then io_remove_fails message else Examples.io_ok 2048.

End Cases.

(** ** Reading a reconciliation *)
Section SyncReading.

Context {RT : Runtime}.


(** How many of the turns [i], ..., [i + n - 1] of the tracked loop
    pause: those whose index is a multiple of ten. *)
Fixpoint pauses (i n : nat) : nat :=
  match n with
  | O => O
  | S n => ((if (i mod 10 =? 0)%nat then 1 else 0) + pauses (S i) n)%nat
  end.

(** What a sequence of progress calls shows of the job: count and
    current item. *)
Definition shown (j : Job) : nat * option string := (completedItems j, currentItem j).

End SyncReading.

Module Stores.

(** A store that hands out a continuation token with every page. *)
Definition s3_endless : S3List := fun _ _ _ =>
  Ok {| Contents := Some ["photos/a.jpg"]%string;
        NextContinuationToken := Some "more"%string |}.

End Stores.

(** ** Untracked uploads: [/api/upload-photos-batch] and [/api/upload-photo] *)
Section Untracked.

Context {RT : Runtime}.

















End Untracked.

Module Uploads.



End Uploads.

(** ** The registry and what a new client is sent *)
Section Registry.

(** The [jobs] array of the [jobs_list] message a client is sent when it
    connects: [Array.from(jobs.values())], each job with the fields of a
    [job_update].  (The order of the entries is not modelled.) *)
Definition jobs_list (st : Server) : list Job :=
  omap (fun entry => objects st !! snd entry) (map_to_list (jobs st)).

(** Every id of the registry leads to a job that carries it. *)
Definition keyed_by_id (st : Server) : Prop :=
  forall jobId ref, jobs st !! jobId = Some ref ->
    exists j, objects st !! ref = Some j /\ id j = jobId.

End Registry.

(** ** The client: [PhotoUpload.tsx] and [FolderTree.tsx]

    The state the upload view keeps and what a message from the socket
    does to it.  The callbacks into the parent component
    ([onProgressUpdate], [onUploadStateChange]) are left out. *)
Module Client.

(** An entry of the [syncStatus] state.  A server entry has all the
    fields; [{...prev[relativePath], inS3: true, s3Key}] on a path with no
    entry has only the last two. *)
Record Entry : Type := mkEntry {
  entry_file : option Photo;
  entry_inS3 : bool;
  entry_s3Key : option string
}.

Definition of_server (e : SyncEntry) : Entry :=
  {| entry_file := Some (file e); entry_inS3 := inS3 e; entry_s3Key := Some (s3Key e) |}.

(** What the socket delivers: a broadcast, or the snapshot the server
    sends to a client that connects. *)
Inductive Incoming : Type :=
| broadcasted (m : Message)
| jobs_list_message (jobs : list Job).

Record State : Type := mkState {
  folderStructure : option FolderData;
  syncStatus : gmap string Entry;
  jobs : list Job;
  activeJobIds : gset string;
  activeFolderUploads : gset string;
  activeFileUploads : gset string;
  (** The [checkSyncStatusSimple] calls issued so far, each with the
      photos it asks about. *)
  refreshes : list (list Photo)
}.

(** [getAllPhotosFromStructure(folderStructure)], [[]] without one. *)
Definition allPhotos (c : State) : list Photo :=
  match folderStructure c with
  | Some folder => getAllPhotosInFolder folder
  | None => []
  end.

(** [set.delete(key)] behind [if (key)]. *)
Definition delete_if_truthy (key : option string) (s : gset string) : gset string :=
  match key with
  | Some k => if truthy key then s ∖ {[k]} else s
  | None => s
  end.

(** [{...prev, [relativePath]: {...prev[relativePath], inS3: true, s3Key}}] *)
Definition mark_uploaded (relativePath s3Key : string) (status : gmap string Entry)
    : gmap string Entry :=
  <[relativePath :=
      {| entry_file := status !! relativePath ≫= entry_file;
         entry_inS3 := true;
         entry_s3Key := Some s3Key |}]> status.

(** [wsRef.current.onmessage] *)
Definition onmessage (data : Incoming) (c : State) : State :=
  match data with
  | jobs_list_message js =>
      {| folderStructure := folderStructure c; syncStatus := syncStatus c;
         jobs := js;
         activeJobIds := activeJobIds c; activeFolderUploads := activeFolderUploads c;
         activeFileUploads := activeFileUploads c; refreshes := refreshes c |}
  | broadcasted (job_update job) =>
      {| folderStructure := folderStructure c; syncStatus := syncStatus c;
         jobs := List.filter (fun j => negb (String.eqb (id j) (id job))) (jobs c) ++ [job];
         activeJobIds := activeJobIds c; activeFolderUploads := activeFolderUploads c;
         activeFileUploads := activeFileUploads c; refreshes := refreshes c |}
  | broadcasted (sync_status_result jobId status _) =>
      let isFullSyncCheck := (size status =? length (allPhotos c))%nat in
      {| folderStructure := folderStructure c;
         syncStatus :=
           if isFullSyncCheck then of_server <$> status
           else (of_server <$> status) ∪ syncStatus c;
         jobs := jobs c;
         activeJobIds := activeJobIds c ∖ {[jobId]};
         activeFolderUploads := activeFolderUploads c;
         activeFileUploads := activeFileUploads c; refreshes := refreshes c |}
  | broadcasted (upload_result jobId _ folderPath fileId) =>
      {| folderStructure := folderStructure c; syncStatus := syncStatus c;
         jobs := jobs c;
         activeJobIds := activeJobIds c ∖ {[jobId]};
         activeFolderUploads := delete_if_truthy folderPath (activeFolderUploads c);
         activeFileUploads := delete_if_truthy fileId (activeFileUploads c);
         refreshes :=
           match folderStructure c with
           | Some folder => refreshes c ++ [getAllPhotosInFolder folder]
           | None => refreshes c
           end |}
  | broadcasted (file_upload_success _ relativePath s3Key _ _) =>
      {| folderStructure := folderStructure c;
         syncStatus := mark_uploaded relativePath s3Key (syncStatus c);
         jobs := jobs c;
         activeJobIds := activeJobIds c; activeFolderUploads := activeFolderUploads c;
         activeFileUploads := activeFileUploads c; refreshes := refreshes c |}
  end.

(** The state after the messages of a log have arrived, in order. *)
Definition receive (log : list Incoming) (c : State) : State :=
  fold_left (fun c data => onmessage data c) log c.

(** [dismissJob] *)
Definition dismissJob (jobId : string) (c : State) : State :=
  {| folderStructure := folderStructure c; syncStatus := syncStatus c;
     jobs := List.filter (fun j => negb (String.eqb (id j) jobId)) (jobs c);
     activeJobIds := activeJobIds c; activeFolderUploads := activeFolderUploads c;
     activeFileUploads := activeFileUploads c; refreshes := refreshes c |}.

(** [syncStatus[photo.relativePath]?.inS3], as a condition. *)
Definition is_synced (status : gmap string Entry) (photo : Photo) : bool :=
  match status !! photo_relativePath photo with
  | Some e => entry_inS3 e
  | None => false
  end.

(** [getSyncStats] of the folder tree: total, synced, unsynced. *)
Definition getSyncStats (status : gmap string Entry) (photos : list Photo)
    : nat * nat * nat :=
  let totalPhotos := length photos in
  let syncedPhotos := length (List.filter (is_synced status) photos) in
  let unsyncedPhotos := (totalPhotos - syncedPhotos)%nat in
  (totalPhotos, syncedPhotos, unsyncedPhotos).

(** The photos the upload button of a folder hands to [onUploadFolder]. *)
Definition unsynced (status : gmap string Entry) (photos : list Photo) : list Photo :=
  List.filter (fun photo => negb (is_synced status photo)) photos.

(** The body [uploadFolder] posts to [/api/upload-folder]; nothing is
    sent for an empty list. *)
Definition uploadFolder (config : Config) (deleteAfterUpload : bool)
    (folderPath : string) (photos : list Photo) : option UploadRequest :=
  match photos with
  | [] => None
  | _ =>
      Some (mkUploadRequest (photo_path <$> photos) config deleteAfterUpload true
              (Some folderPath) None None)
  end.

(** The body [uploadFile] posts for one photo. *)
Definition uploadFile (config : Config) (deleteAfterUpload : bool) (photo : Photo)
    : UploadRequest :=
  mkUploadRequest [photo_path photo] config deleteAfterUpload true None
    (Some (photo_id photo)) None.

(** The state the view starts in. *)
Definition initial : State :=
  {| folderStructure := None; syncStatus := ∅; jobs := [];
     activeJobIds := ∅; activeFolderUploads := ∅; activeFileUploads := ∅;
     refreshes := [] |}.

(** The status after the files of [pairs] (relative path and key) have
    been marked, in order. *)
Definition marks (pairs : list (string * string)) (status : gmap string Entry)
    : gmap string Entry :=
  fold_left (fun status pair => mark_uploaded (fst pair) (snd pair) status) pairs status.

(** A message that is about a job or about one uploaded file. *)
Definition of_a_batch (m : Message) : Prop :=
  match m with
  | job_update _ | file_upload_success _ _ _ _ _ => True
  | _ => False
  end.

(** Every snapshot in a log names each job once. *)
Definition snapshots_distinct (log : list Incoming) : Prop :=
  Forall (fun data => match data with
                      | jobs_list_message js => NoDup (id <$> js)
                      | broadcasted _ => True
                      end) log.

End Client.

(** ** Content types and the paths of the tree *)
Section Naming.

Context {RT : Runtime}.

(** The [switch (ext)] of [getImageMimeType]; the cases of the RAW
    extensions return what the default returns. *)
Definition mime_of_extension (ext : string) : string :=
  if String.eqb ext ".jpg" || String.eqb ext ".jpeg" then "image/jpeg"
  else if String.eqb ext ".png" then "image/png"
  else if String.eqb ext ".gif" then "image/gif"
  else if String.eqb ext ".bmp" then "image/bmp"
  else if String.eqb ext ".tiff" || String.eqb ext ".tif" then "image/tiff"
  else if String.eqb ext ".webp" then "image/webp"
  else if String.eqb ext ".heic" || String.eqb ext ".heif" then "image/heic"
  else if String.eqb ext ".mp4" then "video/mp4"
  else if String.eqb ext ".mov" then "video/quicktime"
  else if String.eqb ext ".avi" then "video/x-msvideo"
  else if String.eqb ext ".mkv" then "video/x-matroska"
  else if String.eqb ext ".wmv" then "video/x-ms-wmv"
  else if String.eqb ext ".flv" then "video/x-flv"
  else if String.eqb ext ".webm" then "video/webm"
  else if String.eqb ext ".m4v" then "video/x-m4v"
  else if String.eqb ext ".3gp" then "video/3gpp"
  else if String.eqb ext ".mts" || String.eqb ext ".m2ts" then "video/mp2t"
  else if String.eqb ext ".mpg" || String.eqb ext ".mpeg" then "video/mpeg"
  else if String.eqb ext ".m2v" then "video/mpeg"
  else if String.eqb ext ".asf" then "video/x-ms-asf"
  else if String.eqb ext ".rm" then "application/vnd.rn-realmedia"
  else if String.eqb ext ".rmvb" then "application/vnd.rn-realmedia-vbr"
  else if String.eqb ext ".vob" then "video/x-ms-vob"
  else if String.eqb ext ".ts" then "video/mp2t"
  else if String.eqb ext ".f4v" then "video/x-f4v"
  else "application/octet-stream".

Definition getImageMimeType (filename : string) : string :=
  mime_of_extension (toLowerCase (path_extname filename)).

(** The paths a node of the tree records: a photo's relative path is
    the node's path joined with the photo's name, a subfolder's path the
    node's path joined with the name it is filed under. *)
Definition paths_ok (d : FolderData) : Prop :=
  Forall (fun photo => photo_relativePath photo = path_join (path d) (photo_name photo))
         (photos d)
  /\ Forall (fun kv => path (snd kv) = path_join (path d) (fst kv)) (subfolders d).

End Naming.


(** * Properties *)

(** ** Job state machine *)
Section JobFacts.

Lemma apply_op_errors op j : errors j `prefix_of` errors (apply_op op j).
Proof.
  destruct op as [k cur err| |err]; simpl.
  - destruct (truthy err); [by apply prefix_app_r|done].
  - done.
  - by apply prefix_app_r.
Qed.

Lemma apply_ops_cons op ops j : apply_ops (op :: ops) j = apply_ops ops (apply_op op j).
Proof. reflexivity. Qed.

Lemma apply_ops_snoc ops op j : apply_ops (ops ++ [op]) j = apply_op op (apply_ops ops j).
Proof. unfold apply_ops. by rewrite fold_left_app. Qed.

Lemma apply_ops_app ops1 ops2 j :
  apply_ops (ops1 ++ ops2) j = apply_ops ops2 (apply_ops ops1 j).
Proof. unfold apply_ops. by rewrite fold_left_app. Qed.

Lemma apply_ops_status ops : forall j,
  status (apply_ops ops j) = last_terminal ops (status j).
Proof.
  induction ops as [|op ops IH]; intros j; [done|].
  change (apply_ops (op :: ops) j) with (apply_ops ops (apply_op op j)).
  rewrite IH. by destruct op.
Qed.

Lemma apply_ops_errors ops : forall j, errors j `prefix_of` errors (apply_ops ops j).
Proof.
  induction ops as [|op ops IH]; intros j; [done|].
  change (apply_ops (op :: ops) j) with (apply_ops ops (apply_op op j)).
  etrans; [apply apply_op_errors|apply IH].
Qed.

End JobFacts.

(** C5, as the code has it: the three methods do not look at the current
    status.  [updateProgress] leaves it alone, [complete] and [fail]
    overwrite it, so after any sequence of calls the status is the one set
    by the last [complete] or [fail] (the starting one if there was none);
    the error list only ever grows: the old list is a prefix of the new
    one. *)
Theorem job_status_follows_last_terminal_call (ops : list JobOp) (j : Job) :
  status (apply_ops ops j) = last_terminal ops (status j)
  /\ errors j `prefix_of` errors (apply_ops ops j)
  /\ (forall k cur err, status (JobMethods.updateProgress k cur err j) = status j)
  /\ status (JobMethods.complete j) = completed
  /\ (forall err, status (JobMethods.fail err j) = failed).
Proof.
  split; [apply apply_ops_status|].
  split; [apply apply_ops_errors|].
  repeat split.
Qed.

(** C5, as stated, fails: a completed job that is then failed changes
    status. *)
Lemma completed_job_changes_status_on_fail :
  let j := JobMethods.complete (new_Job "a" "upload" 1 0) in
  status j = completed
  /\ status (apply_op (OpFail (Some "boom"%string)) j) <> status j
  /\ status (apply_op OpComplete (apply_op (OpFail None) j)) = completed.
Proof. repeat split; discriminate. Qed.

(** ** Transfer strategy *)


(** ** Running the handler monad *)
Section Running.

Context {RT : Runtime}.
Context (job : nat) (st : Server).

Lemma runs_ret {A} (a : A) j : runs (ret a) job st j a j.
Proof. intros log. exists []. by rewrite app_nil_r. Qed.

Lemma runs_lift {A} (a : A) j : runs (lift (Ok a)) job st j a j.
Proof. intros log. exists []. by rewrite app_nil_r. Qed.

Lemma throws_lift {A} message j : throws (lift (@Err A message)) job st j message j.
Proof. intros log. exists []. by rewrite app_nil_r. Qed.

Lemma runs_bind {A B} (c : M A) (k : A -> M B) j a j1 b j2 :
  runs c job st j a j1 -> runs (k a) job st j1 b j2 -> runs (bind c k) job st j b j2.
Proof.
  intros Hc Hk log. destruct (Hc log) as [e1 H1]. destruct (Hk (log ++ e1)) as [e2 H2].
  exists (e1 ++ e2). unfold bind. rewrite H1, H2. by rewrite app_assoc.
Qed.

Lemma throws_bind {A B} (c : M A) (k : A -> M B) j message j1 :
  throws c job st j message j1 -> throws (bind c k) job st j message j1.
Proof.
  intros Hc log. destruct (Hc log) as [e1 H1]. exists e1. unfold bind. by rewrite H1.
Qed.

Lemma throws_bind_later {A B} (c : M A) (k : A -> M B) j a j1 message j2 :
  runs c job st j a j1 -> throws (k a) job st j1 message j2 ->
  throws (bind c k) job st j message j2.
Proof.
  intros Hc Hk log. destruct (Hc log) as [e1 H1]. destruct (Hk (log ++ e1)) as [e2 H2].
  exists (e1 ++ e2). unfold bind. rewrite H1, H2. by rewrite app_assoc.
Qed.

Lemma runs_try {A} (body : M A) handler j a j1 :
  runs body job st j a j1 -> runs (try_catch body handler) job st j a j1.
Proof.
  intros Hc log. destruct (Hc log) as [e1 H1]. exists e1. unfold try_catch. by rewrite H1.
Qed.

Lemma runs_catch {A} (body : M A) handler j message j1 a j2 :
  throws body job st j message j1 -> runs (handler message) job st j1 a j2 ->
  runs (try_catch body handler) job st j a j2.
Proof.
  intros Hc Hk log. destruct (Hc log) as [e1 H1]. destruct (Hk (log ++ e1)) as [e2 H2].
  exists (e1 ++ e2). unfold try_catch. rewrite H1, H2. by rewrite app_assoc.
Qed.

Lemma runs_broadcast m j : runs (broadcast m) job st j tt j.
Proof. intros log. exists [m]. unfold broadcast, modify, with_job; simpl. by rewrite app_assoc. Qed.

Hypothesis allocated : (job < length (objects st))%nat.

Lemma runs_call method j : runs (call method job) job st j tt (method j).
Proof.
  intros log. exists [job_update (method j)].
  unfold call, modify, with_job; simpl.
  rewrite list_lookup_insert_eq by done.
  by rewrite list_insert_insert_eq, app_assoc.
Qed.

Lemma runs_updateProgress k cur err j :
  runs (job_updateProgress job k cur err) job st j tt (apply_op (OpUpdateProgress k cur err) j).
Proof. apply runs_call. Qed.

Lemma runs_progress_events i filename evs : forall j,
  runs (for_each evs (fun p =>
          job_updateProgress job i
            (Some (filename +:+ " (" +:+ percent_text (fst p) (snd p) +:+ "%)")) None))
       job st j tt
       (apply_ops ((fun p => OpUpdateProgress i
                      (Some (filename +:+ " (" +:+ percent_text (fst p) (snd p) +:+ "%)"))
                      None) <$> evs) j).
Proof.
  induction evs as [|p evs IH]; intros j; simpl.
  - apply runs_ret.
  - eapply runs_bind; [apply runs_updateProgress|]. apply IH.
Qed.


Lemma transfer_spec strategy i filename io j :
  match transfer_result strategy io with
  | Ok u =>
      runs (transfer strategy job i filename io) job st j u
           (apply_ops (transfer_ops strategy i filename io) j)
  | Err message =>
      throws (transfer strategy job i filename io) job st j message
             (apply_ops (transfer_ops strategy i filename io) j)
  end.
Proof.
  destruct strategy; simpl.
  - destruct (io_readFile io) as [[]|message].
    + destruct (io_upload io) as [[]|message].
      * eapply runs_bind; apply runs_lift.
      * eapply throws_bind_later; [apply runs_lift|apply throws_lift].
    + apply throws_bind, throws_lift.
  - destruct (io_upload io) as [[]|message].
    + eapply runs_bind; [apply runs_progress_events|apply runs_lift].
    + eapply throws_bind_later; [apply runs_progress_events|apply throws_lift].
Qed.

Lemma upload_one_runs req jobId root baseFolderName i photoPath io results j :
  runs (upload_one req jobId job root baseFolderName i photoPath io results) job st j
       (results ++ [outcome_of req root baseFolderName photoPath io])
       (apply_ops (ops_one req i photoPath io) j).
Proof.
  unfold upload_one, ops_one, outcome_of, reported_error, progress_ops, attempt.
  rewrite apply_ops_cons, apply_ops_snoc.
  eapply runs_bind; [apply runs_updateProgress|].
  set (j1 := apply_op _ j).
  assert (Hfail : forall message j2,
    runs (bind (job_updateProgress job (i + 1) (Some (path_basename photoPath)) message)
            (fun _ => ret (results ++ [NotUploaded photoPath message], true))) job st j2
         (results ++ [NotUploaded photoPath message], true)
         (apply_op (OpUpdateProgress (i + 1) (Some (path_basename photoPath)) message) j2)).
  { intros. eapply runs_bind; [apply runs_updateProgress|apply runs_ret]. }
  destruct (io_stat io) as [fileSize|message] eqn:Hstat.
  2:{ eapply runs_bind;
        [eapply runs_catch; [apply throws_bind, throws_lift|apply Hfail]|apply runs_ret]. }
  pose proof (transfer_spec (select fileSize) i (path_basename photoPath) io j1) as Ht.
  destruct (transfer_result (select fileSize) io) as [[]|message].
  2:{ eapply runs_bind; [eapply runs_catch; [|apply Hfail]|apply runs_ret].
      eapply throws_bind_later; [apply runs_lift|]. apply throws_bind, Ht. }
  destruct (deleteAfterUpload req).
  - destruct (io_remove io) as [[]|message] eqn:Hrm.
    + eapply runs_bind.
      * eapply runs_try. eapply runs_bind; [apply runs_lift|].
        eapply runs_bind; [apply Ht|].
        eapply runs_bind; [apply runs_lift|].
        eapply runs_bind; [apply runs_broadcast|apply runs_ret].
      * simpl. eapply runs_bind; [apply runs_updateProgress|apply runs_ret].
    + eapply runs_bind; [eapply runs_catch; [|apply Hfail]|apply runs_ret].
      eapply throws_bind_later; [apply runs_lift|].
      eapply throws_bind_later; [apply Ht|]. apply throws_bind, throws_lift.
  - eapply runs_bind.
    + eapply runs_try. eapply runs_bind; [apply runs_lift|].
      eapply runs_bind; [apply Ht|].
      eapply runs_bind; [apply runs_ret|].
      eapply runs_bind; [apply runs_broadcast|apply runs_ret].
    + simpl. eapply runs_bind; [apply runs_updateProgress|apply runs_ret].
Qed.

Lemma upload_loop_runs req jobId root baseFolderName io paths : forall i results j,
  runs (upload_loop req jobId job root baseFolderName i paths io results) job st j
       (results ++ outcomes req root baseFolderName i paths io)
       (apply_ops (ops_loop req i paths io) j).
Proof.
  induction paths as [|photoPath paths IH]; intros i results j; simpl.
  - rewrite app_nil_r. apply runs_ret.
  - eapply runs_bind; [apply upload_one_runs|].
    rewrite apply_ops_app.
    replace (results ++ outcome_of req root baseFolderName photoPath (io i)
               :: outcomes req root baseFolderName (S i) paths io)
      with ((results ++ [outcome_of req root baseFolderName photoPath (io i)])
              ++ outcomes req root baseFolderName (S i) paths io)
      by (by rewrite <- app_assoc).
    apply IH.
Qed.

End Running.

(** ** What the calls of a batch do to the job *)
Section BatchFields.

Context {RT : Runtime}.

Lemma quiet_ops_keep ops : Forall quiet ops -> forall j,
  status (apply_ops ops j) = status j
  /\ totalItems (apply_ops ops j) = totalItems j
  /\ failedItems (apply_ops ops j) = failedItems j
  /\ errors (apply_ops ops j) = errors j.
Proof.
  induction 1 as [|op ops Hq _ IH]; intros j; [done|].
  rewrite apply_ops_cons.
  destruct (IH (apply_op op j)) as (-> & -> & -> & ->).
  by destruct op as [k cur [e|]| |].
Qed.

Lemma transfer_ops_quiet strategy i filename io :
  Forall quiet (transfer_ops strategy i filename io).
Proof.
  destruct strategy; simpl; [constructor|].
  apply Forall_fmap, Forall_forall. by intros p _.
Qed.

Lemma progress_ops_quiet i filename io : Forall quiet (progress_ops i filename io).
Proof.
  unfold progress_ops. destruct (io_stat io); [apply transfer_ops_quiet|constructor].
Qed.

Lemma ops_one_fields req i photoPath io j :
  let j' := apply_ops (ops_one req i photoPath io) j in
  status j' = status j
  /\ totalItems j' = totalItems j
  /\ completedItems j' = (i + 1)%nat
  /\ failedItems j' = (failedItems j + length (recorded [reported_error req io]))%nat
  /\ errors j' = errors j ++ recorded [reported_error req io].
Proof.
  unfold ops_one. cbv zeta. rewrite apply_ops_cons, apply_ops_snoc.
  set (j1 := apply_op _ j).
  destruct (quiet_ops_keep _ (progress_ops_quiet i (path_basename photoPath) io) j1)
    as (Hs & Ht & Hf & He).
  unfold recorded. simpl. rewrite Hs, Ht, Hf, He. subst j1. simpl.
  destruct (truthy (reported_error req io)); simpl.
  - repeat split; lia.
  - rewrite app_nil_r. repeat split; lia.
Qed.

Lemma failures_cons req io i p paths :
  recorded (failures req i (p :: paths) io)
  = recorded [reported_error req (io i)] ++ recorded (failures req (S i) paths io).
Proof.
  unfold recorded, reported_error. simpl.
  destruct (attempt req (io i)) as [[]|m]; simpl; [done|].
  by destruct (truthy m).
Qed.

Lemma ops_loop_fields req io paths : forall i j,
  let j' := apply_ops (ops_loop req i paths io) j in
  status j' = status j
  /\ totalItems j' = totalItems j
  /\ completedItems j' = (if paths is [] then completedItems j else i + length paths)%nat
  /\ failedItems j' = (failedItems j + length (recorded (failures req i paths io)))%nat
  /\ errors j' = errors j ++ recorded (failures req i paths io).
Proof.
  induction paths as [|p paths IH]; intros i j; cbv zeta.
  - simpl. rewrite app_nil_r. repeat split; lia.
  - change (ops_loop req i (p :: paths) io)
      with (ops_one req i p (io i) ++ ops_loop req (S i) paths io).
    rewrite apply_ops_app.
    destruct (ops_one_fields req i p (io i) j) as (Hs & Ht & Hc & Hf & He).
    destruct (IH (S i) (apply_ops (ops_one req i p (io i)) j)) as (Hs' & Ht' & Hc' & Hf' & He').
    rewrite Hs', Ht', Hc', Hf', He', Hs, Ht, Hc, Hf, He.
    rewrite failures_cons, length_app, app_assoc.
    repeat split; try lia. destruct paths; simpl; lia.
Qed.

Lemma outcomes_length req root base paths io : forall i,
  length (outcomes req root base i paths io) = length paths.
Proof. induction paths as [|p paths IH]; intros i; simpl; [done|]. by rewrite IH. Qed.

Lemma outcomes_lookup req root base io paths : forall i k photoPath,
  paths !! k = Some photoPath ->
  outcomes req root base i paths io !! k
  = Some (outcome_of req root base photoPath (io (i + k)%nat)).
Proof.
  induction paths as [|p paths IH]; intros i k photoPath Hk; [done|].
  destruct k as [|k]; simpl in *.
  - injection Hk as ->. by rewrite Nat.add_0_r.
  - rewrite (IH (S i) k photoPath Hk). do 3 f_equal. lia.
Qed.

End BatchFields.

Section UploadHandler.

Context {RT : Runtime}.

Lemma upload_folder_settles req uuid now io st fp :
  config_folderPath (upload_config req) = Some fp ->
  let root := expandTilde fp in
  let results := outcomes req root (path_basename root) 0 (photoPaths req) io in
  let j := batch_job req uuid now io in
  exists log,
    upload_folder req uuid now io st
    = Some (Ok tt,
            {| objects := objects st ++ [j];
               jobs := <[uuid := length (objects st)]> (jobs st);
               sent := sent st ++ log
                         ++ [upload_result uuid results (if_truthy (folderPath req))
                               (if_truthy (fileId req));
                             job_update j];
               timers := timers st ++ [(30000, uuid)];
               replies := replies st ++ [reply_started uuid "Upload started"] |}).
Proof.
  intros Hfp root results j.
  set (j0 := new_Job uuid "upload" (length (photoPaths req)) now).
  set (st0 := {| objects := objects st ++ [j0];
                 jobs := <[uuid := length (objects st)]> (jobs st);
                 sent := sent st; timers := timers st;
                 replies := replies st ++ [reply_started uuid "Upload started"] |}).
  assert (Halloc : (length (objects st) < length (objects st0))%nat).
  { simpl. rewrite length_app. simpl. lia. }
  destruct (upload_loop_runs (length (objects st)) st0 Halloc req uuid root
              (path_basename root) io (photoPaths req) 0%nat [] j0 []) as [log Hloop].
  assert (Hst0 : with_job (length (objects st)) j0 [] st0 = st0).
  { unfold with_job, st0. simpl. f_equal.
    - rewrite insert_app_r_alt by lia. by rewrite Nat.sub_diag.
    - apply app_nil_r. }
  rewrite Hst0 in Hloop.
  exists log.
  unfold upload_folder, try_catch, bind at 1.
  unfold construct_Job, bind at 1, jobs_set, modify, bind at 1, reply, modify. simpl.
  fold j0. fold st0.
  unfold bind at 1, lift, expandTilde_of. rewrite Hfp. fold root.
  unfold bind at 1. rewrite Hloop.
  unfold bind, broadcast, job_complete, call, setTimeout_delete, modify, with_job. simpl.
  rewrite list_lookup_insert_eq by (rewrite length_app; simpl; lia).
  do 2 f_equal. f_equal.
  - rewrite list_insert_insert_eq, insert_app_r_alt by lia.
    by rewrite Nat.sub_diag.
  - by rewrite <- !app_assoc.
Qed.

End UploadHandler.

(** ** Paging through the remote listing *)
Section Listing.

Context {RT : Runtime}.

Lemma add_keys_stripped source keys : forall relativePaths s3Objects,
  stripped source keys relativePaths ->
  add_keys source keys s3Objects = Ok (s3Objects ∪ list_to_set relativePaths).
Proof.
  induction keys as [|key keys IH]; intros rs acc Hs;
    inversion Hs as [|? r ? rs' Hkey Hrest]; subst; simpl.
  - f_equal. by rewrite (right_id_L ∅ (∪)).
  - rewrite Hkey, (IH _ _ Hrest). f_equal. by rewrite (assoc_L (∪)).
Qed.

Lemma list_all_paged s3 bucket baseFolderName token pages :
  paged s3 bucket (baseFolderName +:+ "/") token pages ->
  forall relativePaths s3Objects fuel,
    stripped ("^" +:+ baseFolderName +:+ "/") (concat pages) relativePaths ->
    (length pages <= fuel)%nat ->
    list_all fuel s3 bucket baseFolderName token s3Objects
    = Some (Ok (s3Objects ∪ list_to_set relativePaths)).
Proof.
  induction 1 as [token response Hcall Hlast|token response pages Hcall Hnext _ IH];
    intros rs acc fuel Hs Hfuel.
  - destruct fuel as [|fuel]; [simpl in Hfuel; lia|]. simpl.
    rewrite Hcall. simpl in Hs. rewrite app_nil_r in Hs.
    rewrite (add_keys_stripped _ _ _ acc Hs). by rewrite Hlast.
  - destruct fuel as [|fuel]; [simpl in Hfuel; lia|]. simpl.
    rewrite Hcall. simpl in Hs.
    apply Forall2_app_inv_l in Hs as (rs1 & rs2 & Hs1 & Hs2 & ->).
    rewrite (add_keys_stripped _ _ _ acc Hs1), Hnext.
    rewrite (IH rs2 _ fuel Hs2) by (simpl in Hfuel; lia).
    do 2 f_equal. rewrite list_to_set_app_L. by rewrite (assoc_L (∪)).
Qed.

(** The loop gives up only when the store keeps handing out tokens. *)
Lemma list_all_more_fuel s3 bucket baseFolderName : forall fuel token s3Objects r,
  list_all fuel s3 bucket baseFolderName token s3Objects = Some r ->
  list_all (S fuel) s3 bucket baseFolderName token s3Objects = Some r.
Proof.
  induction fuel as [|fuel IH]; intros token acc r H; [done|].
  simpl in H. change (list_all (S (S fuel)) s3 bucket baseFolderName token acc)
    with (match s3 bucket (baseFolderName +:+ "/") token with
          | Err message => Some (Err message)
          | Ok response =>
              match add_keys ("^" +:+ baseFolderName +:+ "/")
                      (default [] (Contents response)) acc with
              | Err message => Some (Err message)
              | Ok s3Objects =>
                  if truthy (NextContinuationToken response)
                  then list_all (S fuel) s3 bucket baseFolderName
                         (NextContinuationToken response) s3Objects
                  else Some (Ok s3Objects)
              end
          end).
  destruct (s3 bucket _ token) as [response|m]; [|done].
  destruct (add_keys _ _ acc) as [acc'|m]; [|done].
  destruct (truthy _); [|done]. by apply IH.
Qed.



End Listing.

(** ** Comparing local files with the remote set *)
Section Comparing.

Context {RT : Runtime}.



End Comparing.

(** ** Timers *)
Section Timers.

Context {RT : Runtime}.

Lemma elapse_with_job dt job j log st :
  elapse dt (with_job job j log st) = with_job job j log (elapse dt st).
Proof. reflexivity. Qed.

Lemma delete_due_other (due : list (Z * string)) (m : gmap string nat) jobId :
  jobId ∉ snd <$> due ->
  foldr (fun t m => delete (snd t) m) m due !! jobId = m !! jobId.
Proof.
  induction due as [|t due IH]; intros Hid; [done|]. simpl.
  rewrite fmap_cons, not_elem_of_cons in Hid. destruct Hid as [Hne Hid].
  rewrite lookup_delete_ne by done. by apply IH.
Qed.

Lemma delete_due_member (due : list (Z * string)) (m : gmap string nat) jobId :
  jobId ∈ snd <$> due ->
  foldr (fun t m => delete (snd t) m) m due !! jobId = None.
Proof.
  induction due as [|t due IH]; intros Hid; [by apply elem_of_nil in Hid|]. simpl.
  destruct (decide (snd t = jobId)) as [<-|Hne].
  - by rewrite lookup_delete_eq.
  - rewrite lookup_delete_ne by done. apply IH.
    rewrite fmap_cons in Hid. apply elem_of_cons in Hid as [Hid|Hid]; [congruence|done].
Qed.

Lemma elapse_keeps_others dt st jobId :
  jobId ∉ retiring st -> jobs (elapse dt st) !! jobId = jobs st !! jobId.
Proof.
  intros Hid. unfold elapse. simpl. apply delete_due_other.
  intros Hin. apply Hid. unfold retiring.
  apply list_elem_of_fmap in Hin as (t & -> & Ht).
  apply list_elem_of_fmap. exists t. split; [done|].
  by apply list_elem_of_filter in Ht as [_ Ht].
Qed.

Lemma elapse_retiring dt st jobId :
  jobId ∈ retiring (elapse dt st) -> jobId ∈ retiring st.
Proof.
  unfold retiring, elapse. simpl. intros Hin.
  apply list_elem_of_fmap in Hin as (t & -> & Ht).
  apply list_elem_of_fmap in Ht as (t' & -> & Ht'). simpl.
  apply list_elem_of_fmap. exists t'. split; [done|].
  by apply list_elem_of_filter in Ht' as [_ Ht'].
Qed.

Lemma pauses_keep n st :
  objects (Nat.iter n (elapse 10) st) = objects st
  /\ sent (Nat.iter n (elapse 10) st) = sent st
  /\ replies (Nat.iter n (elapse 10) st) = replies st
  /\ (forall jobId, jobId ∈ retiring (Nat.iter n (elapse 10) st) -> jobId ∈ retiring st)
  /\ (forall jobId, jobId ∉ retiring st ->
        jobs (Nat.iter n (elapse 10) st) !! jobId = jobs st !! jobId).
Proof.
  induction n as [|n (Ho & Hs & Hr & Ht & Hj)]; [done|]. rewrite Nat.iter_succ.
  repeat split; try done.
  - intros jobId H. by apply Ht, (elapse_retiring 10).
  - intros jobId H. rewrite elapse_keeps_others; [by apply Hj|].
    intros Hin. by apply H, Ht.
Qed.

End Timers.

(** ** The tracked comparison loop *)
Section Tracked.

Context {RT : Runtime}.

Lemma sync_ops_quiet files : forall i, Forall quiet (sync_ops i files).
Proof. induction files as [|f files IH]; intros i; constructor; [done|apply IH]. Qed.

Lemma iter_elapse_shift n st :
  Nat.iter n (elapse 10) (elapse 10 st) = Nat.iter (S n) (elapse 10) st.
Proof. induction n as [|n IH]; [done|]. by rewrite Nat.iter_succ, IH. Qed.

Lemma compare_tracked_cons job baseFolderName s3Objects i f files syncStatus :
  compare_tracked job baseFolderName s3Objects i (f :: files) syncStatus
  = bind (job_updateProgress job (i + 1) (Some (photo_name f)) None) (fun _ =>
    bind (if (i mod 10 =? 0)%nat then sleep 10 else ret tt) (fun _ =>
    compare_tracked job baseFolderName s3Objects (S i) files
      (<[photo_relativePath f := sync_entry baseFolderName s3Objects f]> syncStatus))).
Proof. reflexivity. Qed.


End Tracked.

(** ** The reconciliation handlers *)
Section SyncHandlers.

Context {RT : Runtime}.

Lemma started_with_job st uuid type totalItems now message :
  with_job (length (objects st)) (new_Job uuid type totalItems now) []
    (started st uuid type totalItems now message)
  = started st uuid type totalItems now message.
Proof.
  unfold with_job, started. simpl. f_equal.
  - rewrite insert_app_r_alt by lia. by rewrite Nat.sub_diag.
  - apply app_nil_r.
Qed.



(** A listing that is rejected yields no status at all. *)
Lemma check_sync_status_simple_rejected req s3 fuel st baseFolderName message :
  baseFolderName_of (sync_config req) = Ok baseFolderName ->
  list_all fuel s3 (config_bucketName (sync_config req)) baseFolderName None ∅
    = Some (Err message) ->
  check_sync_status_simple req s3 fuel st
  = Some (Ok tt, add_reply (reply_error 500 "Failed to check sync status") st).
Proof.
  intros Hbase Hlist.
  unfold check_sync_status_simple, try_catch, bind, lift, lift_loop.
  by rewrite Hbase, Hlist.
Qed.

(** An error outside the comparison loop of a request that carries no
    [jobId] of its own leaves the new job as it was created. *)
Lemma check_sync_status_rejected req uuid now s3 fuel st baseFolderName message :
  baseFolderName_of (sync_config req) = Ok baseFolderName ->
  list_all fuel s3 (config_bucketName (sync_config req)) baseFolderName None ∅
    = Some (Err message) ->
  sync_body_jobId req = None ->
  check_sync_status req uuid now s3 fuel st
  = Some (Ok tt,
          add_reply (reply_error 500 "Failed to check sync status")
            (started st uuid "sync_check" (length (localFiles req)) now
               "Sync check started")).
Proof.
  intros Hbase Hlist Hid.
  unfold check_sync_status, try_catch, bind at 1.
  unfold construct_Job, bind at 1, jobs_set, modify, bind at 1, reply, modify. simpl.
  unfold bind at 1, lift. rewrite Hbase.
  unfold bind at 1, lift_loop. rewrite Hlist.
  unfold bind, fail_requested_job. by rewrite Hid.
Qed.


Lemma started_registered st uuid type totalItems now message :
  registered (started st uuid type totalItems now message) uuid
  = Some (new_Job uuid type totalItems now).
Proof.
  unfold registered, started. simpl. rewrite lookup_insert_eq. simpl.
  rewrite lookup_app_r by lia. by rewrite Nat.sub_diag.
Qed.

(** The job of a tracked reconciliation whose listing is rejected is
    still [running], as created, and nothing was broadcast. *)
Lemma rejected_sync_job_stays_running req uuid now s3 fuel st baseFolderName message :
  baseFolderName_of (sync_config req) = Ok baseFolderName ->
  list_all fuel s3 (config_bucketName (sync_config req)) baseFolderName None ∅
    = Some (Err message) ->
  sync_body_jobId req = None ->
  exists st',
    check_sync_status req uuid now s3 fuel st = Some (Ok tt, st')
    /\ registered st' uuid
       = Some (new_Job uuid "sync_check" (length (localFiles req)) now)
    /\ sent st' = sent st
    /\ timers st' = timers st.
Proof.
  intros Hbase Hlist Hid. eexists.
  split; [by eapply check_sync_status_rejected|].
  split; [apply started_registered|done].
Qed.

End SyncHandlers.

(** ** Upload batches *)
Section Batches.

Context {RT : Runtime}.

Lemma failures_of_outcomes req root base io paths : forall i,
  failures req i paths io = omap failure_message (outcomes req root base i paths io).
Proof.
  induction paths as [|p paths IH]; intros i; [done|]. simpl.
  unfold outcome_of. destruct (attempt req (io i)) as [[]|m]; simpl; by rewrite IH.
Qed.

(** What holds of every batch whose request is well formed: no failure
    of a single file stops it, the outcome list has one entry per path,
    the counter reaches the number of paths, the job ends [completed]
    and is due for removal 30000 ms later.  The job counts and keeps the
    messages of the failed outcomes, those that are truthy. *)
Lemma batch_completes_despite_failures req uuid now io st fp :
  config_folderPath (upload_config req) = Some fp ->
  let paths := photoPaths req in
  let root := expandTilde fp in
  exists st' j log results,
    upload_folder req uuid now io st = Some (Ok tt, st')
    /\ registered st' uuid = Some j
    /\ status j = completed
    /\ completedItems j = length paths
    /\ totalItems j = length paths
    /\ failedItems j = length (recorded (omap failure_message results))
    /\ errors j = recorded (omap failure_message results)
    /\ sent st' = sent st ++ log
                    ++ [upload_result uuid results (if_truthy (folderPath req))
                          (if_truthy (fileId req));
                        job_update j]
    /\ length results = length paths
    /\ (forall k photoPath, paths !! k = Some photoPath ->
          results !! k
          = Some (outcome_of req root (path_basename root) photoPath (io k)))
    /\ timers st' = timers st ++ [(30000, uuid)]
    /\ replies st' = replies st ++ [reply_started uuid "Upload started"].
Proof.
  intros Hfp paths root.
  destruct (upload_folder_settles req uuid now io st fp Hfp) as [log Hrun].
  eexists _, (batch_job req uuid now io), log, _. split; [exact Hrun|].
  destruct (ops_loop_fields req io paths 0
              (new_Job uuid "upload" (length paths) now)) as (Hs & Ht & Hc & Hf & He).
  rewrite (failures_of_outcomes req root (path_basename root)) in Hf, He.
  unfold batch_job. fold paths.
  split.
  { unfold registered. simpl. rewrite lookup_insert_eq. simpl.
    rewrite lookup_app_r by lia. by rewrite Nat.sub_diag. }
  simpl. repeat split; try done.
  - rewrite Hc. by destruct paths.
  - apply outcomes_length.
  - intros k photoPath Hk. by rewrite (outcomes_lookup _ _ _ _ _ 0 k photoPath Hk).
Qed.

(** When every failure comes with a telling message, the job counts
    every failed outcome. *)
Lemma recorded_all_truthy messages :
  Forall (fun m => truthy m = true) messages -> recorded messages = messages.
Proof.
  induction 1 as [|m messages Hm _ IH]; [done|].
  unfold recorded in *. simpl. by rewrite Hm, IH.
Qed.

Lemma backslashes_to_slashes_id s :
  contains_backslash s = false -> backslashes_to_slashes s = s.
Proof.
  induction s as [|c s IH]; [done|]. simpl. intros H.
  apply orb_false_iff in H as [Hc Hs]. by rewrite Hc, IH.
Qed.

End Batches.

(** C7, as the code has it: with structure preserved the key is the base
    folder name, a slash, and the relative path in which every backslash
    has become a slash (so exactly [<baseFolderName>/<relativePath>] when
    the relative path has no backslash); otherwise it is the base folder
    name, a slash, [Date.now()] in decimal, an underscore and the file
    name.  The base folder name is [path.basename] of the expanded root
    folder. *)
Theorem destination_key_scheme {RT : Runtime} req uuid now io st fp k photoPath :
  config_folderPath (upload_config req) = Some fp ->
  photoPaths req !! k = Some photoPath ->
  attempt req (io k) = Ok tt ->
  let baseFolderName := path_basename (expandTilde fp) in
  let relativePath := path_relative (expandTilde fp) photoPath in
  let key :=
    if preserveStructure req
    then baseFolderName +:+ "/" +:+ backslashes_to_slashes relativePath
    else baseFolderName +:+ "/" +:+ pretty (io_now (io k)) +:+ "_"
           +:+ path_basename photoPath in
  exists st' log results j,
    upload_folder req uuid now io st = Some (Ok tt, st')
    /\ sent st' = sent st ++ log
                    ++ [upload_result uuid results (if_truthy (folderPath req))
                          (if_truthy (fileId req));
                        job_update j]
    /\ results !! k = Some (Uploaded photoPath key relativePath)
    /\ (preserveStructure req = true -> contains_backslash relativePath = false ->
        key = baseFolderName +:+ "/" +:+ relativePath).
Proof.
  intros Hfp Hk Hok baseFolderName relativePath key.
  destruct (batch_completes_despite_failures req uuid now io st fp Hfp)
    as (st' & j & log & results & Hrun & _ & _ & _ & _ & _ & _ & Hsent & _ & Hres & _).
  exists st', log, results, j. repeat split; try done.
  - rewrite (Hres k photoPath Hk). unfold outcome_of. rewrite Hok.
    unfold key, upload_s3Key. by destruct (preserveStructure req).
  - intros Hp Hb. unfold key. rewrite Hp. by rewrite backslashes_to_slashes_id.
Qed.

Lemma destination_key_scheme_witness :
  exists st' log results j,
    upload_folder (RT := Posix.runtime) Examples.flat_upload "uuid-0" 0
      (fun _ => Examples.io_ok 2048) Examples.empty_server = Some (Ok tt, st')
    /\ sent st' = sent Examples.empty_server ++ log
                    ++ [upload_result "uuid-0" results None None; job_update j]
    /\ results !! 0%nat
       = Some (Uploaded "/home/user/photos/2024/a.jpg" "photos/1700000000000_a.jpg"
                 "2024/a.jpg")
    /\ (false = true -> contains_backslash "2024/a.jpg" = false ->
        "photos/1700000000000_a.jpg"%string = "photos/2024/a.jpg"%string).
Proof.
  apply (destination_key_scheme (RT := Posix.runtime) Examples.flat_upload "uuid-0" 0
           (fun _ => Examples.io_ok 2048) Examples.empty_server "~/photos" 0
           "/home/user/photos/2024/a.jpg"); reflexivity.
Defined.

(** C7, as stated, fails: a relative path with a backslash in it is not
    copied into the key as it is. *)
Lemma backslash_in_path_is_rewritten_in_key :
  let st := Examples.final_state
              (upload_folder (RT := Posix.runtime) Examples.backslash_upload "uuid-0" 0
                 (fun _ => Examples.io_ok 2048) Examples.empty_server) in
  Examples.last_sent 2 st
  = [upload_result "uuid-0"
       [Uploaded "/home/user/photos/2024\a.jpg" "photos/2024/a.jpg" "2024\a.jpg"]
       None None;
     job_update (batch_job (RT := Posix.runtime) Examples.backslash_upload "uuid-0" 0
                   (fun _ => Examples.io_ok 2048))]
  /\ "photos/2024/a.jpg"%string <> ("photos" +:+ "/" +:+ "2024\a.jpg")%string.
Proof. split; [by vm_compute|discriminate]. Qed.

(** C1 at the input where the code departs from it: three files, the
    second transfer rejected with an error whose [message] is [null] (or
    the empty string).  The batch goes on and the job ends [completed]
    with [completedItems = 3] and three outcomes, but [updateProgress]
    tests [if (error)], so the failure is neither counted in
    [failedItems] nor appended to [errors]. *)
Theorem failure_with_falsy_message_is_not_recorded :
  let run message :=
    Examples.final_state
      (upload_folder (RT := Posix.runtime) Examples.batch3 "uuid-0" 0
         (Examples.second_fails message) Examples.empty_server) in
  let outcomes message :=
    [Uploaded "/home/user/photos/a.jpg" "photos/a.jpg" "a.jpg";
     NotUploaded "/home/user/photos/b.jpg" message;
     Uploaded "/home/user/photos/c.jpg" "photos/c.jpg" "c.jpg"]%string in
  let unrecorded message :=
    exists j,
      registered (run message) "uuid-0" = Some j
      /\ status j = completed
      /\ completedItems j = 3%nat
      /\ failedItems j = 0%nat
      /\ errors j = []
      /\ Examples.last_sent 2 (run message)
         = [upload_result "uuid-0" (outcomes message) None None; job_update j] in
  unrecorded None /\ unrecorded (Some ""%string).
Proof.
  split; eexists; (split; [vm_compute; reflexivity|]); repeat split.
Qed.

(** The same batch with a telling message: the failure is counted. *)
Lemma failure_with_message_is_recorded :
  let st :=
    Examples.final_state
      (upload_folder (RT := Posix.runtime) Examples.batch3 "uuid-0" 0
         (Examples.second_fails (Some "Access Denied"%string)) Examples.empty_server) in
  exists j,
    registered st "uuid-0" = Some j
    /\ status j = completed /\ completedItems j = 3%nat
    /\ failedItems j = 1%nat /\ errors j = [Some "Access Denied"%string].
Proof. eexists. split; [vm_compute; reflexivity|]. repeat split. Qed.


(** ** Retirement *)
Section Retirement.

Context {RT : Runtime}.

(** A job whose removal is the only one pending under its id is in the
    registry until the delay has passed and gone from then on. *)
Lemma scheduled_job_retires st uuid delay ref j dt :
  jobs st !! uuid = Some ref ->
  objects st !! ref = Some j ->
  (exists old, timers st = old ++ [(delay, uuid)] /\ uuid ∉ snd <$> old) ->
  registered (elapse dt st) uuid = if bool_decide (delay ≤ dt) then None else Some j.
Proof.
  intros Hreg Hobj (old & Htimers & Hfresh).
  unfold registered, elapse. simpl. rewrite Htimers, filter_app.
  case_bool_decide as Hdt.
  - rewrite delete_due_member; [done|].
    rewrite fmap_app, elem_of_app. right.
    rewrite filter_cons, decide_True by done. set_solver.
  - rewrite delete_due_other; [by rewrite Hreg|].
    rewrite fmap_app, not_elem_of_app. split.
    + intros Hin. apply Hfresh.
      apply list_elem_of_fmap in Hin as (t & -> & Ht).
      apply list_elem_of_fmap. exists t. split; [done|].
      by apply list_elem_of_filter in Ht as [_ Ht].
    + rewrite filter_cons, decide_False by done. set_solver.
Qed.

(** A job with no removal pending stays. *)
Lemma unscheduled_job_stays st jobId dt :
  jobId ∉ retiring st -> registered (elapse dt st) jobId = registered st jobId.
Proof.
  intros H. unfold registered. by rewrite elapse_keeps_others.
Qed.

(** A completed upload is removed 30000 ms after the handler is done. *)
Lemma completed_upload_retires req uuid now io st fp dt :
  config_folderPath (upload_config req) = Some fp ->
  uuid ∉ retiring st ->
  exists st' j,
    upload_folder req uuid now io st = Some (Ok tt, st')
    /\ status j = completed
    /\ registered (elapse dt st') uuid
       = if bool_decide (30000 ≤ dt) then None else Some j.
Proof.
  intros Hfp Hfresh.
  destruct (upload_folder_settles req uuid now io st fp Hfp) as [log Hrun].
  eexists _, (batch_job req uuid now io). split; [exact Hrun|]. split; [done|].
  eapply (scheduled_job_retires _ uuid 30000 (length (objects st))).
  - simpl. apply lookup_insert_eq.
  - simpl. rewrite lookup_app_r by lia. by rewrite Nat.sub_diag.
  - exists (timers st). split; [done|]. exact Hfresh.
Qed.

End Retirement.

(** C9 at the input where the code departs from it: the [catch] block
    that calls [fail] schedules no removal, so a job that ends [failed]
    stays in the registry however much time passes; a job that ends
    [completed] is there until 30000 ms have passed and gone after. *)
Theorem failed_job_is_never_retired :
  let failing :=
    Examples.final_state
      (check_sync_status (RT := Posix.runtime)
         (Examples.sync_request (Some "victim"%string))
         "uuid-0" 7 Examples.s3_unreachable 10 Examples.server_with_victim) in
  let completing :=
    Examples.final_state
      (upload_folder (RT := Posix.runtime) Examples.batch3 "uuid-0" 0
         (fun _ => Examples.io_ok 2048) Examples.empty_server) in
  let victim := JobMethods.fail (Some "Access Denied"%string)
                  (new_Job "victim" "upload" 5 0) in
  status victim = failed
  /\ registered failing "victim" = Some victim
  /\ timers failing = []
  /\ (forall dt, registered (elapse dt failing) "victim" = Some victim)
  /\ (exists j, status j = completed
        /\ registered (elapse 29999 completing) "uuid-0" = Some j
        /\ registered (elapse 30000 completing) "uuid-0" = None).
Proof.
  split; [done|]. split; [by vm_compute|]. split; [by vm_compute|]. split.
  - intros dt. by vm_compute.
  - eexists. split; [|split; vm_compute; reflexivity]. done.
Qed.

(** ** Reconciliation *)
Section Reconciliation.

Context {RT : Runtime}.








End Reconciliation.



(** A store that pages as [Examples.s3_three_pages] does is listed to
    the end within three requests. *)
Lemma three_pages_are_listed :
  list_all (RT := Posix.runtime) 3 Examples.s3_three_pages "bucket" "photos" None ∅
  = Some (Ok (list_to_set ["a.jpg"; "x.png"; "1700000000000_c.jpg"; "2024/b.jpg"]%string)).
Proof.
  rewrite (list_all_paged (RT := Posix.runtime) Examples.s3_three_pages "bucket" "photos"
             None
             [["photos/a.jpg"; "photos/x.png"]; ["photos/1700000000000_c.jpg"];
              ["photos/2024/b.jpg"]]%string
             ltac:(
               apply (paged_more _ _ _ None
                        {| Contents := Some ["photos/a.jpg"; "photos/x.png"]%string;
                           NextContinuationToken := Some "t1"%string |});
                 [reflexivity..|];
               apply (paged_more _ _ _ (Some "t1"%string)
                        {| Contents := Some ["photos/1700000000000_c.jpg"]%string;
                           NextContinuationToken := Some "t2"%string |});
                 [reflexivity..|];
               apply (paged_last _ _ _ (Some "t2"%string)
                        {| Contents := Some ["photos/2024/b.jpg"]%string;
                           NextContinuationToken := None |}); reflexivity)
             ["a.jpg"; "x.png"; "1700000000000_c.jpg"; "2024/b.jpg"]%string ∅ 3);
    [by rewrite (left_id_L ∅ (∪))|repeat constructor|simpl; lia].
Qed.



(** ** Inventory scanner *)
Section Scanner.

Context {RT : Runtime}.

Lemma FsNode_nested_ind (P : FsNode -> Prop) :
  (forall size mtime, P (FsFile size mtime)) ->
  (forall items, Forall (fun it => P (snd it)) items -> P (FsDir items)) ->
  (forall message, P (FsUnreadableDir message)) ->
  P FsOther ->
  (forall message, P (FsBroken message)) ->
  forall n, P n.
Proof.
  intros Hfile Hdir Hun Hother Hbroken.
  fix IH 1. intros [size mtime|items|message| |message].
  - apply Hfile.
  - apply Hdir. induction items as [|it items IHitems];
      [constructor|constructor; [apply IH|apply IHitems]].
  - apply Hun.
  - apply Hother.
  - apply Hbroken.
Qed.


Lemma Z_sum_with_app {A} (f : A -> Z) xs ys :
  Z_sum_with f (xs ++ ys) = Z_sum_with f xs + Z_sum_with f ys.
Proof. induction xs as [|x xs IH]; simpl; [done|]. rewrite IH. lia. Qed.

Lemma everywhere_unfold P d :
  everywhere P d <-> P d /\ children_everywhere P (subfolders d).
Proof.
  destruct d as [n p ph subs c t]. simpl. unfold children_everywhere.
  split; intros [HP Hsubs]; (split; [done|]).
  - clear HP. induction subs as [|kv subs IH]; [constructor|].
    destruct Hsubs as [Hkv Hsubs]. constructor; [exact Hkv|by apply IH].
  - clear HP. induction subs as [|kv subs IH]; [done|].
    apply Forall_cons in Hsubs as [Hkv Hsubs]. split; [exact Hkv|by apply IH].
Qed.




Lemma readable_unfold items :
  readable (FsDir items) = true <-> Forall (fun it => readable (snd it) = true) items.
Proof.
  simpl. induction items as [|it items IH]; [by split; [constructor|]|].
  rewrite andb_true_iff, IH. split.
  - intros [Hit Hitems]. by constructor.
  - intros H. by apply Forall_cons in H.
Qed.

(** A scan of a tree in which every entry can be read returns. *)
Lemma scanDirectory_returns dir :
  readable dir = true -> is_directory dir = true ->
  forall dirPath relativePath st,
    exists tree st', scanDirectory dir dirPath relativePath st = Ok (tree, st').
Proof.
  induction dir as [size mtime|items IH|message| |message] using FsNode_nested_ind;
    intros Hread Hdir dirPath relativePath st; try done.
  apply readable_unfold in Hread. clear Hdir. simpl.
  generalize ({| name := path_basename dirPath; path := relativePath; photos := [];
                 subfolders := []; photoCount := 0%nat; totalSize := 0 |}).
  revert st. induction items as [|[item node] items IHitems]; intros st fd.
  - simpl. eauto.
  - apply Forall_cons in IH as [IHnode IH]. apply Forall_cons in Hread as [Hnode Hread].
    specialize (IHitems IH Hread). simpl in *.
    destruct node as [size mtime|sub|message| |message]; try done.
    + destruct (isImageFile item); apply IHitems.
    + destruct (IHnode Hnode eq_refl (path_join dirPath item)
                  (path_join relativePath item) st) as (subfolder & st1 & Hsub).
      rewrite Hsub. apply IHitems.
Qed.

End Scanner.



(** ** Progress percentage *)
Section Percentage.

Lemma round_half_even_error n d :
  0 < d -> 2 * Z.abs (round_half_even n d * d - n) <= d.
Proof.
  intros Hd. unfold round_half_even.
  pose proof (Z.div_mod n d ltac:(lia)) as Hdm.
  pose proof (Z.mod_pos_bound n d Hd) as Hr.
  destruct (Z.ltb_spec (2 * (n mod d)) d); [nia|].
  destruct (Z.ltb_spec d (2 * (n mod d))); [nia|].
  destruct (Z.even (n / d)); nia.
Qed.

Lemma ilog2_ratio_cases a b :
  ilog2_ratio a b = Z.log2 a - Z.log2 b \/ ilog2_ratio a b = Z.log2 a - Z.log2 b - 1.
Proof. unfold ilog2_ratio. destruct (_ <=? _); [by left|by right]. Qed.

(** In the normal range the rounded value has 53 bits below the leading
    power of two of the ratio. *)
Lemma round_binary64_normal a b :
  0 < a -> -1022 <= ilog2_ratio a b < 52 ->
  round_binary64 a b
  = Fin (round_half_even (a * 2 ^ (52 - ilog2_ratio a b)) b) (ilog2_ratio a b - 52).
Proof.
  intros Ha Hil. unfold round_binary64, prec, emin, emax.
  destruct (Z.leb_spec a 0); [lia|].
  replace (53 - 1) with 52 by lia.
  rewrite (Z.max_r (-1074)) by lia.
  rewrite (Z.max_r 0 (- (ilog2_ratio a b - 52))) by lia.
  rewrite (Z.max_l 0 (ilog2_ratio a b - 52)) by lia.
  destruct (Z.leb_spec 0 (ilog2_ratio a b - 52)); [lia|].
  rewrite andb_false_l, Z.pow_0_r, Z.mul_1_r.
  by replace (- (ilog2_ratio a b - 52)) with (52 - ilog2_ratio a b) by lia.
Qed.


(** The two roundings of [k / n * 100] and the final [Math.round], in
    integers: [s1] and [s2] are the (negated) exponents, [m1] and [m2]
    the significands of the quotient and of the product. *)
Lemma nearest_from_roundings k n s1 s2 m1 m2 p :
  0 < n < 2 ^ 32 -> 0 <= k <= n ->
  52 <= s1 -> 46 <= s2 ->
  2 * Z.abs (m1 * n - k * 2 ^ s1) <= n ->
  2 * Z.abs (m2 * 2 ^ s1 - 100 * m1 * 2 ^ s2) <= 2 ^ s1 ->
  p = (2 * m2 + 2 ^ s2) / (2 * 2 ^ s2) ->
  let q := 100 * k / n in
  let r := (100 * k) mod n in
  q <= p <= q + 1
  /\ (2 * r < n -> p = q)
  /\ (n < 2 * r -> p = q + 1).
Proof.
  intros Hn Hk Hs1 Hs2 H1 H2 Hp q r.
  assert (HS1 : 2 ^ 52 <= 2 ^ s1) by (apply Z.pow_le_mono_r; lia).
  assert (HS2 : 2 ^ 46 <= 2 ^ s2) by (apply Z.pow_le_mono_r; lia).
  set (S1 := 2 ^ s1) in *. set (S2 := 2 ^ s2) in *.
  change (2 ^ 32) with 4294967296 in Hn.
  change (2 ^ 52) with 4503599627370496 in HS1.
  change (2 ^ 46) with 70368744177664 in HS2.
  pose proof (Z.div_mod (100 * k) n ltac:(lia)) as Hqr.
  pose proof (Z.mod_pos_bound (100 * k) n ltac:(lia)) as Hr.
  fold q r in Hqr, Hr.
  pose proof (Z.div_mod (2 * m2 + S2) (2 * S2) ltac:(lia)) as Hpd.
  pose proof (Z.mod_pos_bound (2 * m2 + S2) (2 * S2) ltac:(lia)) as Hpm.
  rewrite <- Hp in Hpd.
  set (V := S1 * S2). set (W := V * n). set (E := n * (100 * S2 + S1)).
  assert (HV : 0 < V) by (apply Z.mul_pos_pos; lia).
  assert (HW : V <= W).
  { pose proof (Z.mul_le_mono_nonneg_l 1 n V ltac:(lia) ltac:(lia)). unfold W. lia. }
  assert (HE : 2 * E <= V).
  { pose proof (Z.mul_le_mono_nonneg_r (400 * n) S1 S2 ltac:(lia) ltac:(lia)).
    pose proof (Z.mul_le_mono_nonneg_r (4 * n) S2 S1 ltac:(lia) ltac:(lia)).
    unfold E, V. lia. }
  (* the doubled significand of the product, scaled by [S1 * n] *)
  assert (HTu : 2 * m2 * S1 * n <= 200 * k * V + E).
  { pose proof (Z.mul_le_mono_nonneg_r (2 * m2 * S1) (200 * m1 * S2 + S1) n
                  ltac:(lia) ltac:(lia)).
    pose proof (Z.mul_le_mono_nonneg_r (2 * m1 * n) (2 * k * S1 + n) (100 * S2)
                  ltac:(lia) ltac:(lia)).
    unfold V, E. lia. }
  assert (HTl : 200 * k * V - E <= 2 * m2 * S1 * n).
  { pose proof (Z.mul_le_mono_nonneg_r (200 * m1 * S2 - S1) (2 * m2 * S1) n
                  ltac:(lia) ltac:(lia)).
    pose proof (Z.mul_le_mono_nonneg_r (2 * k * S1 - n) (2 * m1 * n) (100 * S2)
                  ltac:(lia) ltac:(lia)).
    unfold V, E. lia. }
  assert (Hk200 : 200 * k * V = 2 * q * W + 2 * r * V).
  { replace (200 * k * V) with (2 * V * (100 * k)) by ring.
    rewrite Hqr at 1. unfold W. ring. }
  (* [Math.round], scaled by [S1 * n] *)
  assert (Hpl : 2 * W * p <= 2 * m2 * S1 * n + W).
  { pose proof (Z.mul_le_mono_nonneg_r (2 * S2 * p) (2 * m2 + S2) (S1 * n)
                  ltac:(lia) ltac:(lia)).
    unfold W, V. lia. }
  assert (Hpu : 2 * m2 * S1 * n + W < 2 * W * (p + 1)).
  { pose proof (Z.mul_lt_mono_pos_r (S1 * n) (2 * m2 + S2) (2 * S2 * (p + 1))
                  ltac:(lia)) as [Hlt _].
    specialize (Hlt ltac:(lia)). unfold W, V. lia. }
  assert (HrV : 0 <= r * V <= W - V).
  { pose proof (Z.mul_le_mono_nonneg_r 0 r V ltac:(lia) ltac:(lia)).
    pose proof (Z.mul_le_mono_nonneg_r r (n - 1) V ltac:(lia) ltac:(lia)).
    unfold W. lia. }
  assert (HWpos : 0 < W) by lia.
  assert (Hge : q <= p).
  { assert (W * q < W * (p + 1)) by lia.
    apply Z.mul_lt_mono_pos_l in H; lia. }
  assert (Hle : p <= q + 1).
  { assert (W * p < W * (q + 2)) by lia.
    apply Z.mul_lt_mono_pos_l in H; lia. }
  split; [lia|]. split.
  - intros Hlt.
    assert (2 * (r * V) <= W - V).
    { pose proof (Z.mul_le_mono_nonneg_r (2 * r) (n - 1) V ltac:(lia) ltac:(lia)).
      unfold W. lia. }
    assert (W * p < W * (q + 1)) by lia.
    apply Z.mul_lt_mono_pos_l in H0; lia.
  - intros Hgt.
    assert (W + V <= 2 * (r * V)).
    { pose proof (Z.mul_le_mono_nonneg_r (n + 1) (2 * r) V ltac:(lia) ltac:(lia)).
      unfold W. lia. }
    assert (W * (q + 1) < W * (p + 1)) by lia.
    apply Z.mul_lt_mono_pos_l in H0; lia.
Qed.

(** [Math.round((k / n) * 100)] for counts [0 <= k <= n] is the integer
    nearest to the exact percentage. *)
Lemma percent_is_nearest k n :
  0 < n < 2 ^ 32 -> 0 <= k <= n ->
  let q := 100 * k / n in
  let r := (100 * k) mod n in
  exists p,
    Math_round (mul (div (of_int k) (of_int n)) (of_int 100)) = of_int p
    /\ q <= p <= q + 1
    /\ (2 * r < n -> p = q)
    /\ (n < 2 * r -> p = q + 1).
Proof.
  intros Hn Hk q r.
  assert (Hdiv : div (of_int k) (of_int n) = round_binary64 k n).
  { unfold div, of_int. destruct (Z.leb_spec n 0); [lia|].
    change (Z.max 0 (0 - 0)) with 0. by rewrite Z.pow_0_r, !Z.mul_1_r. }
  rewrite Hdiv.
  destruct (Z.eq_dec k 0) as [->|Hk0].
  { exists 0. subst q r. rewrite Z.mul_0_r, Z.div_0_l, Z.mod_0_l by lia.
    split; [reflexivity|]. lia. }
  (* the quotient *)
  assert (Hlogn : Z.log2 n < 32) by (apply Z.log2_lt_pow2; lia).
  assert (Hlogk : 0 <= Z.log2 k <= Z.log2 n).
  { split; [apply Z.log2_nonneg|apply Z.log2_le_mono; lia]. }
  set (il1 := ilog2_ratio k n).
  assert (Hil1 : -32 <= il1 <= 0).
  { destruct (ilog2_ratio_cases k n) as [H|H]; fold il1 in H; lia. }
  rewrite round_binary64_normal by (fold il1; lia). fold il1.
  set (s1 := 52 - il1). set (m1 := round_half_even (k * 2 ^ s1) n).
  pose proof (round_half_even_error (k * 2 ^ s1) n ltac:(lia)) as H1. fold m1 in H1.
  assert (HS1 : 2 ^ 52 <= 2 ^ s1) by (apply Z.pow_le_mono_r; lia).
  change (2 ^ 52) with 4503599627370496 in HS1.
  change (2 ^ 32) with 4294967296 in Hn.
  assert (Hm1 : 1 <= m1 <= 2 ^ s1).
  { pose proof (Z.mul_le_mono_nonneg_r 1 k (2 ^ s1) ltac:(lia) ltac:(lia)).
    pose proof (Z.mul_le_mono_nonneg_r k n (2 ^ s1) ltac:(lia) ltac:(lia)).
    split.
    - destruct (Z.le_gt_cases m1 0) as [Hneg|]; [|lia].
      pose proof (Z.mul_le_mono_nonneg_r m1 0 n ltac:(lia) Hneg). lia.
    - destruct (Z.le_gt_cases m1 (2 ^ s1)) as [|Hbig]; [done|].
      pose proof (Z.mul_le_mono_nonneg_r (2 ^ s1 + 1) m1 n ltac:(lia) ltac:(lia)). lia. }
  (* the product *)
  assert (Hmul : mul (Fin m1 (il1 - 52)) (of_int 100)
                 = round_binary64 (m1 * 100) (2 ^ s1)).
  { unfold mul, of_int.
    rewrite (Z.max_l 0 (il1 - 52 + 0)) by lia.
    rewrite (Z.max_r 0 (- (il1 - 52 + 0))) by lia.
    rewrite Z.pow_0_r, Z.mul_1_r.
    by replace (- (il1 - 52 + 0)) with s1 by (unfold s1; lia). }
  rewrite Hmul.
  assert (Hlog : 6 <= Z.log2 (m1 * 100) <= s1 + 6).
  { split.
    - apply Z.log2_le_pow2; [lia|]. change (2 ^ 6) with 64. lia.
    - assert (Z.log2 (m1 * 100) < s1 + 7); [|lia].
      apply Z.log2_lt_pow2; [lia|].
      rewrite Z.pow_add_r by lia. change (2 ^ 7) with 128. lia. }
  set (il2 := ilog2_ratio (m1 * 100) (2 ^ s1)).
  assert (Hil2 : -79 <= il2 <= 6).
  { destruct (ilog2_ratio_cases (m1 * 100) (2 ^ s1)) as [H|H]; fold il2 in H;
      rewrite Z.log2_pow2 in H by lia; unfold s1 in *; lia. }
  rewrite round_binary64_normal by (fold il2; lia). fold il2.
  set (s2 := 52 - il2). set (m2 := round_half_even (m1 * 100 * 2 ^ s2) (2 ^ s1)).
  pose proof (round_half_even_error (m1 * 100 * 2 ^ s2) (2 ^ s1) ltac:(lia)) as H2.
  fold m2 in H2.
  (* [Math.round] *)
  unfold Math_round. destruct (Z.leb_spec 0 (il2 - 52)); [lia|].
  replace (- (il2 - 52)) with s2 by (unfold s2; lia).
  replace (1 - (il2 - 52)) with (Z.succ s2) by (unfold s2; lia).
  rewrite Z.pow_succ_r by (unfold s2; lia).
  eexists. split; [reflexivity|].
  apply (nearest_from_roundings k n s1 s2 m1 m2);
    try lia; try (unfold s1; lia); try (unfold s2; lia).
Qed.

End Percentage.

(** C2, as the code has it: for a job of [n > 0] items and a completed
    count [0 <= k <= n], the progress is [Math.round((k / n) * 100)]: the
    integer nearest to the percentage, so [floor(k / n * 100)] when the
    fraction is below one half, one more when it is above, and one of
    the two at exactly one half; it lies between 0 and 100.  ([n] is an
    array length, below [2 ^ 32].) *)
Theorem progress_is_percentage_rounded_to_nearest (j : Job) (k : nat)
    (currentItem error : option string) :
  (0 < totalItems j)%nat ->
  Z.of_nat (totalItems j) < 2 ^ 32 ->
  (k <= totalItems j)%nat ->
  let n := Z.of_nat (totalItems j) in
  let q := 100 * Z.of_nat k / n in
  let r := (100 * Z.of_nat k) mod n in
  exists p,
    progress (JobMethods.updateProgress k currentItem error j) = of_int p
    /\ q <= p <= q + 1
    /\ 0 <= p <= 100
    /\ (2 * r < n -> p = q)
    /\ (n < 2 * r -> p = q + 1).
Proof.
  intros Hpos Hlen Hk n q r.
  destruct (percent_is_nearest (Z.of_nat k) n ltac:(lia) ltac:(lia))
    as (p & Hp & Hq & Hlow & Hhigh).
  exists p. split; [exact Hp|]. split; [exact Hq|]. split; [|by split].
  fold q in Hq. subst q.
  assert (0 <= 100 * Z.of_nat k / n) by (apply Z.div_pos; lia).
  split; [lia|].
  destruct (Z.eq_dec (Z.of_nat k) n) as [Heq|Hne].
  - fold r in Hlow. assert (r = 0) as Hr0.
    { subst r. rewrite Heq. apply Z.mod_mul; lia. }
    rewrite Hlow by lia. rewrite Heq. rewrite Z.div_mul; lia.
  - assert (100 * Z.of_nat k / n < 100); [|lia].
    apply Z.div_lt_upper_bound; lia.
Qed.

Lemma progress_is_percentage_rounded_to_nearest_witness :
  exists p,
    progress (JobMethods.updateProgress 29 (Some "x.jpg"%string) None
                (new_Job "a" "upload" 200 0)) = of_int p
    /\ 14 <= p <= 15 /\ 0 <= p <= 100.
Proof.
  destruct (progress_is_percentage_rounded_to_nearest (new_Job "a" "upload" 200 0) 29
              (Some "x.jpg"%string) None) as (p & Hp & Hq & Hb & _).
  - simpl. lia.
  - simpl. lia.
  - simpl. lia.
  - exists p. split; [exact Hp|]. split; [exact Hq|exact Hb].
Defined.

(** C2, as stated, fails: two of three items give 67, not
    [floor(2 / 3 * 100) = 66]; and with no items at all the division
    gives [NaN]. *)
Lemma progress_is_not_the_floor :
  progress (JobMethods.updateProgress 2 None None (new_Job "a" "upload" 3 0)) = of_int 67
  /\ 100 * 2 / 3 = 66
  /\ progress (JobMethods.updateProgress 0 None None (new_Job "a" "upload" 0 0)) = NaN.
Proof. repeat split. Qed.

(** The rounding model computes what the machine's binary64 arithmetic
    computes, on every pair of counts up to 60 and on a spread of large
    ones. *)
Lemma rounding_model_matches_binary64 :
  let model k n := to_float (mul (div (of_int k) (of_int n)) (of_int 100)) in
  let agree k n :=
    PrimFloat.eqb (model k n) (float_percent k n)
    || (PrimFloat.is_nan (model k n) && PrimFloat.is_nan (float_percent k n)) in
  let upto (m : nat) : list Z := Z.of_nat <$> seq 0 m in
  forallb (fun n => forallb (fun k => agree k n) (upto (S (Z.to_nat n)))) (upto 61%nat) = true
  /\ forallb (fun i =>
       agree i 4294967295 && agree (4294967295 - i) 4294967295
       && agree 1 (4294967295 - i)
       && agree (i * 7919 + 13) (i * 7919 + 4000)) (upto 200%nat) = true.
Proof. split; by vm_compute. Qed.

(** ** The scanner, beyond the aggregates *)
Section Inventories.

Context {RT : Runtime}.

Lemma Z_sum_app xs ys : Z_sum (xs ++ ys) = Z_sum xs + Z_sum ys.
Proof. apply Z_sum_with_app. Qed.


Lemma media_sizes_cons it rest :
  media_sizes (FsDir (it :: rest))
  = match snd it with
    | FsFile size _ => if isImageFile (fst it) then [size] else []
    | _ => media_sizes (snd it)
    end ++ media_sizes (FsDir rest).
Proof. reflexivity. Qed.


(** The loop adds to the node it fills one photo for each media file it
    passes, whatever the names of the entries. *)
Lemma scan_items_counts scan dirPath relativePath items :
  Forall (fun it => forall p r st tree st',
            scan (snd it) p r st = Ok (tree, st') ->
            photoCount tree = length (media_sizes (snd it))
            /\ totalSize tree = Z_sum (media_sizes (snd it))
            /\ totalPhotos st' = (totalPhotos st + length (media_sizes (snd it)))%nat)
         items ->
  forall folderData st tree st',
    scan_items scan dirPath relativePath items folderData st = Ok (tree, st') ->
    photoCount tree = (photoCount folderData + length (media_sizes (FsDir items)))%nat
    /\ totalSize tree = totalSize folderData + Z_sum (media_sizes (FsDir items))
    /\ totalPhotos st' = (totalPhotos st + length (media_sizes (FsDir items)))%nat.
Proof.
  induction 1 as [|[item node] items Hnode _ IH]; intros fd st tree st' Hrun.
  - simpl in Hrun. injection Hrun as <- <-. simpl. repeat split; lia.
  - rewrite media_sizes_cons, length_app, Z_sum_app.
    simpl in Hrun, Hnode. simpl fst. simpl snd.
    assert (Hsub : forall subfolder st1,
      scan node (path_join dirPath item) (path_join relativePath item) st
        = Ok (subfolder, st1) ->
      scan_items scan dirPath relativePath items (add_subfolder item subfolder fd) st1
        = Ok (tree, st') ->
      photoCount tree
      = (photoCount fd + (length (media_sizes node) + length (media_sizes (FsDir items))))%nat
      /\ totalSize tree
         = totalSize fd
           + (Z_sum (media_sizes node) + Z_sum (media_sizes (FsDir items)))
      /\ totalPhotos st'
         = (totalPhotos st
            + (length (media_sizes node) + length (media_sizes (FsDir items))))%nat).
    { intros subfolder st1 Hscan Hrest.
      destruct (Hnode _ _ _ _ _ Hscan) as (Hc & Hs & Ht).
      destruct (IH _ _ _ _ Hrest) as (Hc' & Hs' & Ht').
      cbn [add_subfolder photoCount totalSize] in Hc', Hs'.
      repeat split; lia. }
    destruct node as [size mtime|sub|message| |message].
    + destruct (isImageFile item).
      * destruct (IH _ _ _ _ Hrun) as (Hc' & Hs' & Ht').
        cbn [add_photo photoCount totalSize totalPhotos photo_size] in Hc', Hs', Ht'.
        change (Z_sum [size]) with (size + 0). change (length [size]) with 1%nat.
        repeat split; lia.
      * destruct (IH _ _ _ _ Hrun) as (Hc' & Hs' & Ht').
        change (Z_sum []) with 0. change (length (@nil Z)) with 0%nat.
        repeat split; lia.
    + destruct (scan (FsDir sub) _ _ st) as [[subfolder st1]|m] eqn:Hscan; [|done].
      by apply (Hsub subfolder st1).
    + destruct (scan (FsUnreadableDir message) _ _ st) as [[subfolder st1]|m] eqn:Hscan;
        [|done].
      by apply (Hsub subfolder st1).
    + destruct (IH _ _ _ _ Hrun) as (Hc' & Hs' & Ht').
      change (Z_sum (media_sizes FsOther)) with 0.
      change (length (media_sizes FsOther)) with 0%nat.
      repeat split; lia.
    + done.
Qed.

Lemma scanDirectory_counts dir :
  forall dirPath relativePath st tree st',
    scanDirectory dir dirPath relativePath st = Ok (tree, st') ->
    photoCount tree = length (media_sizes dir)
    /\ totalSize tree = Z_sum (media_sizes dir)
    /\ totalPhotos st' = (totalPhotos st + length (media_sizes dir))%nat.
Proof.
  induction dir as [size mtime|items IH|message| |message] using FsNode_nested_ind;
    intros dirPath relativePath st tree st' Hrun; try done.
  simpl in Hrun.
  destruct (scan_items_counts scanDirectory dirPath relativePath items IH _ _ _ _ Hrun)
    as (Hc & Hs & Ht).
  cbn [photoCount totalSize] in Hc, Hs. repeat split; [done|lia|done].
Qed.

(** A scan that returns has met nothing it could not read. *)
Lemma scanDirectory_returned dir :
  forall dirPath relativePath st tree st',
    scanDirectory dir dirPath relativePath st = Ok (tree, st') ->
    is_directory dir = true /\ readable dir = true.
Proof.
  induction dir as [size mtime|items IH|message| |message] using FsNode_nested_ind;
    intros dirPath relativePath st tree st' Hrun; try done.
  split; [done|]. apply readable_unfold. simpl in Hrun. revert Hrun.
  generalize ({| name := path_basename dirPath; path := relativePath; photos := [];
                 subfolders := []; photoCount := 0%nat; totalSize := 0 |}).
  revert st. induction items as [|[item node] items IHitems]; intros st fd Hrun;
    [constructor|].
  apply Forall_cons in IH as [IHnode IH]. specialize (IHitems IH).
  simpl in Hrun, IHnode. constructor; simpl.
  - destruct node as [size mtime|sub|message| |message]; try done.
    destruct (scanDirectory (FsDir sub) _ _ st) as [[subfolder st1]|m] eqn:Hsub; [|done].
    by destruct (IHnode _ _ _ _ _ Hsub).
  - destruct node as [size mtime|sub|message| |message]; try done.
    + destruct (isImageFile item); eapply IHitems; exact Hrun.
    + destruct (scanDirectory (FsDir sub) _ _ st) as [[subfolder st1]|m]; [|done].
      eapply IHitems; exact Hrun.
    + eapply IHitems; exact Hrun.
Qed.










End Inventories.

(** X1: a scan returns a tree exactly when the root is a directory and
    nothing below it, at any depth, fails to be read: one unreadable
    entry fails the whole scan. *)
Theorem scan_returns_iff_everything_is_readable {RT : Runtime} dir folderPath :
  (exists rootFolder total,
     scan_photos (Some dir) folderPath = Some (Ok (rootFolder, total)))
  <-> is_directory dir = true /\ readable dir = true.
Proof.
  unfold scan_photos. split.
  - intros (rootFolder & total & Hscan).
    destruct (scanDirectory dir (expandTilde folderPath) "" (mkScanState 0 0))
      as [[tree st']|message] eqn:Hrun; [|done].
    by apply scanDirectory_returned in Hrun.
  - intros [Hdir Hread].
    destruct (scanDirectory_returns dir Hread Hdir (expandTilde folderPath) ""
                (mkScanState 0 0)) as (tree & st' & ->).
    eauto.
Qed.

(** X2: the count and the size a scan reports for the root, and the
    total of the response, are those of the media files of the tree at
    any depth; files of other types and entries that are neither file nor
    directory count for nothing. *)
Theorem scan_counts_the_media_files {RT : Runtime} dir folderPath rootFolder total :
  scan_photos (Some dir) folderPath = Some (Ok (rootFolder, total)) ->
  total = length (media_sizes dir)
  /\ photoCount rootFolder = length (media_sizes dir)
  /\ totalSize rootFolder = Z_sum (media_sizes dir).
Proof.
  intros Hscan. unfold scan_photos in Hscan.
  destruct (scanDirectory dir (expandTilde folderPath) "" (mkScanState 0 0))
    as [[tree st']|message] eqn:Hrun; [|done].
  injection Hscan as -> <-.
  destruct (scanDirectory_counts dir _ _ _ _ _ Hrun) as (Hc & Hs & Ht).
  simpl in Ht. done.
Qed.

Lemma scan_counts_the_media_files_witness :
  exists rootFolder,
    scan_photos (RT := Posix.runtime) (Some Examples.photos_dir) "~/photos"
      = Some (Ok (rootFolder, 3%nat))
    /\ media_sizes (RT := Posix.runtime) Examples.photos_dir = [100; 5000; 250]
    /\ photoCount rootFolder = 3%nat
    /\ totalSize rootFolder = 5350.
Proof.
  eexists. split; [vm_compute; reflexivity|]. split; [vm_compute; reflexivity|].
  destruct (scan_counts_the_media_files (RT := Posix.runtime) Examples.photos_dir
              "~/photos" _ 3%nat ltac:(vm_compute; reflexivity)) as (_ & Hc & Hs).
  split; [exact Hc|exact Hs].
Defined.





(** ** The job's counters *)

(** X5: whatever calls are made on a job, [failedItems] grows by the
    number of [updateProgress] calls that reported a truthy error, and the
    error list by that number plus the number of [fail] calls ([fail]
    keeps its error whatever it is); a new job therefore always has
    [errors.length = failedItems + (number of fail calls)]. *)
Theorem errors_are_failed_items_plus_fail_calls (ops : list JobOp) (j : Job) :
  failedItems (apply_ops ops j) = (failedItems j + failed_updates ops)%nat
  /\ length (errors (apply_ops ops j))
     = (length (errors j) + failed_updates ops + fail_calls ops)%nat
  /\ (forall id type totalItems now,
        let j' := apply_ops ops (new_Job id type totalItems now) in
        length (errors j') = (failedItems j' + fail_calls ops)%nat).
Proof.
  assert (H : forall j,
    failedItems (apply_ops ops j) = (failedItems j + failed_updates ops)%nat
    /\ length (errors (apply_ops ops j))
       = (length (errors j) + failed_updates ops + fail_calls ops)%nat).
  { clear j. induction ops as [|op ops IH]; intros j.
    - unfold failed_updates, fail_calls. simpl. lia.
    - rewrite apply_ops_cons. destruct (IH (apply_op op j)) as [-> ->].
      unfold failed_updates, fail_calls.
      destruct op as [k cur err| |err]; simpl.
      + destruct (truthy err); simpl; rewrite ?length_app; simpl; lia.
      + lia.
      + rewrite length_app. simpl. lia. }
  split; [apply H|]. split; [apply H|].
  intros i t n now j'. subst j'.
  destruct (H (new_Job i t n now)) as [-> ->]. simpl. lia.
Qed.

(** X6: as the completed count advances the progress never goes back. *)
Theorem progress_never_decreases (j : Job) (k1 k2 : nat)
    (cur1 cur2 err1 err2 : option string) (p1 p2 : Z) :
  (0 < totalItems j)%nat ->
  Z.of_nat (totalItems j) < 2 ^ 32 ->
  (k1 <= k2 <= totalItems j)%nat ->
  progress (JobMethods.updateProgress k1 cur1 err1 j) = of_int p1 ->
  progress (JobMethods.updateProgress k2 cur2 err2 j) = of_int p2 ->
  p1 <= p2.
Proof.
  intros Hpos Hlen Hk H1 H2.
  set (n := Z.of_nat (totalItems j)) in *.
  destruct (percent_is_nearest (Z.of_nat k1) n ltac:(lia) ltac:(lia))
    as (q1 & Hq1 & Hb1 & Hlow1 & Hhigh1).
  destruct (percent_is_nearest (Z.of_nat k2) n ltac:(lia) ltac:(lia))
    as (q2 & Hq2 & Hb2 & Hlow2 & Hhigh2).
  change (Math_round (mul (div (of_int (Z.of_nat k1)) (of_int n)) (of_int 100)) = of_int p1)
    in H1.
  change (Math_round (mul (div (of_int (Z.of_nat k2)) (of_int n)) (of_int 100)) = of_int p2)
    in H2.
  rewrite Hq1 in H1. rewrite Hq2 in H2.
  injection H1 as <-. injection H2 as <-.
  set (a := 100 * Z.of_nat k1) in *. set (b := 100 * Z.of_nat k2) in *.
  assert (Hab : a <= b) by (unfold a, b; lia).
  pose proof (Z.div_le_mono a b n ltac:(lia) Hab) as Hdiv.
  destruct (Z.eq_dec (a / n) (b / n)) as [Heq|Hne]; [|lia].
  pose proof (Z.div_mod a n ltac:(lia)) as Ha.
  pose proof (Z.div_mod b n ltac:(lia)) as Hb.
  assert (Hr : a mod n <= b mod n) by (rewrite Heq in Ha; lia).
  destruct (Z.lt_ge_cases (2 * (a mod n)) n) as [Hsmall|Hbig].
  - rewrite (Hlow1 Hsmall). lia.
  - destruct (Z.eq_dec a b) as [Hsame|Hdiff].
    + assert (Z.of_nat k1 = Z.of_nat k2) as Hk12 by (unfold a, b in Hsame; lia).
      rewrite Hk12 in Hq1. rewrite Hq1 in Hq2. injection Hq2. lia.
    + assert (a mod n < b mod n) by (rewrite Heq in Ha; lia).
      rewrite (Hhigh2 ltac:(lia)). lia.
Qed.

Lemma progress_never_decreases_witness :
  progress (JobMethods.updateProgress 1 None None (new_Job "a" "upload" 3 0)) = of_int 33
  /\ progress (JobMethods.updateProgress 2 None None (new_Job "a" "upload" 3 0)) = of_int 67
  /\ 33 <= 67.
Proof.
  split; [vm_compute; reflexivity|]. split; [vm_compute; reflexivity|].
  apply (progress_never_decreases (new_Job "a" "upload" 3 0) 1 2 None None None None 33 67).
  - simpl. lia.
  - simpl. lia.
  - simpl. lia.
  - vm_compute. reflexivity.
  - vm_compute. reflexivity.
Defined.

(** X7: on a job of zero items [updateProgress] divides by zero: the
    progress is [NaN] for a count of zero and [Infinity] for any other,
    never a percentage; [complete] still sets it to 100. *)
Theorem progress_of_a_job_without_items (j : Job) (cur err : option string) :
  totalItems j = 0%nat ->
  progress (JobMethods.updateProgress 0 cur err j) = NaN
  /\ (forall k, (0 < k)%nat ->
        progress (JobMethods.updateProgress k cur err j) = Infinity)
  /\ progress (JobMethods.complete (JobMethods.updateProgress 0 cur err j)) = of_int 100.
Proof.
  intros Hn. simpl. rewrite Hn. split; [reflexivity|]. split; [|reflexivity].
  intros k Hk. unfold div, of_int. simpl.
  destruct (Z.leb_spec (Z.of_nat k) 0); [lia|]. reflexivity.
Qed.

Lemma progress_of_a_job_without_items_witness :
  progress (JobMethods.updateProgress 0 None None (new_Job "a" "sync_check" 0 0)) = NaN.
Proof.
  apply (progress_of_a_job_without_items (new_Job "a" "sync_check" 0 0) None None).
  reflexivity.
Defined.

(** ** The messages of a batch *)
Section Sending.

Context {RT : Runtime}.
Context (job : nat) (st : Server).

Lemma sending_ret {A} (a : A) j : runs_sending (ret a) job st j a j [].
Proof. intros log. by rewrite app_nil_r. Qed.

Lemma sending_lift {A} (a : A) j : runs_sending (lift (Ok a)) job st j a j [].
Proof. intros log. by rewrite app_nil_r. Qed.

Lemma sending_lift_err {A} message j :
  throws_sending (lift (@Err A message)) job st j message j [].
Proof. intros log. by rewrite app_nil_r. Qed.

Lemma sending_bind {A B} (c : M A) (k : A -> M B) j a j1 b j2 e1 e2 :
  runs_sending c job st j a j1 e1 -> runs_sending (k a) job st j1 b j2 e2 ->
  runs_sending (bind c k) job st j b j2 (e1 ++ e2).
Proof.
  intros Hc Hk log. unfold bind. rewrite (Hc log), (Hk (log ++ e1)). by rewrite app_assoc.
Qed.

Lemma sending_bind_err {A B} (c : M A) (k : A -> M B) j message j1 e1 :
  throws_sending c job st j message j1 e1 ->
  throws_sending (bind c k) job st j message j1 e1.
Proof. intros Hc log. unfold bind. by rewrite (Hc log). Qed.

Lemma sending_bind_later {A B} (c : M A) (k : A -> M B) j a j1 message j2 e1 e2 :
  runs_sending c job st j a j1 e1 -> throws_sending (k a) job st j1 message j2 e2 ->
  throws_sending (bind c k) job st j message j2 (e1 ++ e2).
Proof.
  intros Hc Hk log. unfold bind. rewrite (Hc log), (Hk (log ++ e1)). by rewrite app_assoc.
Qed.

Lemma sending_try {A} (body : M A) handler j a j1 e1 :
  runs_sending body job st j a j1 e1 ->
  runs_sending (try_catch body handler) job st j a j1 e1.
Proof. intros Hc log. unfold try_catch. by rewrite (Hc log). Qed.

Lemma sending_catch {A} (body : M A) handler j message j1 a j2 e1 e2 :
  throws_sending body job st j message j1 e1 ->
  runs_sending (handler message) job st j1 a j2 e2 ->
  runs_sending (try_catch body handler) job st j a j2 (e1 ++ e2).
Proof.
  intros Hc Hk log. unfold try_catch. rewrite (Hc log), (Hk (log ++ e1)).
  by rewrite app_assoc.
Qed.

Lemma sending_eq {A} (c : M A) j a j1 e e' :
  runs_sending c job st j a j1 e -> e = e' -> runs_sending c job st j a j1 e'.
Proof. by intros H <-. Qed.

Lemma throws_sending_eq {A} (c : M A) j message j1 e e' :
  throws_sending c job st j message j1 e -> e = e' ->
  throws_sending c job st j message j1 e'.
Proof. by intros H <-. Qed.

Lemma sending_broadcast m j : runs_sending (broadcast m) job st j tt j [m].
Proof. intros log. unfold broadcast, modify, with_job; simpl. by rewrite app_assoc. Qed.

Lemma updates_app ops1 ops2 : forall j,
  updates (ops1 ++ ops2) j = updates ops1 j ++ updates ops2 (apply_ops ops1 j).
Proof.
  induction ops1 as [|op ops1 IH]; intros j; [done|]. simpl. by rewrite IH.
Qed.

Hypothesis allocated : (job < length (objects st))%nat.

Lemma sending_call method j :
  runs_sending (call method job) job st j tt (method j) [job_update (method j)].
Proof.
  intros log. unfold call, modify, with_job; simpl.
  rewrite list_lookup_insert_eq by done.
  by rewrite list_insert_insert_eq, app_assoc.
Qed.

Lemma sending_updateProgress k cur err j :
  runs_sending (job_updateProgress job k cur err) job st j tt
    (apply_op (OpUpdateProgress k cur err) j) (updates [OpUpdateProgress k cur err] j).
Proof. apply sending_call. Qed.

Lemma sending_progress_events i filename evs : forall j,
  let ops := (fun p => OpUpdateProgress i
                (Some (filename +:+ " (" +:+ percent_text (fst p) (snd p) +:+ "%)"))
                None) <$> evs in
  runs_sending (for_each evs (fun p =>
          job_updateProgress job i
            (Some (filename +:+ " (" +:+ percent_text (fst p) (snd p) +:+ "%)")) None))
       job st j tt (apply_ops ops j) (updates ops j).
Proof.
  induction evs as [|p evs IH]; intros j; simpl.
  - apply sending_ret.
  - eapply sending_eq; [eapply sending_bind; [apply sending_updateProgress|apply IH]|].
    done.
Qed.

Lemma transfer_sends strategy i filename io j :
  let ops := transfer_ops strategy i filename io in
  match transfer_result strategy io with
  | Ok u => runs_sending (transfer strategy job i filename io) job st j u
              (apply_ops ops j) (updates ops j)
  | Err message => throws_sending (transfer strategy job i filename io) job st j message
                     (apply_ops ops j) (updates ops j)
  end.
Proof.
  destruct strategy; simpl.
  - destruct (io_readFile io) as [[]|message].
    + destruct (io_upload io) as [[]|message].
      * eapply sending_eq; [eapply sending_bind; apply sending_lift|done].
      * eapply throws_sending_eq;
          [eapply sending_bind_later; [apply sending_lift|apply sending_lift_err]|done].
    + apply sending_bind_err, sending_lift_err.
  - destruct (io_upload io) as [[]|message].
    + eapply sending_eq;
        [eapply sending_bind; [apply sending_progress_events|apply sending_lift]|].
      apply app_nil_r.
    + eapply throws_sending_eq;
        [eapply sending_bind_later; [apply sending_progress_events|apply sending_lift_err]|].
      apply app_nil_r.
Qed.

Lemma upload_one_sends req jobId root baseFolderName i photoPath io results j :
  runs_sending (upload_one req jobId job root baseFolderName i photoPath io results) job st j
       (results ++ [outcome_of req root baseFolderName photoPath io])
       (apply_ops (ops_one req i photoPath io) j)
       (stream_one req jobId root baseFolderName i photoPath io j).
Proof.
  unfold upload_one, ops_one, stream_one, announcement, outcome_of, reported_error,
    progress_ops, attempt.
  rewrite apply_ops_cons, apply_ops_snoc. cbv zeta.
  assert (Hfail : forall message j2,
    runs_sending
      (bind (job_updateProgress job (i + 1) (Some (path_basename photoPath)) message)
            (fun _ => ret (results ++ [NotUploaded photoPath message], true))) job st j2
      (results ++ [NotUploaded photoPath message], true)
      (apply_op (OpUpdateProgress (i + 1) (Some (path_basename photoPath)) message) j2)
      (updates [OpUpdateProgress (i + 1) (Some (path_basename photoPath)) message] j2)).
  { intros. eapply sending_eq;
      [eapply sending_bind; [apply sending_updateProgress|apply sending_ret]|].
    apply app_nil_r. }
  assert (Hdone : forall j2,
    runs_sending
      (bind (job_updateProgress job (i + 1) (Some (path_basename photoPath)) None)
            (fun _ => ret (results ++
               [Uploaded photoPath
                  (upload_s3Key (preserveStructure req) baseFolderName
                     (path_relative root photoPath) (path_basename photoPath) (io_now io))
                  (path_relative root photoPath)]))) job st j2
      (results ++
               [Uploaded photoPath
                  (upload_s3Key (preserveStructure req) baseFolderName
                     (path_relative root photoPath) (path_basename photoPath) (io_now io))
                  (path_relative root photoPath)])
      (apply_op (OpUpdateProgress (i + 1) (Some (path_basename photoPath)) None) j2)
      (updates [OpUpdateProgress (i + 1) (Some (path_basename photoPath)) None] j2)).
  { intros. eapply sending_eq;
      [eapply sending_bind; [apply sending_updateProgress|apply sending_ret]|].
    apply app_nil_r. }
  set (first := OpUpdateProgress i (Some (path_basename photoPath)) None).
  set (j1 := apply_op first j).
  destruct (io_stat io) as [fileSize|message] eqn:Hstat.
  2:{ eapply sending_eq.
      - eapply sending_bind; [apply sending_updateProgress|].
        eapply sending_bind;
          [eapply sending_catch; [apply sending_bind_err, sending_lift_err|apply Hfail]|].
        apply sending_ret.
      - simpl. by rewrite ?app_nil_r. }
  pose proof (transfer_sends (select fileSize) i (path_basename photoPath) io j1) as Ht.
  cbv zeta in Ht.
  destruct (transfer_result (select fileSize) io) as [[]|message].
  2:{ eapply sending_eq.
      - eapply sending_bind; [apply sending_updateProgress|].
        eapply sending_bind; [eapply sending_catch; [|apply Hfail]|apply sending_ret].
        eapply sending_bind_later; [apply sending_lift|]. apply sending_bind_err, Ht.
      - simpl. by rewrite ?app_nil_r. }
  destruct (deleteAfterUpload req).
  - destruct (io_remove io) as [[]|message] eqn:Hrm.
    + eapply sending_eq.
      * eapply sending_bind; [apply sending_updateProgress|].
        eapply sending_bind.
        -- eapply sending_try. eapply sending_bind; [apply sending_lift|].
           eapply sending_bind; [apply Ht|].
           eapply sending_bind; [apply sending_lift|].
           eapply sending_bind; [apply sending_broadcast|apply sending_ret].
        -- simpl. apply Hdone.
      * simpl. by rewrite ?app_nil_r, <- ?app_assoc.
    + eapply sending_eq.
      * eapply sending_bind; [apply sending_updateProgress|].
        eapply sending_bind; [eapply sending_catch; [|apply Hfail]|apply sending_ret].
        eapply sending_bind_later; [apply sending_lift|].
        eapply sending_bind_later; [apply Ht|]. apply sending_bind_err, sending_lift_err.
      * simpl. by rewrite ?app_nil_r.
  - eapply sending_eq.
    + eapply sending_bind; [apply sending_updateProgress|].
      eapply sending_bind.
      * eapply sending_try. eapply sending_bind; [apply sending_lift|].
        eapply sending_bind; [apply Ht|].
        eapply sending_bind; [apply sending_ret|].
        eapply sending_bind; [apply sending_broadcast|apply sending_ret].
      * simpl. apply Hdone.
    + simpl. by rewrite ?app_nil_r, <- ?app_assoc.
Qed.

Lemma upload_loop_sends req jobId root baseFolderName io paths : forall i results j,
  runs_sending (upload_loop req jobId job root baseFolderName i paths io results) job st j
       (results ++ outcomes req root baseFolderName i paths io)
       (apply_ops (ops_loop req i paths io) j)
       (stream_loop req jobId root baseFolderName i paths io j).
Proof.
  induction paths as [|photoPath paths IH]; intros i results j;
    cbn [upload_loop ops_loop stream_loop outcomes].
  - rewrite app_nil_r. apply sending_ret.
  - eapply sending_bind; [apply upload_one_sends|].
    rewrite apply_ops_app.
    replace (results ++ outcome_of req root baseFolderName photoPath (io i)
               :: outcomes req root baseFolderName (S i) paths io)
      with ((results ++ [outcome_of req root baseFolderName photoPath (io i)])
              ++ outcomes req root baseFolderName (S i) paths io)
      by (by rewrite <- app_assoc).
    apply IH.
Qed.

End Sending.

(** ** Reading the stream of a batch *)
Section Streamed.

Context {RT : Runtime}.

Lemma upload_folder_sends req uuid now io st fp :
  config_folderPath (upload_config req) = Some fp ->
  let root := expandTilde fp in
  let results := outcomes req root (path_basename root) 0 (photoPaths req) io in
  let j0 := new_Job uuid "upload" (length (photoPaths req)) now in
  let j := batch_job req uuid now io in
  upload_folder req uuid now io st
  = Some (Ok tt,
          {| objects := objects st ++ [j];
             jobs := <[uuid := length (objects st)]> (jobs st);
             sent := sent st
                       ++ stream_loop req uuid root (path_basename root) 0
                            (photoPaths req) io j0
                       ++ [upload_result uuid results (if_truthy (folderPath req))
                             (if_truthy (fileId req));
                           job_update j];
             timers := timers st ++ [(30000, uuid)];
             replies := replies st ++ [reply_started uuid "Upload started"] |}).
Proof.
  intros Hfp root results j0 j.
  set (st0 := {| objects := objects st ++ [j0];
                 jobs := <[uuid := length (objects st)]> (jobs st);
                 sent := sent st; timers := timers st;
                 replies := replies st ++ [reply_started uuid "Upload started"] |}).
  assert (Halloc : (length (objects st) < length (objects st0))%nat).
  { simpl. rewrite length_app. simpl. lia. }
  pose proof (upload_loop_sends (length (objects st)) st0 Halloc req uuid root
                (path_basename root) io (photoPaths req) 0%nat [] j0 []) as Hloop.
  assert (Hst0 : with_job (length (objects st)) j0 [] st0 = st0).
  { unfold with_job, st0. simpl. f_equal.
    - rewrite insert_app_r_alt by lia. by rewrite Nat.sub_diag.
    - apply app_nil_r. }
  rewrite Hst0 in Hloop.
  unfold upload_folder, try_catch, bind at 1.
  unfold construct_Job, bind at 1, jobs_set, modify, bind at 1, reply, modify. simpl.
  fold j0. fold st0.
  unfold bind at 1, lift, expandTilde_of. rewrite Hfp. fold root.
  unfold bind at 1. rewrite Hloop.
  unfold bind, broadcast, job_complete, call, setTimeout_delete, modify, with_job. simpl.
  rewrite list_lookup_insert_eq by (rewrite length_app; simpl; lia).
  do 2 f_equal. f_equal.
  - rewrite list_insert_insert_eq, insert_app_r_alt by lia.
    by rewrite Nat.sub_diag.
  - by rewrite <- !app_assoc.
Qed.

Lemma announced_app l1 l2 : announced (l1 ++ l2) = announced l1 ++ announced l2.
Proof. apply omap_app. Qed.

Lemma job_updates_app l1 l2 : job_updates (l1 ++ l2) = job_updates l1 ++ job_updates l2.
Proof. apply omap_app. Qed.

Lemma announced_updates ops : forall j, announced (updates ops j) = [].
Proof. induction ops as [|op ops IH]; intros j; [done|]. simpl. apply IH. Qed.

Lemma job_updates_announcement req jobId root base photoPath io :
  job_updates (announcement req jobId root base photoPath io) = [].
Proof. unfold announcement. by destruct (outcome_of _ _ _ _ _). Qed.

Lemma announced_announcement req jobId root base photoPath io :
  announced (announcement req jobId root base photoPath io)
  = uploaded [outcome_of req root base photoPath io].
Proof. unfold announcement. by destruct (outcome_of _ _ _ _ _). Qed.

(** The announcements of the loop are the uploaded outcomes. *)
Lemma stream_loop_announced req jobId root base io paths : forall i j,
  announced (stream_loop req jobId root base i paths io j)
  = uploaded (outcomes req root base i paths io).
Proof.
  induction paths as [|p paths IH]; intros i j; [done|].
  cbn [stream_loop outcomes]. unfold stream_one.
  rewrite !announced_app, !announced_updates, announced_announcement, IH.
  by destruct (outcome_of req root base p (io i)).
Qed.

(** Progress calls with count [k] send the job unchanged but for the
    count, the current item and the progress. *)
Lemma updates_of_progress_calls k ops :
  Forall (progress_call k) ops -> forall j,
  Forall (fun j' => id j' = id j /\ status j' = status j /\ totalItems j' = totalItems j
                    /\ completedItems j' = k)
         (job_updates (updates ops j)).
Proof.
  induction 1 as [|op ops Hop _ IH]; intros j; [constructor|].
  destruct op as [k' cur err| |]; try done. simpl in Hop. subst k'.
  change (job_updates (updates (OpUpdateProgress k cur err :: ops) j))
    with (JobMethods.updateProgress k cur err j
            :: job_updates (updates ops (JobMethods.updateProgress k cur err j))).
  constructor; [done|]. apply (IH (JobMethods.updateProgress k cur err j)).
Qed.

Lemma progress_ops_calls i filename io :
  Forall (progress_call i) (progress_ops i filename io).
Proof.
  unfold progress_ops. destruct (io_stat io) as [size|]; [|constructor].
  destruct (select size); simpl; [constructor|].
  apply Forall_fmap, Forall_forall. by intros p _.
Qed.

Lemma apply_ops_keeps ops : forall j,
  Forall (fun op => exists k, progress_call k op) ops ->
  id (apply_ops ops j) = id j /\ status (apply_ops ops j) = status j
  /\ totalItems (apply_ops ops j) = totalItems j.
Proof.
  induction ops as [|op ops IH]; intros j Hops; [done|].
  apply Forall_cons in Hops as [[k Hop] Hops]. rewrite apply_ops_cons.
  destruct (IH (apply_op op j) Hops) as (-> & -> & ->).
  by destruct op.
Qed.

Lemma ops_one_calls req i p io :
  Forall (fun op => exists k, progress_call k op) (ops_one req i p io).
Proof.
  unfold ops_one. constructor; [by exists i|]. apply Forall_app. split.
  - eapply Forall_impl; [apply progress_ops_calls|]. intros op Hop. by exists i.
  - constructor; [by exists (i + 1)%nat|constructor].
Qed.

Lemma ops_loop_calls req io paths : forall i,
  Forall (fun op => exists k, progress_call k op) (ops_loop req i paths io).
Proof.
  induction paths as [|p paths IH]; intros i; [constructor|].
  cbn [ops_loop]. apply Forall_app. split; [apply ops_one_calls|apply IH].
Qed.

(** The job as the loop broadcasts it: always the same job, running,
    with a count that only grows, from [i] up to [i + length paths]. *)
Lemma stream_loop_job_updates req jobId root base io paths : forall i j,
  let js := job_updates (stream_loop req jobId root base i paths io j) in
  Forall (fun j' => id j' = id j /\ status j' = status j /\ totalItems j' = totalItems j
                    /\ (i <= completedItems j' <= i + length paths)%nat) js
  /\ StronglySorted le (completedItems <$> js).
Proof.
  induction paths as [|p paths IH]; intros i j; cbv zeta.
  - split; constructor.
  - cbn [stream_loop]. rewrite job_updates_app.
    destruct (IH (S i) (apply_ops (ops_one req i p (io i)) j)) as [Hrest Hsorted].
    destruct (apply_ops_keeps _ j (ops_one_calls req i p (io i))) as (Hid & Hst & Htot).
    rewrite Hid, Hst, Htot in Hrest.
    assert (Hone :
      Forall (fun j' => id j' = id j /\ status j' = status j /\ totalItems j' = totalItems j
                        /\ (i <= completedItems j' <= i + 1)%nat)
        (job_updates (stream_one req jobId root base i p (io i) j))).
    { unfold stream_one. rewrite !job_updates_app, job_updates_announcement.
      set (first := OpUpdateProgress i (Some (path_basename p)) None).
      assert (Hbefore : Forall (progress_call i)
                (first :: progress_ops i (path_basename p) (io i))).
      { constructor; [done|apply progress_ops_calls]. }
      apply Forall_app. split.
      - eapply Forall_impl; [apply (updates_of_progress_calls i _ Hbefore j)|].
        simpl. intros j' (? & ? & ? & ?). repeat split; try done; lia.
      - simpl.
        destruct (apply_ops_keeps (first :: progress_ops i (path_basename p) (io i)) j)
          as (Hid' & Hst' & Htot').
        { eapply Forall_impl; [exact Hbefore|]. intros op Hop. by exists i. }
        constructor; [|constructor]. simpl. repeat split; try done; lia. }
    assert (Hsorted1 : StronglySorted le
              (completedItems <$> job_updates (stream_one req jobId root base i p (io i) j))).
    { unfold stream_one. rewrite !job_updates_app, job_updates_announcement.
      set (first := OpUpdateProgress i (Some (path_basename p)) None).
      assert (Hbefore : Forall (progress_call i)
                (first :: progress_ops i (path_basename p) (io i))).
      { constructor; [done|apply progress_ops_calls]. }
      pose proof (updates_of_progress_calls i _ Hbefore j) as Hall.
      rewrite !fmap_app. apply StronglySorted_app_2.
      - intros x1 x2 Hx1 Hx2.
        apply list_elem_of_fmap in Hx1 as (j1 & -> & Hj1).
        rewrite Forall_forall in Hall. destruct (Hall j1 Hj1) as (_ & _ & _ & ->).
        simpl in Hx2. apply list_elem_of_singleton in Hx2 as ->. lia.
      - generalize Hall.
        generalize (job_updates (updates (first :: progress_ops i (path_basename p) (io i)) j)).
        intros l Hl. induction Hl as [|x l (_ & _ & _ & Hx) Hl IHl]; [constructor|].
        rewrite fmap_cons. apply SSorted_cons; [exact IHl|].
        apply Forall_fmap. eapply Forall_impl; [exact Hl|].
        simpl. intros y (_ & _ & _ & ->). lia.
      - simpl. repeat constructor. }
    split.
    + apply Forall_app. split.
      * eapply Forall_impl; [exact Hone|]. simpl.
        intros j' (? & ? & ? & ?). repeat split; try done; lia.
      * eapply Forall_impl; [exact Hrest|]. simpl.
        intros j' (? & ? & ? & ?). repeat split; try done; lia.
    + rewrite fmap_app. apply StronglySorted_app_2; [|done|done].
      intros x1 x2 Hx1 Hx2.
      apply list_elem_of_fmap in Hx1 as (j1 & -> & Hj1).
      apply list_elem_of_fmap in Hx2 as (j2 & -> & Hj2).
      rewrite Forall_forall in Hone. rewrite Forall_forall in Hrest.
      destruct (Hone j1 Hj1) as (_ & _ & _ & ?).
      destruct (Hrest j2 Hj2) as (_ & _ & _ & ?). lia.
Qed.

End Streamed.

(** X8: in the messages of a batch, the [file_upload_success]
    announcements are those of the files the final [upload_result]
    reports as uploaded, one each, in the same order and with the same
    relative path and key; a file that failed is never announced. *)
Theorem uploaded_files_are_announced_once {RT : Runtime} req uuid now io st fp :
  config_folderPath (upload_config req) = Some fp ->
  exists st' log results j,
    upload_folder req uuid now io st = Some (Ok tt, st')
    /\ sent st' = sent st ++ log
                    ++ [upload_result uuid results (if_truthy (folderPath req))
                          (if_truthy (fileId req));
                        job_update j]
    /\ length results = length (photoPaths req)
    /\ announced log = uploaded results
    /\ announced (sent st') = announced (sent st) ++ uploaded results.
Proof.
  intros Hfp. eexists _, _, _, _.
  split; [apply (upload_folder_sends req uuid now io st fp Hfp)|].
  cbn [sent]. split; [reflexivity|]. split; [apply outcomes_length|].
  split; [apply stream_loop_announced|].
  rewrite !announced_app, stream_loop_announced. simpl. by rewrite app_nil_r.
Qed.

Lemma uploaded_files_are_announced_once_witness :
  exists st' log results j,
    upload_folder (RT := Posix.runtime) Examples.batch3 "uuid-0" 0
      (Examples.second_fails (Some "Access Denied"%string)) Examples.empty_server
    = Some (Ok tt, st')
    /\ sent st' = log ++ [upload_result "uuid-0" results None None; job_update j]
    /\ length results = 3%nat
    /\ announced log = uploaded results
    /\ announced (sent st') = uploaded results.
Proof.
  apply (uploaded_files_are_announced_once (RT := Posix.runtime) Examples.batch3 "uuid-0" 0
           (Examples.second_fails (Some "Access Denied"%string)) Examples.empty_server
           "~/photos").
  reflexivity.
Defined.

(** X9: every [job_update] a batch broadcasts before the last one shows
    the batch's own job, still running, with a completed count that never
    goes back and never exceeds the number of files; the last one shows
    it completed at 100 with every file counted. *)
Theorem job_updates_of_a_batch_count_up {RT : Runtime} req uuid now io st fp :
  config_folderPath (upload_config req) = Some fp ->
  exists st' log results j,
    upload_folder req uuid now io st = Some (Ok tt, st')
    /\ sent st' = sent st ++ log
                    ++ [upload_result uuid results (if_truthy (folderPath req))
                          (if_truthy (fileId req));
                        job_update j]
    /\ Forall (fun j' => id j' = uuid /\ status j' = running
                         /\ totalItems j' = length (photoPaths req)
                         /\ (completedItems j' <= length (photoPaths req))%nat)
         (job_updates log)
    /\ StronglySorted le (completedItems <$> job_updates log)
    /\ id j = uuid /\ status j = completed /\ progress j = of_int 100
    /\ completedItems j = length (photoPaths req).
Proof.
  intros Hfp. eexists _, _, _, _.
  split; [apply (upload_folder_sends req uuid now io st fp Hfp)|].
  cbn [sent]. split; [reflexivity|].
  destruct (stream_loop_job_updates req uuid (expandTilde fp)
              (path_basename (expandTilde fp)) io (photoPaths req) 0
              (new_Job uuid "upload" (length (photoPaths req)) now)) as [Hall Hsorted].
  split; [|split; [exact Hsorted|]].
  - eapply Forall_impl; [exact Hall|]. simpl. intros j' (? & ? & ? & ?).
    repeat split; try done; lia.
  - destruct (ops_loop_fields req io (photoPaths req) 0
                (new_Job uuid "upload" (length (photoPaths req)) now))
      as (_ & _ & Hc & _ & _).
    destruct (apply_ops_keeps (ops_loop req 0 (photoPaths req) io)
                (new_Job uuid "upload" (length (photoPaths req)) now)
                (ops_loop_calls req io (photoPaths req) 0))
      as (Hid & _ & _).
    unfold batch_job. simpl. repeat split; try done.
    rewrite Hc. by destruct (photoPaths req).
Qed.

Lemma job_updates_of_a_batch_count_up_witness :
  exists st' log results j,
    upload_folder (RT := Posix.runtime) Examples.batch3 "uuid-0" 0
      (Examples.second_fails (Some "Access Denied"%string)) Examples.empty_server
    = Some (Ok tt, st')
    /\ sent st' = log ++ [upload_result "uuid-0" results None None; job_update j]
    /\ Forall (fun j' => id j' = "uuid-0"%string /\ status j' = running
                         /\ totalItems j' = 3%nat /\ (completedItems j' <= 3)%nat)
         (job_updates log)
    /\ StronglySorted le (completedItems <$> job_updates log)
    /\ id j = "uuid-0"%string /\ status j = completed /\ progress j = of_int 100
    /\ completedItems j = 3%nat.
Proof.
  apply (job_updates_of_a_batch_count_up (RT := Posix.runtime) Examples.batch3 "uuid-0" 0
           (Examples.second_fails (Some "Access Denied"%string)) Examples.empty_server
           "~/photos").
  reflexivity.
Defined.

(** X10: with [deleteAfterUpload], a file that reached the store but
    could not be removed locally is reported as failed, with the message
    of the removal, and is not announced as uploaded. *)
Theorem uploaded_but_unremovable_file_is_reported_failed {RT : Runtime}
    req uuid now io st fp k photoPath size message :
  config_folderPath (upload_config req) = Some fp ->
  photoPaths req !! k = Some photoPath ->
  deleteAfterUpload req = true ->
  io_stat (io k) = Ok size ->
  transfer_result (select size) (io k) = Ok tt ->
  io_remove (io k) = Err message ->
  exists st' log results j,
    upload_folder req uuid now io st = Some (Ok tt, st')
    /\ sent st' = sent st ++ log
                    ++ [upload_result uuid results (if_truthy (folderPath req))
                          (if_truthy (fileId req));
                        job_update j]
    /\ results !! k = Some (NotUploaded photoPath message)
    /\ announced log = uploaded results
    /\ status j = completed.
Proof.
  intros Hfp Hk Hdel Hstat Hup Hrm. eexists _, _, _, _.
  split; [apply (upload_folder_sends req uuid now io st fp Hfp)|].
  cbn [sent]. split; [reflexivity|]. split; [|split; [apply stream_loop_announced|done]].
  rewrite (outcomes_lookup _ _ _ _ _ 0 k photoPath Hk). simpl.
  unfold outcome_of, attempt. by rewrite Hstat, Hup, Hdel, Hrm.
Qed.

Lemma uploaded_but_unremovable_file_is_reported_failed_witness :
  exists st' log results j,
    upload_folder (RT := Posix.runtime) Cases.batch3_deleting "uuid-0" 0
      (Cases.second_unremovable (Some "EPERM: operation not permitted"%string))
      Examples.empty_server
    = Some (Ok tt, st')
    /\ sent st' = log ++ [upload_result "uuid-0" results None None; job_update j]
    /\ results !! 1%nat
       = Some (NotUploaded "/home/user/photos/b.jpg"
                 (Some "EPERM: operation not permitted"%string))
    /\ announced log = uploaded results
    /\ status j = completed.
Proof.
  apply (uploaded_but_unremovable_file_is_reported_failed (RT := Posix.runtime)
           Cases.batch3_deleting "uuid-0" 0
           (Cases.second_unremovable (Some "EPERM: operation not permitted"%string))
           Examples.empty_server "~/photos" 1 "/home/user/photos/b.jpg" 2048
           (Some "EPERM: operation not permitted"%string)); reflexivity.
Defined.

(** ** The reconciler, beyond the flags *)
Section Reconciled.

Context {RT : Runtime}.

(** The listing makes no progress towards an end while every page comes
    with a token. *)
Lemma list_all_endless s3 bucket baseFolderName :
  (forall token, exists response relativePaths,
     s3 bucket (baseFolderName +:+ "/") token = Ok response
     /\ truthy (NextContinuationToken response) = true
     /\ stripped ("^" +:+ baseFolderName +:+ "/") (default [] (Contents response))
          relativePaths) ->
  forall fuel token s3Objects,
    list_all fuel s3 bucket baseFolderName token s3Objects = None.
Proof.
  intros Hs3. induction fuel as [|fuel IH]; intros token acc; [done|]. simpl.
  destruct (Hs3 token) as (response & rs & -> & Hnext & Hrs).
  rewrite (add_keys_stripped _ _ _ acc Hrs), Hnext. apply IH.
Qed.



Lemma pauses_count n : forall i,
  pauses i n = ((i + n + 9) / 10 - (i + 9) / 10)%nat.
Proof.
  induction n as [|n IH]; intros i.
  - simpl. rewrite Nat.add_0_r. lia.
  - cbn [pauses]. rewrite IH.
    pose proof (Nat.div_mod_eq i 10) as Hi.
    pose proof (Nat.mod_upper_bound i 10 ltac:(lia)) as Hr.
    pose proof (Nat.div_mod_eq (i + 9) 10) as H9.
    pose proof (Nat.mod_upper_bound (i + 9) 10 ltac:(lia)) as Hr9.
    pose proof (Nat.div_mod_eq (S i + 9) 10) as H10.
    pose proof (Nat.mod_upper_bound (S i + 9) 10 ltac:(lia)) as Hr10.
    pose proof (Nat.div_mod_eq (S i + n + 9) 10) as Hn.
    pose proof (Nat.mod_upper_bound (S i + n + 9) 10 ltac:(lia)) as Hrn.
    pose proof (Nat.div_mod_eq (i + S n + 9) 10) as Hn'.
    pose proof (Nat.mod_upper_bound (i + S n + 9) 10 ltac:(lia)) as Hrn'.
    replace (i + S n + 9)%nat with (S i + n + 9)%nat in * by lia.
    destruct (Nat.eqb_spec (i mod 10) 0); lia.
Qed.

(** The tracked loop sends one update per file and pauses on every
    tenth turn. *)
Lemma compare_tracked_sends job baseFolderName s3Objects files :
  forall i syncStatus j log st,
    (job < length (objects st))%nat ->
    compare_tracked job baseFolderName s3Objects i files syncStatus
      (with_job job j log st)
    = Some (Ok (compare_simple baseFolderName s3Objects files syncStatus),
            with_job job (apply_ops (sync_ops i files) j)
              (log ++ updates (sync_ops i files) j)
              (Nat.iter (pauses i (length files)) (elapse 10) st)).
Proof.
  induction files as [|f files IH]; intros i m j log st Halloc.
  - simpl. by rewrite app_nil_r.
  - rewrite compare_tracked_cons. unfold bind at 1.
    rewrite (sending_updateProgress job st Halloc (i + 1) (Some (photo_name f)) None j log).
    unfold bind at 1. cbn [length pauses sync_ops updates].
    rewrite apply_ops_cons.
    destruct (i mod 10 =? 0)%nat.
    + unfold sleep, modify. rewrite elapse_with_job.
      rewrite (IH (S i) _ _ _ (elapse 10 st) Halloc).
      rewrite iter_elapse_shift. cbn [updates]. by rewrite <- app_assoc.
    + unfold ret. rewrite (IH (S i) _ _ _ st Halloc).
      cbn [updates]. by rewrite <- app_assoc.
Qed.

Lemma job_updates_updates ops : forall j,
  updates ops j = job_update <$> job_updates (updates ops j).
Proof.
  induction ops as [|op ops IH]; intros j; [done|].
  cbn [updates]. rewrite (IH (apply_op op j)) at 1. done.
Qed.

Lemma sync_ops_shown files : forall i j,
  shown <$> job_updates (updates (sync_ops i files) j)
  = imap (fun k f => ((i + k + 1)%nat, Some (photo_name f))) files.
Proof.
  induction files as [|f files IH]; intros i j; [done|].
  cbn [sync_ops updates imap].
  change (job_updates (job_update ?x :: ?l)) with (x :: job_updates l).
  rewrite fmap_cons, IH. f_equal.
  - unfold shown. simpl. by rewrite Nat.add_0_r.
  - apply imap_ext. intros k g _. simpl. do 2 f_equal. lia.
Qed.

Lemma sync_ops_calls files : forall i,
  Forall (fun op => exists k, (k <= i + length files)%nat /\ progress_call k op)
         (sync_ops i files).
Proof.
  induction files as [|f files IH]; intros i; [constructor|].
  cbn [sync_ops length]. constructor.
  - exists (i + 1)%nat. split; [lia|done].
  - eapply Forall_impl; [apply (IH (S i))|]. intros op (k & Hk & Hop).
    exists k. split; [lia|done].
Qed.

Lemma updates_keep ops (n : nat) : forall j,
  Forall (fun op => exists k, (k <= n)%nat /\ progress_call k op) ops ->
  Forall (fun j' => id j' = id j /\ status j' = status j /\ totalItems j' = totalItems j
                    /\ (completedItems j' <= n)%nat)
         (job_updates (updates ops j)).
Proof.
  induction ops as [|op ops IH]; intros j Hops; [constructor|].
  apply Forall_cons in Hops as [(k & Hk & Hop) Hops].
  destruct op as [k' cur err| |]; try done. simpl in Hop. subst k'.
  change (job_updates (updates (OpUpdateProgress k cur err :: ops) j))
    with (JobMethods.updateProgress k cur err j
            :: job_updates (updates ops (JobMethods.updateProgress k cur err j))).
  constructor; [done|]. apply (IH (JobMethods.updateProgress k cur err j) Hops).
Qed.

Lemma check_sync_status_sends req uuid now s3 fuel st baseFolderName s3Objects :
  baseFolderName_of (sync_config req) = Ok baseFolderName ->
  list_all fuel s3 (config_bucketName (sync_config req)) baseFolderName None ∅
    = Some (Ok s3Objects) ->
  let j0 := new_Job uuid "sync_check" (length (localFiles req)) now in
  let st1 := Nat.iter (pauses 0 (length (localFiles req))) (elapse 10)
               (started st uuid "sync_check" (length (localFiles req)) now
                  "Sync check started") in
  check_sync_status req uuid now s3 fuel st
  = Some (Ok tt,
          {| objects := objects st ++ [sync_job req uuid now];
             jobs := jobs st1;
             sent := sent st ++ updates (sync_ops 0 (localFiles req)) j0
                       ++ [sync_status_result uuid
                             (compare_simple baseFolderName s3Objects (localFiles req) ∅)
                             (size s3Objects);
                           job_update (sync_job req uuid now)];
             timers := timers st1 ++ [(30000, uuid)];
             replies := replies st ++ [reply_started uuid "Sync check started"] |}).
Proof.
  intros Hbase Hlist j0 st1.
  set (st0 := started st uuid "sync_check" (length (localFiles req)) now
                "Sync check started") in *.
  assert (Halloc : (length (objects st) < length (objects st0))%nat).
  { simpl. rewrite length_app. simpl. lia. }
  pose proof (compare_tracked_sends (length (objects st)) baseFolderName s3Objects
                (localFiles req) 0%nat ∅ j0 [] st0 Halloc) as Hloop.
  unfold st0 at 1 in Hloop. unfold j0 at 1 in Hloop.
  rewrite started_with_job in Hloop. fold st0 in Hloop. fold st1 in Hloop.
  destruct (pauses_keep (pauses 0 (length (localFiles req))) st0) as (Ho & Hs & Hr & _ & _).
  fold st1 in Ho, Hs, Hr.
  unfold check_sync_status, try_catch, bind at 1.
  unfold construct_Job, bind at 1, jobs_set, modify, bind at 1, reply, modify. simpl.
  unfold bind at 1, lift. rewrite Hbase.
  unfold bind at 1, lift_loop. rewrite Hlist.
  unfold bind at 1.
  change (compare_tracked (length (objects st)) baseFolderName s3Objects 0
            (localFiles req) ∅ _) with
    (compare_tracked (length (objects st)) baseFolderName s3Objects 0
            (localFiles req) ∅ st0).
  rewrite Hloop.
  unfold bind, broadcast, job_complete, call, setTimeout_delete, modify, with_job. simpl.
  rewrite Ho, Hs, Hr. simpl.
  rewrite list_lookup_insert_eq by (rewrite length_app; simpl; lia).
  do 2 f_equal. f_equal.
  - rewrite list_insert_insert_eq, insert_app_r_alt by lia.
    by rewrite Nat.sub_diag.
  - by rewrite <- !app_assoc.
Qed.

Lemma sync_ops_count files : forall i j,
  completedItems (apply_ops (sync_ops i files) j)
  = (if files is [] then completedItems j else i + length files)%nat.
Proof.
  induction files as [|f files IH]; intros i j; [done|].
  cbn [sync_ops]. rewrite apply_ops_cons, IH. destruct files; simpl; lia.
Qed.

Lemma pauses_timers n st st0 :
  timers st0 = timers st ->
  timers (Nat.iter n (elapse 10) st0) = timers (Nat.iter n (elapse 10) st).
Proof.
  intros H. induction n as [|n IH]; [done|]. rewrite !Nat.iter_succ.
  unfold elapse at 1 3. simpl. by rewrite IH.
Qed.


End Reconciled.

(** X11: whatever the store answers, the simple check creates no job,
    broadcasts nothing and sets no timer: when it settles it has written
    one answer to its response (the status map or an error) and changed
    nothing else. *)
Theorem simple_check_only_answers {RT : Runtime} req s3 fuel st r st' :
  check_sync_status_simple req s3 fuel st = Some (r, st') ->
  r = Ok tt
  /\ objects st' = objects st /\ jobs st' = jobs st
  /\ sent st' = sent st /\ timers st' = timers st
  /\ ((exists syncStatus s3ObjectCount,
         replies st' = replies st ++ [reply_sync_status syncStatus s3ObjectCount])
      \/ replies st' = replies st ++ [reply_error 500 "Failed to check sync status"]).
Proof.
  unfold check_sync_status_simple, try_catch, bind, lift, lift_loop, reply, modify.
  destruct (baseFolderName_of (sync_config req)) as [base|m].
  - destruct (list_all fuel s3 _ base None ∅) as [[acc|m]|]; intros H; [| |done];
      injection H as <- <-; simpl; repeat split; eauto.
  - intros H. injection H as <- <-. simpl. repeat split; eauto.
Qed.

Lemma simple_check_only_answers_witness :
  exists st',
    check_sync_status_simple (RT := Posix.runtime) (Examples.sync_request None)
      Examples.s3_unreachable 5 Examples.server_with_victim = Some (Ok tt, st')
    /\ objects st' = objects Examples.server_with_victim
    /\ jobs st' = jobs Examples.server_with_victim
    /\ sent st' = [] /\ timers st' = [].
Proof.
  eexists. split; [vm_compute; reflexivity|].
  destruct (simple_check_only_answers (RT := Posix.runtime) (Examples.sync_request None)
              Examples.s3_unreachable 5 Examples.server_with_victim (Ok tt) _
              ltac:(vm_compute; reflexivity)) as (_ & Ho & Hj & Hs & Ht & _).
  repeat split; assumption.
Defined.

(** X12: the listing loop has no bound of its own: against a store that
    returns a continuation token with every page, neither check ever
    gets past the listing, however many pages are read: no status map is
    computed, answered or broadcast. *)
Theorem check_never_ends_while_the_store_hands_out_tokens {RT : Runtime}
    req uuid now s3 st baseFolderName :
  baseFolderName_of (sync_config req) = Ok baseFolderName ->
  (forall token, exists response relativePaths,
     s3 (config_bucketName (sync_config req)) (baseFolderName +:+ "/") token = Ok response
     /\ truthy (NextContinuationToken response) = true
     /\ stripped ("^" +:+ baseFolderName +:+ "/") (default [] (Contents response))
          relativePaths) ->
  forall fuel,
    list_all fuel s3 (config_bucketName (sync_config req)) baseFolderName None ∅ = None
    /\ check_sync_status_simple req s3 fuel st = None
    /\ check_sync_status req uuid now s3 fuel st = None.
Proof.
  intros Hbase Hs3 fuel.
  pose proof (list_all_endless s3 _ baseFolderName Hs3 fuel None ∅) as Hlist.
  split; [exact Hlist|]. split.
  - unfold check_sync_status_simple, try_catch, bind, lift, lift_loop.
    by rewrite Hbase, Hlist.
  - unfold check_sync_status, try_catch, bind at 1.
    unfold construct_Job, bind at 1, jobs_set, modify, bind at 1, reply, modify. simpl.
    unfold bind at 1, lift. rewrite Hbase.
    unfold bind at 1, lift_loop. by rewrite Hlist.
Qed.

Lemma check_never_ends_while_the_store_hands_out_tokens_witness :
  check_sync_status_simple (RT := Posix.runtime) (Examples.sync_request None)
    Stores.s3_endless 1000 Examples.empty_server = None
  /\ check_sync_status (RT := Posix.runtime) (Examples.sync_request None) "uuid-0" 0
       Stores.s3_endless 1000 Examples.empty_server = None.
Proof.
  apply (check_never_ends_while_the_store_hands_out_tokens (RT := Posix.runtime)
           (Examples.sync_request None) "uuid-0" 0 Stores.s3_endless Examples.empty_server
           "photos").
  - reflexivity.
  - intros token. eexists _, ["a.jpg"%string].
    split; [reflexivity|]. split; [reflexivity|]. repeat constructor.
Defined.



(** X14: a tracked check sends, before its result, exactly one
    [job_update] per local file, in order: the [k]-th shows the job still
    running with [k] items done and the file's name as current item.
    Then come the result and the job, completed with every file counted
    and no error.  The loop has paused 10 ms on every tenth file. *)
Theorem tracked_check_sends_one_update_per_file {RT : Runtime}
    req uuid now s3 fuel st baseFolderName (s3Objects : gset string) :
  baseFolderName_of (sync_config req) = Ok baseFolderName ->
  list_all fuel s3 (config_bucketName (sync_config req)) baseFolderName None ∅
    = Some (Ok s3Objects) ->
  exists st' js syncStatus j,
    check_sync_status req uuid now s3 fuel st = Some (Ok tt, st')
    /\ sent st' = sent st ++ (job_update <$> js)
                    ++ [sync_status_result uuid syncStatus (size s3Objects); job_update j]
    /\ shown <$> js = imap (fun k f => ((k + 1)%nat, Some (photo_name f))) (localFiles req)
    /\ Forall (fun j' => id j' = uuid /\ status j' = running
                         /\ totalItems j' = length (localFiles req)) js
    /\ status j = completed /\ completedItems j = length (localFiles req)
    /\ failedItems j = 0%nat /\ errors j = []
    /\ timers st'
       = timers (Nat.iter ((length (localFiles req) + 9) / 10) (elapse 10) st)
           ++ [(30000, uuid)].
Proof.
  intros Hbase Hlist.
  set (j0 := new_Job uuid "sync_check" (length (localFiles req)) now).
  eexists _, (job_updates (updates (sync_ops 0 (localFiles req)) j0)), _, _.
  split; [by apply check_sync_status_sends|].
  cbn [sent timers]. split; [by rewrite <- job_updates_updates|].
  split; [apply sync_ops_shown|]. split.
  { eapply Forall_impl;
      [apply (updates_keep _ (0 + length (localFiles req)) j0), sync_ops_calls|].
    simpl. by intros j' (? & ? & ? & _). }
  unfold sync_job. fold j0.
  destruct (quiet_ops_keep _ (sync_ops_quiet (localFiles req) 0) j0) as (_ & _ & Hf & He).
  cbn [JobMethods.complete status completedItems failedItems errors].
  rewrite sync_ops_count, Hf, He.
  split; [done|]. split; [by destruct (localFiles req)|]. split; [done|]. split; [done|].
  rewrite pauses_count. f_equal. simpl. rewrite Nat.sub_0_r. by apply pauses_timers.
Qed.

Lemma tracked_check_sends_one_update_per_file_witness :
  exists st' js syncStatus j,
    check_sync_status (RT := Posix.runtime) (Examples.sync_request None) "uuid-0" 0
      Examples.s3_three_pages 3 Examples.empty_server = Some (Ok tt, st')
    /\ sent st' = (job_update <$> js) ++ [sync_status_result "uuid-0" syncStatus 4; job_update j]
    /\ shown <$> js = [(1%nat, Some "a.jpg"); (2%nat, Some "b.jpg"); (3%nat, Some "c.jpg")]%string
    /\ status j = completed /\ completedItems j = 3%nat.
Proof.
  destruct (tracked_check_sends_one_update_per_file (RT := Posix.runtime)
              (Examples.sync_request None) "uuid-0" 0 Examples.s3_three_pages 3
              Examples.empty_server "photos"
              (list_to_set ["a.jpg"; "x.png"; "1700000000000_c.jpg"; "2024/b.jpg"]%string)
              ltac:(reflexivity) ltac:(vm_compute; reflexivity))
    as (st' & js & syncStatus & j & Hrun & Hsent & Hshown & _ & Hst & Hc & _).
  exists st', js, syncStatus, j. repeat split; assumption.
Defined.







(** ** Untracked uploads *)
Section UntrackedFacts.

Context {RT : Runtime}.





End UntrackedFacts.





(** ** The registry *)
Section RegistryFacts.

Context {RT : Runtime}.

Lemma keyed_by_id_started st uuid type totalItems now message :
  keyed_by_id st -> keyed_by_id (started st uuid type totalItems now message).
Proof.
  intros Hst jobId ref. unfold started. simpl.
  destruct (decide (uuid = jobId)) as [<-|Hne].
  - rewrite lookup_insert_eq. intros [= <-]. exists (new_Job uuid type totalItems now).
    split; [|reflexivity]. rewrite lookup_app_r by lia. by rewrite Nat.sub_diag.
  - rewrite lookup_insert_ne by done. intros Href.
    destruct (Hst jobId ref Href) as (j & Hj & Hid). exists j. split; [|done].
    by apply lookup_app_l_Some.
Qed.

(** Replacing the job behind a reference by one with the same id. *)
Lemma keyed_by_id_update st ref j' st' :
  keyed_by_id st ->
  (forall j, objects st !! ref = Some j -> id j' = id j) ->
  objects st' = <[ref := j']> (objects st) ->
  jobs st' = jobs st ->
  keyed_by_id st'.
Proof.
  intros Hst Hid Hobj Hjobs jobId r. rewrite Hjobs, Hobj. intros Hr.
  destruct (Hst jobId r Hr) as (j & Hj & Hjid).
  destruct (decide (ref = r)) as [->|Hne].
  - exists j'. split; [|by rewrite (Hid j Hj)].
    apply list_lookup_insert_eq. by eapply lookup_lt_Some.
  - exists j. split; [|done]. by rewrite list_lookup_insert_ne.
Qed.

Lemma keyed_by_id_fewer st st' :
  keyed_by_id st -> objects st' = objects st -> jobs st' ⊆ jobs st -> keyed_by_id st'.
Proof.
  intros Hst Hobj Hjobs jobId ref Href. rewrite Hobj.
  apply (Hst jobId ref). by eapply lookup_weaken.
Qed.

Lemma delete_due_subseteq (due : list (Z * string)) (m : gmap string nat) :
  foldr (fun t m => delete (snd t) m) m due ⊆ m.
Proof.
  induction due as [|t due IH]; [done|]. simpl.
  etrans; [apply delete_subseteq|exact IH].
Qed.

Lemma keyed_by_id_elapse dt st : keyed_by_id st -> keyed_by_id (elapse dt st).
Proof.
  intros Hst. apply (keyed_by_id_fewer st); [done|done|]. apply delete_due_subseteq.
Qed.

Lemma keyed_by_id_pauses n st : keyed_by_id st -> keyed_by_id (Nat.iter n (elapse 10) st).
Proof.
  intros Hst. induction n as [|n IH]; [done|]. rewrite Nat.iter_succ.
  by apply keyed_by_id_elapse.
Qed.

Lemma keyed_by_id_add_reply r st : keyed_by_id st -> keyed_by_id (add_reply r st).
Proof. done. Qed.

(** The [catch] block of the tracked handlers fails at most a job the
    registry already holds. *)
Lemma keyed_by_id_fail_requested body_jobId message st r st' :
  keyed_by_id st ->
  fail_requested_job body_jobId message st = Some (r, st') ->
  keyed_by_id st'.
Proof.
  intros Hst. unfold fail_requested_job.
  destruct body_jobId as [jobId|]; [|by intros [= _ <-]].
  destruct (truthy (Some jobId)); [|by intros [= _ <-]].
  destruct (jobs st !! jobId) as [ref|] eqn:Href; [|by intros [= _ <-]].
  unfold job_fail, call, modify.
  destruct (objects st !! ref) as [j|] eqn:Hj; intros [= _ <-]; [|done].
  apply (keyed_by_id_update st ref (JobMethods.fail message j)); try done.
  intros j0 Hj0. by assert (j0 = j) as -> by congruence.
Qed.

(** The state a tracked handler leaves when it is done with a job of
    its own id. *)
Lemma keyed_by_id_finished st uuid type totalItems now message j st' :
  keyed_by_id st ->
  id j = uuid ->
  objects st' = objects st ++ [j] ->
  jobs st' ⊆ jobs (started st uuid type totalItems now message) ->
  keyed_by_id st'.
Proof.
  intros Hst Hid Hobj Hjobs jobId ref Href. rewrite Hobj.
  pose proof (lookup_weaken _ _ _ _ Href Hjobs) as Href'.
  destruct (keyed_by_id_started st uuid type totalItems now message Hst jobId ref Href')
    as (j0 & Hj0 & Hid0).
  unfold started in Hj0, Href'. simpl in Hj0, Href'.
  destruct (decide (uuid = jobId)) as [<-|Hne].
  - rewrite lookup_insert_eq in Href'. injection Href' as <-.
    exists j. split; [|done]. rewrite lookup_app_r by lia. by rewrite Nat.sub_diag.
  - rewrite lookup_insert_ne in Href' by done.
    destruct (Hst jobId ref Href') as (j1 & Hj1 & Hid1). exists j1. split; [|done].
    by apply lookup_app_l_Some.
Qed.

Lemma batch_job_id req uuid now io : id (batch_job req uuid now io) = uuid.
Proof.
  unfold batch_job.
  destruct (apply_ops_keeps (ops_loop req 0 (photoPaths req) io)
              (new_Job uuid "upload" (length (photoPaths req)) now)
              (ops_loop_calls req io (photoPaths req) 0)) as (Hid & _ & _).
  simpl. by rewrite Hid.
Qed.

Lemma sync_job_id req uuid now : id (sync_job req uuid now) = uuid.
Proof.
  unfold sync_job.
  destruct (apply_ops_keeps (sync_ops 0 (localFiles req))
              (new_Job uuid "sync_check" (length (localFiles req)) now)) as (Hid & _ & _).
  { eapply Forall_impl; [apply (sync_ops_calls (localFiles req) 0)|].
    intros op (k & _ & Hk). by exists k. }
  simpl. by rewrite Hid.
Qed.

Lemma upload_folder_keeps_keys req uuid now io st r st' :
  keyed_by_id st ->
  upload_folder req uuid now io st = Some (r, st') ->
  keyed_by_id st'.
Proof.
  intros Hst.
  destruct (config_folderPath (upload_config req)) as [fp|] eqn:Hfp.
  - rewrite (upload_folder_sends req uuid now io st fp Hfp). intros [= _ <-].
    apply (keyed_by_id_finished st uuid "upload" (length (photoPaths req)) now
             "Upload started" (batch_job req uuid now io)); try done.
    apply batch_job_id.
  - unfold upload_folder, try_catch, bind at 1.
    unfold construct_Job, bind at 1, jobs_set, modify, bind at 1, reply, modify. simpl.
    unfold bind at 1, lift, expandTilde_of. rewrite Hfp.
    unfold bind.
    change {| objects := objects st ++ [new_Job uuid "upload" (length (photoPaths req)) now];
              jobs := <[uuid:=length (objects st)]> (jobs st);
              sent := sent st; timers := timers st;
              replies := replies st ++ [reply_started uuid "Upload started"] |}
      with (started st uuid "upload" (length (photoPaths req)) now "Upload started").
    destruct (fail_requested_job _ _ _) as [[[[]|m] st1]|] eqn:Hfail; intros [= _ <-].
    + eapply keyed_by_id_fail_requested in Hfail; [done|].
      by apply keyed_by_id_started.
    + eapply keyed_by_id_fail_requested in Hfail; [done|].
      by apply keyed_by_id_started.
Qed.

Lemma check_sync_status_keeps_keys req uuid now s3 fuel st r st' :
  keyed_by_id st ->
  check_sync_status req uuid now s3 fuel st = Some (r, st') ->
  keyed_by_id st'.
Proof.
  intros Hst.
  assert (Hcatch : forall message r st',
    bind (fail_requested_job (sync_body_jobId req) message)
         (fun _ => reply (reply_error 500 "Failed to check sync status"))
         (started st uuid "sync_check" (length (localFiles req)) now "Sync check started")
    = Some (r, st') -> keyed_by_id st').
  { intros message r0 st0. unfold bind.
    destruct (fail_requested_job _ _ _) as [[[[]|m] st1]|] eqn:Hfail; intros [= _ <-].
    - eapply keyed_by_id_fail_requested in Hfail; [done|]. by apply keyed_by_id_started.
    - eapply keyed_by_id_fail_requested in Hfail; [done|]. by apply keyed_by_id_started. }
  destruct (baseFolderName_of (sync_config req)) as [base|m] eqn:Hbase.
  - destruct (list_all fuel s3 (config_bucketName (sync_config req)) base None ∅)
      as [[acc|m]|] eqn:Hlist.
    + rewrite (check_sync_status_sends req uuid now s3 fuel st base acc Hbase Hlist).
      intros [= _ <-].
      apply (keyed_by_id_finished st uuid "sync_check" (length (localFiles req)) now
               "Sync check started" (sync_job req uuid now)); try done.
      * apply sync_job_id.
      * simpl. generalize (pauses 0 (length (localFiles req))). intros n.
        induction n as [|n IH]; [done|]. rewrite Nat.iter_succ.
        etrans; [apply delete_due_subseteq|exact IH].
    + unfold check_sync_status, try_catch, bind at 1.
      unfold construct_Job, bind at 1, jobs_set, modify, bind at 1, reply, modify. simpl.
      unfold bind at 1, lift. rewrite Hbase.
      unfold bind at 1, lift_loop. rewrite Hlist. apply Hcatch.
    + unfold check_sync_status, try_catch, bind at 1.
      unfold construct_Job, bind at 1, jobs_set, modify, bind at 1, reply, modify. simpl.
      unfold bind at 1, lift. rewrite Hbase.
      unfold bind at 1, lift_loop. by rewrite Hlist.
  - unfold check_sync_status, try_catch, bind at 1.
    unfold construct_Job, bind at 1, jobs_set, modify, bind at 1, reply, modify. simpl.
    unfold bind at 1, lift. rewrite Hbase. apply Hcatch.
Qed.

(** The snapshot lists the registered jobs. *)
Lemma jobs_list_registered st j :
  j ∈ jobs_list st <-> exists jobId, registered st jobId = Some j.
Proof.
  unfold jobs_list, registered. rewrite list_elem_of_omap. split.
  - intros ([jobId ref] & Hin & Hj). apply elem_of_map_to_list in Hin.
    exists jobId. by rewrite Hin.
  - intros (jobId & Hj). destruct (jobs st !! jobId) as [ref|] eqn:Href; [|done].
    exists (jobId, ref). split; [|done]. by apply elem_of_map_to_list.
Qed.

Lemma jobs_list_ids st :
  keyed_by_id st -> id <$> jobs_list st = fst <$> map_to_list (jobs st).
Proof.
  intros Hst. unfold jobs_list.
  assert (Hall : Forall (fun entry => jobs st !! fst entry = Some (snd entry))
                   (map_to_list (jobs st))).
  { apply Forall_forall. intros [jobId ref] Hin. by apply elem_of_map_to_list in Hin. }
  induction Hall as [|[jobId ref] l Hentry _ IH]; [done|].
  simpl in Hentry. destruct (Hst jobId ref Hentry) as (j & Hj & Hid).
  cbn [omap list_omap fmap list_fmap]. simpl. rewrite Hj. simpl. by rewrite Hid, <- IH.
Qed.

Lemma jobs_list_NoDup st : keyed_by_id st -> NoDup (id <$> jobs_list st).
Proof. intros Hst. rewrite jobs_list_ids by done. apply NoDup_fst_map_to_list. Qed.

Lemma check_sync_status_simple_keeps_keys req s3 fuel st r st' :
  keyed_by_id st ->
  check_sync_status_simple req s3 fuel st = Some (r, st') ->
  keyed_by_id st'.
Proof.
  intros Hst.
  unfold check_sync_status_simple, try_catch, bind, lift, lift_loop, reply, modify.
  destruct (baseFolderName_of (sync_config req)) as [base|m].
  - destruct (list_all fuel s3 _ base None ∅) as [[acc|m]|]; intros H; [| |done];
      by injection H as _ <-.
  - intros H. by injection H as _ <-.
Qed.

Lemma registered_keyed st jobId j :
  keyed_by_id st -> registered st jobId = Some j -> id j = jobId.
Proof.
  intros Hst. unfold registered.
  destruct (jobs st !! jobId) as [ref|] eqn:Href; [|done]. simpl. intros Hj.
  destruct (Hst jobId ref Href) as (j0 & Hj0 & Hid). congruence.
Qed.

End RegistryFacts.

(** X20: the registry stays keyed by job id.  If every registered id
    leads to a job that carries it, this is still so after any run of a
    handler, whatever its outcome, and after any lapse of time; no
    [jobs_list] snapshot then names a job id twice. *)
Theorem registry_stays_keyed_by_job_id {RT : Runtime} st :
  keyed_by_id st ->
  (forall req uuid now io r st',
     upload_folder req uuid now io st = Some (r, st') -> keyed_by_id st')
  /\ (forall req uuid now s3 fuel r st',
        check_sync_status req uuid now s3 fuel st = Some (r, st') -> keyed_by_id st')
  /\ (forall req s3 fuel r st',
        check_sync_status_simple req s3 fuel st = Some (r, st') -> keyed_by_id st')
  /\ (forall dt, keyed_by_id (elapse dt st))
  /\ NoDup (id <$> jobs_list st).
Proof.
  intros Hst. split; [|split; [|split; [|split]]].
  - intros req uuid now io r st'. by apply upload_folder_keeps_keys.
  - intros req uuid now s3 fuel r st'. by apply check_sync_status_keeps_keys.
  - intros req s3 fuel r st'. by apply check_sync_status_simple_keeps_keys.
  - intros dt. by apply keyed_by_id_elapse.
  - by apply jobs_list_NoDup.
Qed.

Lemma registry_stays_keyed_by_job_id_witness :
  keyed_by_id Examples.server_with_victim
  /\ keyed_by_id
       (Examples.final_state
          (check_sync_status (RT := Posix.runtime)
             (Examples.sync_request (Some "victim"%string))
             "uuid-0" 7 Examples.s3_unreachable 10 Examples.server_with_victim)).
Proof.
  assert (Hst : keyed_by_id Examples.server_with_victim).
  { intros jobId ref H. simpl in H. apply lookup_singleton_Some in H as [<- <-].
    by eexists. }
  split; [exact Hst|].
  destruct (registry_stays_keyed_by_job_id (RT := Posix.runtime)
              Examples.server_with_victim Hst) as (_ & Hsync & _).
  eapply (Hsync (Examples.sync_request (Some "victim"%string)) "uuid-0" 7
            Examples.s3_unreachable 10%nat (Ok tt)).
  vm_compute. reflexivity.
Defined.

(** X21: a client that connects less than 30000 ms after a batch has
    finished finds the completed job in the [jobs_list] it is sent; from
    30000 ms on no snapshot holds a job of that id. *)
Theorem finished_batch_is_listed_for_30_seconds {RT : Runtime} req uuid now io st fp :
  config_folderPath (upload_config req) = Some fp ->
  keyed_by_id st ->
  uuid ∉ retiring st ->
  exists st' j,
    upload_folder req uuid now io st = Some (Ok tt, st')
    /\ id j = uuid /\ status j = completed
    /\ forall dt,
         (dt < 30000 -> j ∈ jobs_list (elapse dt st'))
         /\ (30000 <= dt -> Forall (fun j' => id j' <> uuid) (jobs_list (elapse dt st'))).
Proof.
  intros Hfp Hst Hfresh.
  pose proof (upload_folder_sends req uuid now io st fp Hfp) as Hrun. cbv zeta in Hrun.
  eexists _, (batch_job req uuid now io). split; [exact Hrun|].
  split; [apply batch_job_id|]. split; [done|].
  intros dt.
  match type of Hrun with _ = Some (_, ?s) => set (st' := s) in * end.
  assert (Hreg : registered (elapse dt st') uuid
                 = if bool_decide (30000 ≤ dt) then None
                   else Some (batch_job req uuid now io)).
  { eapply (scheduled_job_retires _ uuid 30000 (length (objects st))).
    - simpl. apply lookup_insert_eq.
    - simpl. rewrite lookup_app_r by lia. by rewrite Nat.sub_diag.
    - exists (timers st). split; [done|]. exact Hfresh. }
  assert (Hkeys : keyed_by_id (elapse dt st')).
  { apply keyed_by_id_elapse. by eapply upload_folder_keeps_keys. }
  split.
  - intros Hdt. apply jobs_list_registered. exists uuid.
    rewrite Hreg. by rewrite bool_decide_eq_false_2 by lia.
  - intros Hdt. apply Forall_forall. intros j' Hj' Hid.
    apply jobs_list_registered in Hj' as (jobId & Hj').
    pose proof (registered_keyed _ _ _ Hkeys Hj') as Hkey.
    rewrite Hid in Hkey. subst jobId.
    rewrite Hreg in Hj'. by rewrite bool_decide_eq_true_2 in Hj' by lia.
Qed.

Lemma finished_batch_is_listed_for_30_seconds_witness :
  exists st' j,
    upload_folder (RT := Posix.runtime) Examples.batch3 "uuid-0" 0
      (fun _ => Examples.io_ok 2048) Examples.empty_server = Some (Ok tt, st')
    /\ id j = "uuid-0"%string /\ status j = completed
    /\ forall dt,
         (dt < 30000 -> j ∈ jobs_list (elapse dt st'))
         /\ (30000 <= dt ->
             Forall (fun j' => id j' <> "uuid-0"%string) (jobs_list (elapse dt st'))).
Proof.
  apply (finished_batch_is_listed_for_30_seconds (RT := Posix.runtime) Examples.batch3
           "uuid-0" 0 (fun _ => Examples.io_ok 2048) Examples.empty_server "~/photos").
  - reflexivity.
  - intros jobId ref H. simpl in H. by rewrite lookup_empty in H.
  - simpl. apply not_elem_of_nil.
Defined.

(** ** The client *)
Section ClientFacts.

Context {RT : Runtime}.

Lemma receive_app log1 log2 c :
  Client.receive (log1 ++ log2) c = Client.receive log2 (Client.receive log1 c).
Proof. unfold Client.receive. by rewrite fold_left_app. Qed.

Lemma receive_cons data log c :
  Client.receive (data :: log) c = Client.receive log (Client.onmessage data c).
Proof. reflexivity. Qed.

Lemma marks_cons pair pairs status :
  Client.marks (pair :: pairs) status
  = Client.marks pairs (Client.mark_uploaded (fst pair) (snd pair) status).
Proof. reflexivity. Qed.

(** The messages of a batch touch the status only through the
    announcements, and leave the rest of the state but the jobs alone. *)
Lemma receive_batch log : forall c,
  Forall Client.of_a_batch log ->
  let c' := Client.receive (Client.broadcasted <$> log) c in
  Client.syncStatus c' = Client.marks (announced log) (Client.syncStatus c)
  /\ Client.folderStructure c' = Client.folderStructure c
  /\ Client.activeJobIds c' = Client.activeJobIds c
  /\ Client.activeFolderUploads c' = Client.activeFolderUploads c
  /\ Client.activeFileUploads c' = Client.activeFileUploads c
  /\ Client.refreshes c' = Client.refreshes c.
Proof.
  induction log as [|m log IH]; intros c Hlog; [done|].
  apply Forall_cons in Hlog as [Hm Hlog]. cbv zeta.
  rewrite fmap_cons, receive_cons.
  destruct (IH (Client.onmessage (Client.broadcasted m) c) Hlog)
    as (-> & -> & -> & -> & -> & ->).
  by destruct m.
Qed.

Lemma marked_stays rel pairs : forall status,
  (exists e, status !! rel = Some e /\ Client.entry_inS3 e = true) ->
  exists e, Client.marks pairs status !! rel = Some e /\ Client.entry_inS3 e = true.
Proof.
  induction pairs as [|[r k] pairs IH]; intros status Hst; [done|].
  rewrite marks_cons. apply IH. unfold Client.mark_uploaded. simpl.
  destruct (decide (r = rel)) as [->|Hne].
  - rewrite lookup_insert_eq. by eexists.
  - by rewrite lookup_insert_ne.
Qed.

Lemma marks_synced rel pairs : forall status,
  rel ∈ fst <$> pairs ->
  exists e, Client.marks pairs status !! rel = Some e /\ Client.entry_inS3 e = true.
Proof.
  induction pairs as [|[r k] pairs IH]; intros status Hin; [by apply elem_of_nil in Hin|].
  rewrite marks_cons. rewrite fmap_cons in Hin. apply elem_of_cons in Hin as [->|Hin].
  - apply marked_stays. unfold Client.mark_uploaded. simpl.
    rewrite lookup_insert_eq. by eexists.
  - by apply IH.
Qed.

Lemma marks_others rel pairs : forall status,
  rel ∉ fst <$> pairs -> Client.marks pairs status !! rel = status !! rel.
Proof.
  induction pairs as [|[r k] pairs IH]; intros status Hin; [done|].
  rewrite fmap_cons, not_elem_of_cons in Hin. destruct Hin as [Hne Hin]. simpl in Hne.
  rewrite marks_cons, IH by done. unfold Client.mark_uploaded. simpl.
  by rewrite lookup_insert_ne.
Qed.

Lemma stream_loop_of_a_batch req jobId root base io paths : forall i j,
  Forall Client.of_a_batch (stream_loop req jobId root base i paths io j).
Proof.
  assert (Hupdates : forall ops j, Forall Client.of_a_batch (updates ops j)).
  { induction ops as [|op ops IH]; intros j; constructor; [done|apply IH]. }
  induction paths as [|p paths IH]; intros i j; [constructor|].
  cbn [stream_loop]. apply Forall_app. split; [|apply IH].
  unfold stream_one. apply Forall_app. split; [apply Hupdates|].
  apply Forall_app. split; [|apply Hupdates].
  unfold announcement. destruct (outcome_of _ _ _ _ _); repeat constructor.
Qed.

(** When every attempt goes through, the uploaded files are all the
    paths of the batch. *)
Lemma outcomes_all_uploaded req root base io paths : forall i,
  (forall k, (k < length paths)%nat -> attempt req (io (i + k)%nat) = Ok tt) ->
  fst <$> uploaded (outcomes req root base i paths io) = path_relative root <$> paths.
Proof.
  induction paths as [|p paths IH]; intros i Hok; [done|].
  cbn [outcomes]. unfold outcome_of at 1.
  pose proof (Hok 0%nat ltac:(simpl; lia)) as H0. rewrite Nat.add_0_r in H0. rewrite H0.
  change (uploaded (Uploaded ?a ?b ?c :: ?l)) with ((c, b) :: uploaded l).
  rewrite !fmap_cons, IH; [done|].
  intros k Hk. replace (S i + k)%nat with (i + S k)%nat by lia. apply Hok. simpl. lia.
Qed.

Lemma filter_other_then_same (jobId : string) (l : list Job) :
  List.filter (fun j => String.eqb (id j) jobId)
    (List.filter (fun j => negb (String.eqb (id j) jobId)) l) = [].
Proof.
  induction l as [|j l IH]; [done|]. simpl.
  destruct (String.eqb (id j) jobId) eqn:Heq; simpl; [done|]. by rewrite Heq.
Qed.

Lemma filter_all {A} (f : A -> bool) (l : list A) :
  Forall (fun x => f x = true) l -> List.filter f l = l.
Proof. induction 1 as [|x l Hx _ IH]; [done|]. simpl. by rewrite Hx, IH. Qed.

Lemma filter_none {A} (f : A -> bool) (l : list A) :
  Forall (fun x => f x = true) l -> List.filter (fun x => negb (f x)) l = [].
Proof. induction 1 as [|x l Hx _ IH]; [done|]. simpl. by rewrite Hx, IH. Qed.

(** A job list that names each job once still does after any message. *)
Lemma onmessage_distinct data c :
  NoDup (id <$> Client.jobs c) ->
  match data with
  | Client.jobs_list_message js => NoDup (id <$> js)
  | Client.broadcasted _ => True
  end ->
  NoDup (id <$> Client.jobs (Client.onmessage data c)).
Proof.
  intros Hc Hdata. destruct data as [[job| | |]|js]; try done. simpl.
  rewrite fmap_app. apply NoDup_app. split; [|split].
  - clear -Hc. induction (Client.jobs c) as [|j l IH]; [constructor|].
    rewrite fmap_cons in Hc. apply NoDup_cons in Hc as [Hj Hl]. simpl.
    destruct (negb (String.eqb (id j) (id job))); [|by apply IH].
    rewrite fmap_cons. apply NoDup_cons. split; [|by apply IH].
    intros Hin. apply Hj. apply list_elem_of_fmap in Hin as (j' & -> & Hj').
    apply list_elem_of_fmap. exists j'. split; [done|].
    apply list_elem_of_In, filter_In in Hj' as [Hj' _]. by apply list_elem_of_In.
  - intros x Hx Hin. simpl in Hin. apply list_elem_of_singleton in Hin as ->.
    apply list_elem_of_fmap in Hx as (j' & Hid & Hj').
    apply list_elem_of_In, filter_In in Hj' as [_ Hne].
    rewrite <- Hid, String.eqb_refl in Hne. done.
  - simpl. apply NoDup_singleton.
Qed.

End ClientFacts.

(** X22: a folder whose upload goes through shows as synced.  When the
    client sends the photos of a folder with [uploadFolder], every
    transfer succeeds and the relative path the server computes for each
    photo is the one the scan gave it, then after the messages of the
    batch have arrived every one of these photos is marked as in S3: the
    folder counts no unsynced photo and its upload button has nothing
    left to send.  Entries of other paths are untouched, the job list
    holds the batch's job once, completed, and the job is no longer
    active. *)
Theorem uploaded_folder_shows_synced {RT : Runtime}
    c config remove folder photos req uuid now io st root :
  Client.uploadFolder config remove folder photos = Some req ->
  config_folderPath config = Some root ->
  (forall photo, photo ∈ photos ->
     path_relative (expandTilde root) (photo_path photo) = photo_relativePath photo) ->
  (forall k, (k < length photos)%nat -> attempt req (io k) = Ok tt) ->
  exists st' log j,
    upload_folder req uuid now io st = Some (Ok tt, st')
    /\ sent st' = sent st ++ log
    /\ let c' := Client.receive (Client.broadcasted <$> log) c in
       Client.unsynced (Client.syncStatus c') photos = []
       /\ Client.getSyncStats (Client.syncStatus c') photos
          = (length photos, length photos, 0%nat)
       /\ (forall r, r ∉ photo_relativePath <$> photos ->
             Client.syncStatus c' !! r = Client.syncStatus c !! r)
       /\ List.filter (fun j' => String.eqb (id j') uuid) (Client.jobs c') = [j]
       /\ status j = completed
       /\ uuid ∉ Client.activeJobIds c'.
Proof.
  intros Hreq Hroot Hrel Hok.
  assert (req = mkUploadRequest (photo_path <$> photos) config remove true
                  (Some folder) None None) as ->.
  { unfold Client.uploadFolder in Hreq. destruct photos; [done|]. by injection Hreq as <-. }
  set (req := mkUploadRequest _ _ _ _ _ _ _) in *.
  pose proof (upload_folder_sends req uuid now io st root Hroot) as Hrun. cbv zeta in Hrun.
  set (stream := stream_loop req uuid (expandTilde root) (path_basename (expandTilde root)) 0
                   (photoPaths req) io
                   (new_Job uuid "upload" (length (photoPaths req)) now)) in *.
  set (results := outcomes req (expandTilde root) (path_basename (expandTilde root)) 0
                    (photoPaths req) io) in *.
  eexists _, _, (batch_job req uuid now io). split; [exact Hrun|].
  cbn [sent]. split; [reflexivity|]. cbv zeta.
  rewrite fmap_app, receive_app.
  destruct (receive_batch stream c (stream_loop_of_a_batch _ _ _ _ _ _ _ _))
    as (Hstatus & _ & Hactive & _).
  set (c1 := Client.receive (Client.broadcasted <$> stream) c) in *.
  assert (Hfinal :
    Client.receive
      (Client.broadcasted <$>
         [upload_result uuid results (if_truthy (folderPath req)) (if_truthy (fileId req));
          job_update (batch_job req uuid now io)]) c1
    = Client.onmessage (Client.broadcasted (job_update (batch_job req uuid now io)))
        (Client.onmessage
           (Client.broadcasted
              (upload_result uuid results (if_truthy (folderPath req))
                 (if_truthy (fileId req)))) c1)) by reflexivity.
  rewrite Hfinal. cbn [Client.onmessage Client.syncStatus Client.jobs Client.activeJobIds].
  rewrite Hstatus, Hactive.
  assert (Hpairs : fst <$> announced stream = photo_relativePath <$> photos).
  { unfold stream. rewrite stream_loop_announced, outcomes_all_uploaded.
    - simpl. rewrite <- list_fmap_compose. apply list_fmap_ext. intros k p Hp.
      simpl. apply Hrel. by eapply list_elem_of_lookup_2.
    - intros k Hk. apply Hok. simpl in Hk. by rewrite length_fmap in Hk. }
  assert (Hall : Forall (fun photo =>
            Client.is_synced (Client.marks (announced stream) (Client.syncStatus c)) photo
            = true) photos).
  { apply Forall_forall. intros p Hp. unfold Client.is_synced.
    destruct (marks_synced (photo_relativePath p) (announced stream) (Client.syncStatus c))
      as (e & -> & He); [|done].
    rewrite Hpairs. by apply list_elem_of_fmap_2. }
  split; [by apply filter_none|]. split.
  { unfold Client.getSyncStats. rewrite (filter_all _ _ Hall). f_equal. lia. }
  split.
  { intros r Hr. apply marks_others. by rewrite Hpairs. }
  split.
  { rewrite List.filter_app, batch_job_id, filter_other_then_same.
    cbn [List.filter app]. by rewrite batch_job_id, String.eqb_refl. }
  split; [done|]. set_solver.
Qed.

Lemma uploaded_folder_shows_synced_witness :
  let photos := [Examples.local_file "a.jpg" "a.jpg";
                 Examples.local_file "b.jpg" "2024/b.jpg"] in
  exists req st' log j,
    Client.uploadFolder Examples.config false "2024" photos = Some req
    /\ upload_folder (RT := Posix.runtime) req "uuid-0" 0 (fun _ => Examples.io_ok 2048)
         Examples.empty_server = Some (Ok tt, st')
    /\ sent st' = log
    /\ Client.unsynced
         (Client.syncStatus (Client.receive (Client.broadcasted <$> log) Client.initial))
         photos = []
    /\ status j = completed.
Proof.
  intros photos. eexists. 
  destruct (uploaded_folder_shows_synced (RT := Posix.runtime) Client.initial
              Examples.config false "2024" photos _ "uuid-0" 0
              (fun _ => Examples.io_ok 2048) Examples.empty_server "~/photos"
              eq_refl eq_refl) as (st' & log & j & Hrun & Hsent & Hnone & _ & _ & _ & Hj & _).
  - intros photo Hp. unfold photos in Hp.
    repeat (apply elem_of_cons in Hp as [->|Hp]; [reflexivity|]).
    by apply elem_of_nil in Hp.
  - intros k _. reflexivity.
  - exists st', log, j. split; [reflexivity|]. split; [exact Hrun|].
    split; [exact Hsent|]. split; [exact Hnone|exact Hj].
Defined.

(** X23: the client's job list names each job once.  Starting from a
    list without repeated ids, whatever messages arrive ([job_update]s,
    results, snapshots that name each job once) the list still has no
    repeated id; and once a job is dismissed no entry of its id is
    left. *)
Theorem client_lists_each_job_once (log : list Client.Incoming) (c : Client.State) :
  NoDup (id <$> Client.jobs c) ->
  Client.snapshots_distinct log ->
  NoDup (id <$> Client.jobs (Client.receive log c))
  /\ forall jobId,
       let c' := Client.dismissJob jobId (Client.receive log c) in
       NoDup (id <$> Client.jobs c')
       /\ Forall (fun j => id j <> jobId) (Client.jobs c').
Proof.
  intros Hc Hlog.
  assert (Hreceived : NoDup (id <$> Client.jobs (Client.receive log c))).
  { revert c Hc. induction Hlog as [|data log Hdata _ IH]; intros c Hc; [done|].
    rewrite receive_cons. apply IH. by apply onmessage_distinct. }
  split; [exact Hreceived|]. intros jobId. cbv zeta. simpl. split.
  - revert Hreceived. generalize (Client.jobs (Client.receive log c)). intros l Hl.
    induction l as [|j l IH]; [constructor|].
    rewrite fmap_cons in Hl. apply NoDup_cons in Hl as [Hj Hl]. simpl.
    destruct (negb (String.eqb (id j) jobId)); [|by apply IH].
    rewrite fmap_cons. apply NoDup_cons. split; [|by apply IH].
    intros Hin. apply Hj. apply list_elem_of_fmap in Hin as (j' & -> & Hj').
    apply list_elem_of_fmap. exists j'. split; [done|].
    apply list_elem_of_In, filter_In in Hj' as [Hj' _]. by apply list_elem_of_In.
  - apply Forall_forall. intros j Hj Hid.
    apply list_elem_of_In, filter_In in Hj as [_ Hne].
    by rewrite Hid, String.eqb_refl in Hne.
Qed.

Lemma client_lists_each_job_once_witness :
  let running := new_Job "uuid-0" "upload" 3 0 in
  let log := [Client.jobs_list_message [running];
              Client.broadcasted (job_update (JobMethods.updateProgress 1 None None running));
              Client.broadcasted (job_update (JobMethods.complete running))] in
  NoDup (id <$> Client.jobs (Client.receive log Client.initial))
  /\ Client.jobs (Client.receive log Client.initial) = [JobMethods.complete running].
Proof.
  intros running log. split; [|reflexivity].
  apply (client_lists_each_job_once log Client.initial).
  - simpl. constructor.
  - unfold log. repeat constructor. simpl. set_solver.
Defined.



(** ** Names, keys and content types *)
Section Names.

Context {RT : Runtime}.

Lemma obj_set_entries {V} key (value : V) obj kv :
  kv ∈ obj_set key value obj -> kv ∈ obj \/ kv = (key, value).
Proof.
  induction obj as [|[k v] obj IH]; simpl.
  - intros ->%list_elem_of_singleton. by right.
  - destruct (String.eqb_spec k key) as [->|Hne].
    + intros [->|Hin]%elem_of_cons; [by right|]. left. by apply elem_of_cons; right.
    + intros [->|Hin]%elem_of_cons; [left; by apply elem_of_cons; left|].
      destruct (IH Hin) as [Hobj|Hv]; [|by right]. left. by apply elem_of_cons; right.
Qed.

Lemma scan_items_paths scan dirPath relativePath items :
  Forall (fun it => forall p r st tree st',
            scan (snd it) p r st = Ok (tree, st') ->
            path tree = r /\ everywhere paths_ok tree) items ->
  forall folderData st tree st',
    path folderData = relativePath ->
    everywhere paths_ok folderData ->
    scan_items scan dirPath relativePath items folderData st = Ok (tree, st') ->
    path tree = relativePath /\ everywhere paths_ok tree.
Proof.
  induction 1 as [|[item node] items Hnode _ IH]; intros fd st tree st' Hpath Hfd Hrun.
  - simpl in Hrun. by injection Hrun as <- <-.
  - simpl in Hrun, Hnode.
    assert (Hsub : forall subfolder st1,
      scan node (path_join dirPath item) (path_join relativePath item) st
        = Ok (subfolder, st1) ->
      scan_items scan dirPath relativePath items (add_subfolder item subfolder fd) st1
        = Ok (tree, st') ->
      path tree = relativePath /\ everywhere paths_ok tree).
    { intros subfolder st1 Hscan Hrest.
      destruct (Hnode _ _ _ _ _ Hscan) as [Hsubpath Hsubok].
      apply (IH _ _ _ _) in Hrest; [done|done|].
      apply everywhere_unfold in Hfd as [[Hphotos Hsubs] Hchildren].
      apply everywhere_unfold. cbn [add_subfolder subfolders]. split.
      - split; [done|]. cbn [add_subfolder subfolders path]. apply Forall_forall.
        intros kv [Hin| ->]%obj_set_entries.
        + rewrite Forall_forall in Hsubs. by apply Hsubs.
        + simpl. by rewrite Hpath.
      - unfold children_everywhere in *. apply Forall_forall.
        intros kv [Hin| ->]%obj_set_entries; [|done].
        rewrite Forall_forall in Hchildren. by apply Hchildren. }
    destruct node as [size mtime|sub|message| |message].
    + destruct (isImageFile item); [|by apply (IH _ _ _ _ Hpath Hfd Hrun)].
      apply (IH _ _ _ _) in Hrun; [done|done|].
      apply everywhere_unfold in Hfd as [[Hphotos Hsubs] Hchildren].
      apply everywhere_unfold. split; [|done]. split; [|done].
      cbn [add_photo photos path]. apply Forall_app. split; [done|].
      constructor; [|constructor]. simpl. by rewrite Hpath.
    + destruct (scan (FsDir sub) _ _ st) as [[subfolder st1]|m] eqn:Hscan; [|done].
      by apply (Hsub subfolder st1).
    + destruct (scan (FsUnreadableDir message) _ _ st) as [[subfolder st1]|m] eqn:Hscan;
        [|done].
      by apply (Hsub subfolder st1).
    + by apply (IH _ _ _ _ Hpath Hfd Hrun).
    + done.
Qed.

Lemma scanDirectory_paths dir :
  forall dirPath relativePath st tree st',
    scanDirectory dir dirPath relativePath st = Ok (tree, st') ->
    path tree = relativePath /\ everywhere paths_ok tree.
Proof.
  induction dir as [size mtime|items IH|message| |message] using FsNode_nested_ind;
    intros dirPath relativePath st tree st' Hrun; try done.
  simpl in Hrun.
  apply (scan_items_paths scanDirectory dirPath relativePath items IH _ _ _ _) in Hrun;
    [done|done|].
  apply everywhere_unfold. split; [|constructor]. split; constructor.
Qed.

Lemma scan_items_name scan dirPath relativePath items :
  forall folderData st tree st',
    scan_items scan dirPath relativePath items folderData st = Ok (tree, st') ->
    name tree = name folderData.
Proof.
  induction items as [|[item node] items IH]; intros fd st tree st' Hrun.
  - simpl in Hrun. by injection Hrun as <- <-.
  - simpl in Hrun. destruct node as [size mtime|sub|message| |message].
    + destruct (isImageFile item); by apply IH in Hrun.
    + destruct (scan (FsDir sub) _ _ st) as [[subfolder st1]|m]; [|done].
      by apply IH in Hrun.
    + destruct (scan (FsUnreadableDir message) _ _ st) as [[subfolder st1]|m]; [|done].
      by apply IH in Hrun.
    + by apply IH in Hrun.
    + done.
Qed.


End Names.

(** X25: the paths in the tree of a scan.  The root has the empty path
    and the base name of the scanned folder as its name; at every node a
    photo's [relativePath] is the node's [path] joined with the photo's
    name, and a subfolder's [path] is the node's [path] joined with the
    name it is filed under. *)
Theorem tree_paths_follow_the_names {RT : Runtime} dir folderPath rootFolder total :
  scan_photos (Some dir) folderPath = Some (Ok (rootFolder, total)) ->
  path rootFolder = ""%string
  /\ name rootFolder = path_basename (expandTilde folderPath)
  /\ everywhere paths_ok rootFolder.
Proof.
  intros Hscan. unfold scan_photos in Hscan.
  destruct (scanDirectory dir (expandTilde folderPath) "" (mkScanState 0 0))
    as [[tree st']|message] eqn:Hrun; [|done].
  injection Hscan as <- <-.
  destruct (scanDirectory_paths dir _ _ _ _ _ Hrun) as [Hpath Hall].
  split; [done|]. split; [|done].
  destruct dir as [size mtime|items|message| |message]; try done.
  simpl in Hrun. by apply scan_items_name in Hrun.
Qed.

Lemma tree_paths_follow_the_names_witness :
  exists rootFolder,
    scan_photos (RT := Posix.runtime) (Some Examples.photos_dir) "~/photos"
      = Some (Ok (rootFolder, 3%nat))
    /\ path rootFolder = ""%string
    /\ name rootFolder = "photos"%string
    /\ photo_relativePath <$> getAllPhotosInFolder rootFolder
       = ["a.jpg"; "b.png"; "2024/clip.MOV"]%string.
Proof.
  eexists. split; [vm_compute; reflexivity|].
  destruct (tree_paths_follow_the_names (RT := Posix.runtime) Examples.photos_dir
              "~/photos" _ 3%nat ltac:(vm_compute; reflexivity)) as (Hpath & Hname & _).
  split; [exact Hpath|]. split; [exact Hname|]. vm_compute. reflexivity.
Defined.



(** X27: the content-type table names no extension the scanner does not
    accept: a file that gets a type other than
    [application/octet-stream] is a media file. *)
Theorem typed_files_are_media_files {RT : Runtime} (filename : string) :
  getImageMimeType filename <> "application/octet-stream"%string ->
  isImageFile filename = true.
Proof.
  unfold getImageMimeType, isImageFile, mime_of_extension.
  generalize (toLowerCase (path_extname filename)). intros ext.
  repeat match goal with
         | |- context [String.eqb ext ?s] =>
             destruct (String.eqb_spec ext s) as [->|?]; [intros _; by vm_compute|]
         end.
  simpl. done.
Qed.

Lemma typed_files_are_media_files_witness :
  getImageMimeType (RT := Posix.runtime) "IMG_0001.JPG" = "image/jpeg"%string
  /\ isImageFile (RT := Posix.runtime) "IMG_0001.JPG" = true.
Proof.
  split; [vm_compute; reflexivity|].
  apply (typed_files_are_media_files (RT := Posix.runtime) "IMG_0001.JPG").
  vm_compute. discriminate.
Defined.

(** ** Round trip and progress *)
Section RoundTrip.

Context {RT : Runtime}.


(** The percentage of a count within the total is a number from 0 to
    100. *)
Lemma percent_in_range k n :
  0 < n < 2 ^ 32 -> 0 <= k <= n ->
  exists p, Math_round (mul (div (of_int k) (of_int n)) (of_int 100)) = of_int p
            /\ 0 <= p <= 100.
Proof.
  intros Hn Hk.
  destruct (percent_is_nearest k n Hn Hk) as (p & Hp & Hq & Hlow & Hhigh).
  exists p. split; [exact Hp|].
  assert (0 <= 100 * k / n) by (apply Z.div_pos; lia).
  split; [lia|].
  destruct (Z.eq_dec k n) as [Heq|Hne].
  - assert ((100 * k) mod n = 0) as Hr0 by (rewrite Heq; apply Z.mod_mul; lia).
    rewrite Hlow by lia. rewrite Heq. rewrite Z.div_mul; lia.
  - assert (100 * k / n < 100); [|lia].
    apply Z.div_lt_upper_bound; lia.
Qed.

Lemma updates_percentages (n : nat) ops : forall j,
  (0 < n)%nat -> Z.of_nat n < 2 ^ 32 ->
  totalItems j = n ->
  Forall (fun op => exists k, (k <= n)%nat /\ progress_call k op) ops ->
  Forall (fun j' => exists p, progress j' = of_int p /\ 0 <= p <= 100)
         (job_updates (updates ops j)).
Proof.
  induction ops as [|op ops IH]; intros j Hpos Hn Htotal Hops; [constructor|].
  apply Forall_cons in Hops as [(k & Hk & Hop) Hops].
  destruct op as [k' cur err| |]; try done. simpl in Hop. subst k'.
  change (job_updates (updates (OpUpdateProgress k cur err :: ops) j))
    with (JobMethods.updateProgress k cur err j
            :: job_updates (updates ops (JobMethods.updateProgress k cur err j))).
  constructor; [|by apply IH].
  change (progress (JobMethods.updateProgress k cur err j))
    with (Math_round (mul (div (of_int (Z.of_nat k)) (of_int (Z.of_nat (totalItems j))))
                          (of_int 100))).
  rewrite Htotal. apply percent_in_range; lia.
Qed.

Lemma job_updates_stream_loop req jobId root base io paths : forall i j,
  job_updates (stream_loop req jobId root base i paths io j)
  = job_updates (updates (ops_loop req i paths io) j).
Proof.
  induction paths as [|p paths IH]; intros i j; [done|].
  cbn [stream_loop ops_loop]. rewrite updates_app, !job_updates_app, IH. f_equal.
  unfold stream_one, ops_one.
  rewrite !job_updates_app, job_updates_announcement.
  change (OpUpdateProgress i (Some (path_basename p)) None
            :: progress_ops i (path_basename p) (io i) ++ ?l)
    with ((OpUpdateProgress i (Some (path_basename p)) None
             :: progress_ops i (path_basename p) (io i)) ++ l).
  by rewrite updates_app, job_updates_app.
Qed.

Lemma ops_loop_calls_bounded req io paths : forall i,
  Forall (fun op => exists k, (k <= i + length paths)%nat /\ progress_call k op)
         (ops_loop req i paths io).
Proof.
  induction paths as [|p paths IH]; intros i; [constructor|].
  cbn [ops_loop length]. apply Forall_app. split.
  - unfold ops_one. constructor; [exists i; split; [lia|done]|].
    apply Forall_app. split.
    + eapply Forall_impl; [apply progress_ops_calls|]. intros op Hop.
      exists i. split; [lia|done].
    + constructor; [|constructor]. exists (i + 1)%nat. split; [lia|done].
  - eapply Forall_impl; [apply (IH (S i))|]. intros op (k & Hk & Hop).
    exists k. split; [lia|done].
Qed.

End RoundTrip.



(** X29: every [job_update] an upload batch broadcasts, the final one
    included, carries a progress that is a whole number from 0 to 100:
    the division by [totalItems] never yields [NaN] or [Infinity], since
    a batch without paths makes no progress call at all. *)
Theorem upload_progress_is_always_a_percentage {RT : Runtime} req uuid now io st fp :
  config_folderPath (upload_config req) = Some fp ->
  Z.of_nat (length (photoPaths req)) < 2 ^ 32 ->
  exists st' log,
    upload_folder req uuid now io st = Some (Ok tt, st')
    /\ sent st' = sent st ++ log
    /\ Forall (fun j' => exists p, progress j' = of_int p /\ 0 <= p <= 100)
         (job_updates log).
Proof.
  intros Hfp Hlen. eexists _, _.
  split; [apply (upload_folder_sends req uuid now io st fp Hfp)|].
  cbn [sent]. split; [reflexivity|].
  rewrite job_updates_app, job_updates_stream_loop. apply Forall_app. split.
  - destruct (photoPaths req) as [|p paths] eqn:Hpaths; [constructor|].
    apply (updates_percentages (length (p :: paths))); try done.
    + simpl. lia.
    + apply (ops_loop_calls_bounded req io (p :: paths) 0).
  - cbn [job_updates omap list_omap]. repeat constructor. exists 100. split; [done|lia].
Qed.

Lemma upload_progress_is_always_a_percentage_witness :
  exists st' log,
    upload_folder (RT := Posix.runtime) Examples.batch3 "uuid-0" 0
      (Examples.second_fails (Some "Access Denied"%string)) Examples.empty_server
    = Some (Ok tt, st')
    /\ sent st' = log
    /\ Forall (fun j' => exists p, progress j' = of_int p /\ 0 <= p <= 100)
         (job_updates log).
Proof.
  apply (upload_progress_is_always_a_percentage (RT := Posix.runtime) Examples.batch3
           "uuid-0" 0 (Examples.second_fails (Some "Access Denied"%string))
           Examples.empty_server "~/photos").
  - reflexivity.
  - simpl. lia.
Defined.

(** X30: the same holds of a tracked check: every [job_update] it
    broadcasts carries a whole progress from 0 to 100, also when there is
    no local file to compare. *)
Theorem check_progress_is_always_a_percentage {RT : Runtime}
    req uuid now s3 fuel st baseFolderName (s3Objects : gset string) :
  baseFolderName_of (sync_config req) = Ok baseFolderName ->
  list_all fuel s3 (config_bucketName (sync_config req)) baseFolderName None ∅
    = Some (Ok s3Objects) ->
  Z.of_nat (length (localFiles req)) < 2 ^ 32 ->
  exists st' log,
    check_sync_status req uuid now s3 fuel st = Some (Ok tt, st')
    /\ sent st' = sent st ++ log
    /\ Forall (fun j' => exists p, progress j' = of_int p /\ 0 <= p <= 100)
         (job_updates log).
Proof.
  intros Hbase Hlist Hlen. eexists _, _.
  split; [by apply check_sync_status_sends|].
  cbn [sent]. split; [reflexivity|].
  rewrite job_updates_app. apply Forall_app. split.
  - destruct (localFiles req) as [|f files] eqn:Hfiles; [constructor|].
    apply (updates_percentages (length (f :: files))); try done.
    + simpl. lia.
    + apply (sync_ops_calls (f :: files) 0).
  - cbn [job_updates omap list_omap]. repeat constructor. exists 100. split; [done|lia].
Qed.

Lemma check_progress_is_always_a_percentage_witness :
  exists st' log,
    check_sync_status (RT := Posix.runtime) (Examples.sync_request None) "uuid-0" 0
      Examples.s3_three_pages 3 Examples.empty_server = Some (Ok tt, st')
    /\ sent st' = log
    /\ Forall (fun j' => exists p, progress j' = of_int p /\ 0 <= p <= 100)
         (job_updates log).
Proof.
  apply (check_progress_is_always_a_percentage (RT := Posix.runtime)
           (Examples.sync_request None) "uuid-0" 0 Examples.s3_three_pages 3
           Examples.empty_server "photos"
           (list_to_set ["a.jpg"; "x.png"; "1700000000000_c.jpg"; "2024/b.jpg"]%string)).
  - reflexivity.
  - vm_compute. reflexivity.
  - simpl. lia.
Defined.
